(** * ObjectTracker: frame-to-frame tracking of vehicle detections

    A shallow embedding of [services/trackingService.ts] (class
    [ObjectTracker]) and of the [DetectionItem] interface of [types.ts].

    JavaScript numbers are IEEE 754 binary64 values.  The tracker is written
    once, over an interface [JsNum] of the numeric operations it uses, and
    read at two instances: [float] (the kernel's binary64 numbers, which is
    what the program computes with) and [Q] (the same expressions over exact
    rationals).  Counters that only ever hold small integers ([id], [nextId],
    [missingFrames], [createdAt], [count]) are integers [Z]; array positions
    and lengths are [nat].

    [update] mutates the detection objects it is given.  The objects of one
    call are distinct (they come from one parsed response), so an object is
    named by its position in the list passed in, [validDetections] is a list
    of such positions, and a field assignment is an update of the list at a
    position.  The tracker state is passed in and returned. *)

From Stdlib Require Import ZArith QArith Qabs Qround Floats String DecimalString Sorted Lia Lqa.
From stdpp Require Import base list sorting.

Local Open Scope Z_scope.

(** ** Numbers *)

Class JsNum (R : Type) := {
  lit : Q -> R;                  (* a numeric literal of the source text *)
  add : R -> R -> R;
  sub : R -> R -> R;
  mul : R -> R -> R;
  div : R -> R -> R;
  ltb : R -> R -> bool;          (* [a < b]; the source's [a > b] is [ltb b a] *)
  eqb : R -> R -> bool;          (* [a === b] on numbers *)
  Math_abs : R -> R;
  Math_floor : R -> R;
  Math_sign : R -> R;
  Math_max : R -> R -> R;
  Math_min : R -> R -> R;
  ofNat : nat -> R               (* an array length used as a number *)
}.

Module Float64.

(** The binary64 value of an integer (exact below 2^53). *)
Definition ofZ (z : Z) : float :=
  SF2Prim (binary_normalize prec emax z 0 false).

(** A decimal literal [n/d]: one correctly rounded division of two
    exactly represented integers, hence the binary64 value nearest to the
    literal. *)
Definition lit (q : Q) : float :=
  PrimFloat.div (ofZ (Qnum q)) (ofZ (Zpos (Qden q))).

Definition is_negzero (x : float) : bool :=
  match Prim2SF x with S754_zero true => true | _ => false end.

(** [Math.floor]: NaN, the infinities and the zeros are returned as they
    are; a finite [m * 2^e] with [e >= 0] is an integer already. *)
Definition floor (x : float) : float :=
  match Prim2SF x with
  | S754_finite s m e =>
      if (0 <=? e)%Z then x
      else
        let v := if s then Zneg m else Zpos m in
        let q := Z.shiftr v (- e) in
        if (q =? 0)%Z then PrimFloat.zero else ofZ q
  | _ => x
  end.

(** [Math.sign]: 1, -1, or the argument itself (0, -0, NaN). *)
Definition sign (x : float) : float :=
  if PrimFloat.ltb PrimFloat.zero x then PrimFloat.one
  else if PrimFloat.ltb x PrimFloat.zero then PrimFloat.opp PrimFloat.one
  else x.

(** [Math.max] and [Math.min] of two numbers: NaN when either is NaN, and
    [+0] counts as larger than [-0]. *)
Definition max (x y : float) : float :=
  if PrimFloat.is_nan x then x
  else if PrimFloat.is_nan y then y
  else if PrimFloat.ltb x y then y
  else if PrimFloat.ltb y x then x
  else if is_negzero x then y else x.

Definition min (x y : float) : float :=
  if PrimFloat.is_nan x then x
  else if PrimFloat.is_nan y then y
  else if PrimFloat.ltb x y then x
  else if PrimFloat.ltb y x then y
  else if is_negzero x then x else y.

End Float64.

#[export] Instance float_JsNum : JsNum float := {|
  lit := Float64.lit;
  add := PrimFloat.add;
  sub := PrimFloat.sub;
  mul := PrimFloat.mul;
  div := PrimFloat.div;
  ltb := PrimFloat.ltb;
  eqb := PrimFloat.eqb;
  Math_abs := PrimFloat.abs;
  Math_floor := Float64.floor;
  Math_sign := Float64.sign;
  Math_max := Float64.max;
  Math_min := Float64.min;
  ofNat := fun n => Float64.ofZ (Z.of_nat n)
|}.

Module Exact.

Definition ltb (x y : Q) : bool := negb (Qle_bool y x).

Definition sign (x : Q) : Q :=
  if ltb 0 x then 1%Q else if ltb x 0 then (-1)%Q else x.

Definition max (x y : Q) : Q := if ltb x y then y else x.
Definition min (x y : Q) : Q := if ltb x y then x else y.

End Exact.

#[export] Instance Q_JsNum : JsNum Q := {|
  lit := fun q => q;
  add := Qplus;
  sub := Qminus;
  mul := Qmult;
  div := Qdiv;
  ltb := Exact.ltb;
  eqb := Qeq_bool;
  Math_abs := Qabs;
  Math_floor := fun x => inject_Z (Qfloor x);
  Math_sign := Exact.sign;
  Math_max := Exact.max;
  Math_min := Exact.min;
  ofNat := fun n => inject_Z (Z.of_nat n)
|}.

(** ** Data: [types.ts] and the tracker's internal state *)

Inductive DetType := vehicle | pedestrian | infrastructure | other.

Inductive LaneStatus := Stable | LaneChange | Merging.

(** [box_2d]: [[ymin, xmin, ymax, xmax]]. *)
Record Box (R : Type) := mkBox { ymin : R; xmin : R; ymax : R; xmax : R }.
Arguments mkBox {R}.
Arguments ymin {R}.
Arguments xmin {R}.
Arguments ymax {R}.
Arguments xmax {R}.

(** A centroid [[x, y]]. *)
Definition Point (R : Type) : Type := (R * R)%type.

Record DetectionItem (R : Type) := mkDet {
  object : string;
  count : Z;
  confidence : R;
  type : DetType;
  box_2d : option (Box R);
  trackId : option Z;
  estimatedSpeed : option R;
  laneEvent : option LaneStatus;
  isSpeeding : option bool;
  isWrongWay : option bool
}.
Arguments mkDet {R}.
Arguments object {R}.
Arguments count {R}.
Arguments confidence {R}.
Arguments type {R}.
Arguments box_2d {R}.
Arguments trackId {R}.
Arguments estimatedSpeed {R}.
Arguments laneEvent {R}.
Arguments isSpeeding {R}.
Arguments isWrongWay {R}.

Record TrackedObject (R : Type) := mkTrack {
  id : Z;
  class : string;
  box : Box R;
  centroid : Point R;
  history : list (Point R);
  missingFrames : Z;
  speed : R;
  dy : R;
  laneStatus : LaneStatus;
  createdAt : Z
}.
Arguments mkTrack {R}.
Arguments id {R}.
Arguments class {R}.
Arguments box {R}.
Arguments centroid {R}.
Arguments history {R}.
Arguments missingFrames {R}.
Arguments speed {R}.
Arguments dy {R}.
Arguments laneStatus {R}.
Arguments createdAt {R}.

(** The two mutable fields of an [ObjectTracker] instance. *)
Record ObjectTracker (R : Type) := mkTracker {
  tracks : list (TrackedObject R);
  nextId : Z
}.
Arguments mkTracker {R}.
Arguments tracks {R}.
Arguments nextId {R}.

Section Geometry.
Context {R : Type} `{JsNum R}.

Definition num (z : Z) : R := lit (inject_Z z).

(** Tuned parameters and violation thresholds. *)
Definition maxMissingFrames : Z := 50.
Definition iouThreshold : R := lit (15 # 100).
Definition SPEED_LIMIT : R := num 80.

Definition getCentroid (b : Box R) : Point R :=
  let y := div (div (add (ymin b) (ymax b)) (num 2)) (num 1000) in
  let x := div (div (add (xmin b) (xmax b)) (num 2)) (num 1000) in
  (x, y).

Definition calculateIoU (boxA boxB : Box R) : R :=
  let yA := Math_max (ymin boxA) (ymin boxB) in
  let xA := Math_max (xmin boxA) (xmin boxB) in
  let yB := Math_min (ymax boxA) (ymax boxB) in
  let xB := Math_min (xmax boxA) (xmax boxB) in
  let interArea :=
    mul (Math_max (num 0) (sub xB xA)) (Math_max (num 0) (sub yB yA)) in
  let boxAArea :=
    mul (sub (ymax boxA) (ymin boxA)) (sub (xmax boxA) (xmin boxA)) in
  let boxBArea :=
    mul (sub (ymax boxB) (ymin boxB)) (sub (xmax boxB) (xmin boxB)) in
  if eqb (sub (add boxAArea boxBArea) interArea) (num 0) then num 0
  else div interArea (sub (add boxAArea boxBArea) interArea).

(** The local constants of [calculateIoU], by name. *)
Definition boxArea (b : Box R) : R :=
  mul (sub (ymax b) (ymin b)) (sub (xmax b) (xmin b)).

Definition interArea (boxA boxB : Box R) : R :=
  let yA := Math_max (ymin boxA) (ymin boxB) in
  let xA := Math_max (xmin boxA) (xmin boxB) in
  let yB := Math_min (ymax boxA) (ymax boxB) in
  let xB := Math_min (xmax boxA) (xmax boxB) in
  mul (Math_max (num 0) (sub xB xA)) (Math_max (num 0) (sub yB yA)).

Definition unionArea (boxA boxB : Box R) : R :=
  sub (add (boxArea boxA) (boxArea boxB)) (interArea boxA boxB).

End Geometry.

(** ** The tracker *)

Section Tracker.
Context {R : Type} `{JsNum R}.

Abbreviation Det := (DetectionItem R).
Abbreviation Track := (TrackedObject R).

(** Field assignments on the two kinds of objects. *)
Definition setTracking (tid : Z) (spd : R) (lane : LaneStatus) (d : Det) : Det :=
  mkDet (object d) (count d) (confidence d) (type d) (box_2d d)
        (Some tid) (Some spd) (Some lane) (isSpeeding d) (isWrongWay d).

Definition setSpeeding (d : Det) : Det :=
  mkDet (object d) (count d) (confidence d) (type d) (box_2d d)
        (trackId d) (estimatedSpeed d) (laneEvent d) (Some true) (isWrongWay d).

Definition setWrongWay (d : Det) : Det :=
  mkDet (object d) (count d) (confidence d) (type d) (box_2d d)
        (trackId d) (estimatedSpeed d) (laneEvent d) (isSpeeding d) (Some true).

Definition incMissing (t : Track) : Track :=
  mkTrack (id t) (class t) (box t) (centroid t) (history t)
          (missingFrames t + 1) (speed t) (dy t) (laneStatus t) (createdAt t).

(** [d.box_2d && d.type === 'vehicle'] *)
Definition isValid (d : Det) : bool :=
  match box_2d d, type d with
  | Some _, vehicle => true
  | _, _ => false
  end.

(** [detections.filter(...)] keeps references to the same objects: a
    detection object is named by its position in [detections], and
    [validDetections] is the list of the positions kept. *)
Fixpoint validFrom (i : nat) (dets : list Det) : list nat :=
  match dets with
  | [] => []
  | d :: ds => if isValid d then i :: validFrom (S i) ds else validFrom (S i) ds
  end.

Definition validDetections (dets : list Det) : list nat := validFrom 0 dets.

(** [unmatchedDetections]: a [Set] of indices into [validDetections],
    iterated in insertion order. *)
Fixpoint has (s : list nat) (i : nat) : bool :=
  match s with
  | [] => false
  | j :: s' => Nat.eqb j i || has s' i
  end.

Definition delete (i : nat) (s : list nat) : list nat :=
  List.filter (fun j => negb (Nat.eqb j i)) s.

(** The inner [validDetections.forEach((det, index) => ...)] of the
    matching loop; its state is [(bestMatchIndex, bestIoU)], with [None]
    for the index [-1]. *)
Definition considerDet (dets : list Det) (unmatched : list nat) (track : Track)
    (best : option nat * R) (index ref : nat) : option nat * R :=
  if negb (has unmatched index) then best
  else
    match dets !! ref with
    | Some det =>
        match box_2d det with
        | Some b =>
            let iou := calculateIoU (box track) b in
            if ltb iouThreshold iou && ltb (snd best) iou then (Some index, iou)
            else best
        | None => best
        end
    | None => best
    end.

Fixpoint scanDets (dets : list Det) (unmatched : list nat) (track : Track)
    (index : nat) (vd : list nat) (best : option nat * R) : option nat * R :=
  match vd with
  | [] => best
  | ref :: vd' =>
      scanDets dets unmatched track (S index) vd'
               (considerDet dets unmatched track best index ref)
  end.

Definition bestMatch (dets : list Det) (unmatched : list nat) (vd : list nat)
    (track : Track) : option nat :=
  fst (scanDets dets unmatched track 0 vd (None, num 0)).

(** Lane discipline: the status after [history] has received the new
    centroid. *)
Definition laneAfter (old : LaneStatus) (hist : list (Point R)) (newCentroid : Point R)
    : LaneStatus :=
  if (2 <=? length hist)%nat then
    let historyDepth := Nat.min (length hist) 4 in
    match hist !! (length hist - historyDepth)%nat with
    | Some p =>
        let startX := fst p in
        let endX := fst newCentroid in
        let lateralDisplacement := Math_abs (sub endX startX) in
        if ltb (lit (3 # 100)) lateralDisplacement then LaneChange else Stable
    | None => old   (* not reached: the index is below the length *)
    end
  else old.

(** The lane test as the specification words it, to be compared with
    [laneAfter]: the reference entry lies "up to 4 entries back" from the
    current one, which is the last entry of the history, and is the oldest
    entry while fewer are available. *)
Definition laneAfter_spec (old : LaneStatus) (hist : list (Point R)) (newCentroid : Point R)
    : LaneStatus :=
  if (2 <=? length hist)%nat then
    match hist !! (length hist - 1 - Nat.min (length hist - 1) 4)%nat with
    | Some p =>
        if ltb (lit (3 # 100)) (Math_abs (sub (fst newCentroid) (fst p)))
        then LaneChange else Stable
    | None => old
    end
  else old.

(** The body of [if (bestMatchIndex !== -1)] on the track object. *)
Definition updateTrack (track : Track) (b : Box R) : Track :=
  let newCentroid := getCentroid b in
  let deltaY := sub (snd newCentroid) (snd (centroid track)) in
  let absDeltaY := Math_abs deltaY in
  let speed' := Math_floor (mul (mul absDeltaY (num 1000)) (lit (15 # 10))) in
  let pushed := history track ++ [newCentroid] in
  let history' := if (10 <? length pushed)%nat then tail pushed else pushed in
  mkTrack (id track) (class track) b newCentroid history' 0 speed' deltaY
          (laneAfter (laneStatus track) history' newCentroid) (createdAt track).

(** One iteration of [this.tracks.forEach(track => ...)]; the state
    threaded through is the detection objects and the unmatched set. *)
Definition matchTrack (vd : list nat) (st : list Det * list nat) (track : Track)
    : (list Det * list nat) * Track :=
  let '(dets, unmatched) := st in
  match bestMatch dets unmatched vd track with
  | None => (st, track)
  | Some bestMatchIndex =>
      match vd !! bestMatchIndex with
      | Some ref =>
          match dets !! ref with
          | Some m =>
              match box_2d m with
              | Some b =>
                  let track' := updateTrack track b in
                  ((alter (setTracking (id track') (speed track') (laneStatus track'))
                          ref dets,
                    delete bestMatchIndex unmatched),
                   track')
              | None => (st, track)   (* not reached: the scan checked [box_2d] *)
              end
          | None => (st, track)       (* not reached *)
          end
      | None => (st, track)           (* not reached *)
      end
  end.

Fixpoint matchTracks (vd : list nat) (st : list Det * list nat) (ts : list Track)
    : (list Det * list nat) * list Track :=
  match ts with
  | [] => (st, [])
  | t :: ts' =>
      let '(st1, t') := matchTrack vd st t in
      let '(st2, ts'') := matchTracks vd st1 ts' in
      (st2, t' :: ts'')
  end.

(** One iteration of [unmatchedDetections.forEach(index => ...)]. *)
Definition createTrack (vd : list nat) (timestamp : Z)
    (st : ObjectTracker R * list Det) (index : nat) : ObjectTracker R * list Det :=
  let '(self, dets) := st in
  match vd !! index with
  | Some ref =>
      match dets !! ref with
      | Some det =>
          match box_2d det with
          | Some b =>
              let newCentroid := getCentroid b in
              let newTrack :=
                mkTrack (nextId self) (object det) b newCentroid [newCentroid]
                        0 (num 0) (num 0) Stable timestamp in
              (mkTracker (tracks self ++ [newTrack]) (nextId self + 1),
               alter (setTracking (id newTrack) (num 0) Stable) ref dets)
          | None => st
          end
      | None => st
      end
  | None => st
  end.

Definition createTracks (vd : list nat) (timestamp : Z)
    (st : ObjectTracker R * list Det) (unmatched : list nat) : ObjectTracker R * list Det :=
  fold_left (createTrack vd timestamp) unmatched st.

(** Dominant flow direction. *)
Definition activeMovingTracks (ts : list Track) : list Track :=
  List.filter
    (fun t => (missingFrames t =? 0) && ltb (lit (1 # 1000)) (Math_abs (dy t))) ts.

(** The arithmetic mean of a list of numbers, summed from the left. *)
Definition mean (xs : list R) : R :=
  div (fold_left add xs (num 0)) (ofNat (length xs)).

Definition dominantFlow (ts : list Track) : R :=
  let active := activeMovingTracks ts in
  if (0 <? length active)%nat then
    let totalDy := fold_left (fun sum t => add sum (dy t)) active (num 0) in
    div totalDy (ofNat (length active))
  else num 0.

Definition isOpposite (dominantDy : R) (track : Track) : bool :=
  ltb (lit (5 # 1000)) (Math_abs dominantDy)
  && ltb (lit (5 # 1000)) (Math_abs (dy track))
  && negb (eqb (Math_sign dominantDy) (Math_sign (dy track))).

(** The track looked up for a detection: none when [!det.trackId] (the
    field is absent, or 0), else [this.tracks.find(t => t.id === det.trackId)]. *)
Definition trackOf (ts : list Track) (det : Det) : option Track :=
  match trackId det with
  | None => None
  | Some tid => if tid =? 0 then None else List.find (fun t => id t =? tid) ts
  end.

Definition speedViolation (ts : list Track) (det : Det) : bool :=
  match trackOf ts det with
  | Some track => ltb SPEED_LIMIT (speed track)
  | None => false
  end.

Definition wrongWayViolation (ts : list Track) (dominantDy : R) (det : Det) : bool :=
  match trackOf ts det with
  | Some track => isOpposite dominantDy track
  | None => false
  end.

(** The body of the last [validDetections.forEach(det => ...)]. *)
Definition flagDetection (ts : list Track) (dominantDy : R) (det : Det) : Det :=
  match trackOf ts det with
  | None => det
  | Some track =>
      let det1 := if ltb SPEED_LIMIT (speed track) then setSpeeding det else det in
      if isOpposite dominantDy track then setWrongWay det1 else det1
  end.

Definition flagDetections (ts : list Track) (dominantDy : R) (vd : list nat)
    (dets : list Det) : list Det :=
  fold_left (fun ds ref => alter (flagDetection ts dominantDy) ref ds) vd dets.

(** Steps 1 to 3 of [update]: the store before the violation checks and
    the cleanup, with the detections as annotated so far. *)
Definition trackFrame (self : ObjectTracker R) (detections : list Det) (timestamp : Z)
    : ObjectTracker R * list Det :=
  let vd := validDetections detections in
  let aged := map incMissing (tracks self) in
  let unmatched0 := seq 0 (length vd) in
  let '((dets1, unmatched), ts1) := matchTracks vd (detections, unmatched0) aged in
  createTracks vd timestamp (mkTracker ts1 (nextId self), dets1) unmatched.

(** Step 5. *)
Definition cleanup (ts : list Track) : list Track :=
  List.filter (fun t => missingFrames t <=? maxMissingFrames) ts.

Definition update (self : ObjectTracker R) (detections : list Det) (timestamp : Z)
    : ObjectTracker R * list Det :=
  let vd := validDetections detections in
  let '(self3, dets3) := trackFrame self detections timestamp in
  let dominantDy := dominantFlow (tracks self3) in
  let dets4 := flagDetections (tracks self3) dominantDy vd dets3 in
  (mkTracker (cleanup (tracks self3)) (nextId self3), dets4).

Definition reset (self : ObjectTracker R) : ObjectTracker R := mkTracker [] 1.

Definition getActiveTracksCount (self : ObjectTracker R) : nat :=
  length (List.filter (fun t => missingFrames t =? 0) (tracks self)).

(** A freshly constructed tracker, and a tracker driven through a list
    of frames. *)
Definition newTracker : ObjectTracker R := mkTracker [] 1.

Definition run (self : ObjectTracker R) (frames : list (list Det * Z)) : ObjectTracker R :=
  fold_left (fun s fr => fst (update s (fst fr) (snd fr))) frames self.

(** Whether each track of the matching loop finds a match
    ([bestMatchIndex !== -1]), in the order of the loop. *)
Fixpoint foundMatch (vd : list nat) (st : list Det * list nat) (ts : list Track)
    : list bool :=
  match ts with
  | [] => []
  | t :: ts' =>
      match bestMatch (fst st) (snd st) vd t with Some _ => true | None => false end
      :: foundMatch vd (fst (matchTrack vd st t)) ts'
  end.

Definition matchFlags (self : ObjectTracker R) (detections : list Det) : list bool :=
  let vd := validDetections detections in
  foundMatch vd (detections, seq 0 (length vd)) (map incMissing (tracks self)).

(** The track of identity [i], if stored, matches no detection in a call
    of [update] on [detections]; and in none of the calls on [frames]. *)
Fixpoint noMatchFor (i : Z) (ts : list Track) (flags : list bool) : bool :=
  match ts, flags with
  | t :: ts', m :: flags' => negb ((id t =? i) && m) && noMatchFor i ts' flags'
  | _, _ => true
  end.

Definition matchesNone (i : Z) (self : ObjectTracker R) (detections : list Det) : bool :=
  noMatchFor i (tracks self) (matchFlags self detections).

Fixpoint neverMatched (i : Z) (self : ObjectTracker R) (frames : list (list Det * Z))
    : bool :=
  match frames with
  | [] => true
  | fr :: rest =>
      matchesNone i self (fst fr)
      && neverMatched i (fst (update self (fst fr) (snd fr))) rest
  end.

End Tracker.

(** ** Predicates used in the proofs *)

Section Predicates.
Context {R : Type} `{JsNum R}.

Abbreviation Det := (DetectionItem R).
Abbreviation Track := (TrackedObject R).

(** What a candidate must satisfy to replace the best match so far. *)
Definition candidate (dets : list Det) (um : list nat) (t : Track)
    (index ref : nat) (b : Box R) : Prop :=
  has um index = true ∧ (∃ d, dets !! ref = Some d ∧ box_2d d = Some b) ∧
  ltb iouThreshold (calculateIoU (box t) b) = true.

(** What a call may write: the lane statuses in [lanes], and the
    violation flags when [flags] holds. *)
Record Allowed := mkAllowed { lanes : LaneStatus → Prop; flags : Prop }.

(** [annotated L d d']: [d'] is [d] after some of the field assignments
    of [update], as far as [L] allows them. *)
Inductive annotated (L : Allowed) : Det → Det → Prop :=
  | ann_refl d : annotated L d d
  | ann_track tid spd lane d d' :
      lanes L lane → annotated L d d' → annotated L d (setTracking tid spd lane d')
  | ann_speed d d' : flags L → annotated L d d' → annotated L d (setSpeeding d')
  | ann_wrong d d' : flags L → annotated L d d' → annotated L d (setWrongWay d').

(** The detection list during a call, against the list passed in:
    every object carries annotations only, and the objects that are not
    tracked are as they were. *)
Definition evolves (L : Allowed) (dets0 dets : list Det) : Prop :=
  Forall2 (fun d0 d => annotated L d0 d ∧ (isValid d0 = false → d = d0)) dets0 dets.

Definition laneClosed (L : Allowed) : Prop := lanes L Stable ∧ lanes L LaneChange.

(** [t'] is [t] after its match with the detection of index [k], found
    while the unmatched set went from [um] to [um']; [dets'] holds the
    matched detection. *)
Definition matchedAt (vd um um' : list nat) (dets' : list Det) (k : nat)
    (t t' : Track) : Prop :=
  ∃ ref b d',
    vd !! k = Some ref ∧ has um k = true ∧ has um' k = false ∧
    ltb iouThreshold (calculateIoU (box t) b) = true ∧
    t' = updateTrack t b ∧ dets' !! ref = Some d' ∧ box_2d d' = Some b ∧
    trackId d' = Some (id t) ∧ estimatedSpeed d' = Some (speed t') ∧
    laneEvent d' = Some (laneStatus t').

Definition injective (vd : list nat) : Prop :=
  ∀ k1 k2 r, vd !! k1 = Some r → vd !! k2 = Some r → k1 = k2.

Definition newTrackOf (nid : Z) (d : Det) (b : Box R) (timestamp : Z) : Track :=
  mkTrack nid (object d) b (getCentroid b) [getCentroid b] 0 (num 0) (num 0)
          Stable timestamp.

(** Every index of [um] names a detection object that has a box. *)
Definition boxed (vd : list nat) (dets : list Det) (um : list nat) : Prop :=
  ∀ k, has um k = true → ∃ ref d b, vd !! k = Some ref ∧ dets !! ref = Some d ∧ box_2d d = Some b.

(** A stored track across steps 1 to 3: aged, or aged and then updated
    from a detection that now carries its identity. *)
Definition frameStep (dets3 : list Det) (t t1 : Track) : Prop :=
  t1 = incMissing t ∨
  ∃ b ref d3,
    t1 = updateTrack (incMissing t) b ∧
    ltb iouThreshold (calculateIoU (box t) b) = true ∧
    dets3 !! ref = Some d3 ∧ box_2d d3 = Some b ∧ trackId d3 = Some (id t) ∧
    estimatedSpeed d3 = Some (speed t1) ∧ laneEvent d3 = Some (laneStatus t1).

Definition trackOk (bound : Z) (t : Track) : Prop :=
  1 ≤ id t < bound ∧ 0 ≤ missingFrames t ∧ laneStatus t ≠ Merging.

(** Identities are strictly increasing along the store and below
    [nextId]; no counter is negative; no lane status is [Merging]. *)
Definition wf (self : ObjectTracker R) : Prop :=
  StronglySorted Z.lt (map id (tracks self)) ∧
  Forall (trackOk (nextId self)) (tracks self) ∧
  1 ≤ nextId self.

Definition trackOnly : Allowed := mkAllowed (fun _ => True) False.

End Predicates.

(** ** Scenarios, in the program's arithmetic (binary64) *)

Definition fbox (a b c d : Z) : Box float :=
  mkBox (Float64.ofZ a) (Float64.ofZ b) (Float64.ofZ c) (Float64.ofZ d).

Definition car (b : Box float) : DetectionItem float :=
  mkDet "car" 1 (Float64.lit (9 # 10)) vehicle (Some b) None None None None None.

(** Two tracks side by side, created from one frame; the second frame
    holds one detection, at the box of the second track. *)
Definition sideBySide : ObjectTracker float :=
  fst (update newTracker [car (fbox 0 0 100 100); car (fbox 0 50 100 150)] 1).

(** C1 as the specification words it: nothing is asked of the other
    tracks, and of the other detections only that none overlaps more. *)
Definition match_stability_as_stated : Prop :=
  ∀ (self : ObjectTracker float) (detections : list (DetectionItem float)) (timestamp : Z)
    (T : TrackedObject float) (r : nat) (d : DetectionItem float) (B' : Box float),
    T ∈ tracks self →
    detections !! r = Some d → type d = vehicle → box_2d d = Some B' →
    ltb iouThreshold (calculateIoU (box T) B') = true →
    (∀ r' d' b', r' ≠ r → detections !! r' = Some d' → box_2d d' = Some b' →
       ltb (calculateIoU (box T) B') (calculateIoU (box T) b') = false) →
    ∃ d', snd (update self detections timestamp) !! r = Some d' ∧ trackId d' = Some (id T).

(** Six cars in six lanes, then the same six one frame later: the first
    five 20 units further down, the sixth 20 units further up. *)
Definition inLane (j y : Z) : DetectionItem float :=
  car (fbox y (100 * j) (y + 100) (100 * j + 80)).

Definition sixLanes : ObjectTracker float :=
  fst (update newTracker (map (fun j => inLane j 400) [0; 1; 2; 3; 4; 5]) 1).

Definition sixLanesNext : list (DetectionItem float) :=
  map (fun j => inLane j 420) [0; 1; 2; 3; 4] ++ [inLane 5 380].

Definition oneCar : ObjectTracker float :=
  fst (update newTracker [car (fbox 400 400 500 500)] 1).

(** The first example of C3 as the specification words it. *)
Definition speed_example_as_stated : Prop :=
  map estimatedSpeed (snd (update oneCar [car (fbox 430 400 530 500)] 2))
  = [Some (Float64.ofZ 45)].

(** A car that moved sideways by 0.04 between its first and second frame
    and stood still for two more frames. *)
Definition drifted : ObjectTracker float :=
  run newTracker
    [([car (fbox 400 100 500 300)], 1); ([car (fbox 400 140 500 340)], 2);
     ([car (fbox 400 140 500 340)], 3); ([car (fbox 400 140 500 340)], 4)].

Definition driftedTrack : TrackedObject float :=
  mkTrack 1 "car" (fbox 400 140 500 340) (getCentroid (fbox 400 140 500 340))
    [getCentroid (fbox 400 100 500 300); getCentroid (fbox 400 140 500 340);
     getCentroid (fbox 400 140 500 340); getCentroid (fbox 400 140 500 340)]
    0 (num 0) (num 0) LaneChange 1.

(** C7 as the specification words it: the reference entry is 4 entries
    back. *)
Definition lane_reference_as_stated : Prop :=
  ∀ (t : TrackedObject float) (b : Box float),
    (2 ≤ length (history (updateTrack t b)))%nat →
    laneStatus (updateTrack t b)
    = laneAfter_spec (laneStatus t) (history (updateTrack t b)) (getCentroid b).

(** ** Exact arithmetic *)

(** The extent of the intersection along one axis. *)
Definition overlap (lo1 hi1 lo2 hi2 : Q) : Q :=
  Exact.max 0%Q (Exact.min hi1 hi2 - Exact.max lo1 lo2)%Q.

(** ** Integers in binary64 *)

(** The mantissa [p] shifted left by [n] places. *)
Definition pshift (p : positive) (n : Z) : positive :=
  match n with Zpos k => Pos.iter xO p k | _ => p end.

(** The normal binary64 number of value [p] (below 2^53), with sign [s]:
    a mantissa of 53 digits. *)
Definition canon (s : bool) (p : positive) : spec_float :=
  S754_finite s (pshift p (53 - Zpos (digits2_pos p))) (Zpos (digits2_pos p) - 53).

Definition canonZ (z : Z) : spec_float :=
  match z with
  | 0 => S754_zero false
  | Zpos p => canon false p
  | Zneg p => canon true p
  end.

Definition signed (s : bool) (p : positive) : Z := if s then Zneg p else Zpos p.

(** The float [x] is the integer [z] (a zero of either sign when [z] is 0). *)
Definition holds (x : float) (z : Z) : Prop :=
  Z.abs z < 2 ^ 53 ∧
  match z with
  | 0 => ∃ s, Prim2SF x = S754_zero s
  | _ => Prim2SF x = canonZ z
  end.

(** The second normalisation of [binary_round_aux] on a mantissa between
    2^52 and 2^53. *)
Definition finish (s : bool) (m : Z) (e : Z) : spec_float :=
  if m <? 2 ^ 53 then S754_finite s (Z.to_pos m) e
  else S754_finite s (Z.to_pos (2 ^ 52)) (e + 1).

(** A positive normal number that is at most 1. *)
Definition atMostOne (f : spec_float) : Prop :=
  match f with
  | S754_finite false m e => e < -52 ∨ (e = -52 ∧ Zpos m = 2 ^ 52)
  | _ => False
  end.

(** A box coordinate on the integer scale of the detector (0 to 1000), with
    room to spare: areas of such boxes stay below 2^53. *)
Definition onScale (z : Z) : Prop := Z.abs z ≤ 2 ^ 24.

(** ** Further invariants of the store *)

Section Shape.
Context {R : Type} `{JsNum R}.

(** A stored track: its centroid is that of its box and the newest entry
    of its history, which holds between 1 and 10 centroids. *)
Definition trackShape (t : TrackedObject R) : Prop :=
  centroid t = getCentroid (box t) ∧ last (history t) = Some (centroid t) ∧
  (1 ≤ length (history t) ≤ 10)%nat.

(** A track with its [createdAt] replaced, and a tracker with the
    [createdAt] of every stored track replaced. *)
Definition withCreatedAt (c : Z) (t : TrackedObject R) : TrackedObject R :=
  mkTrack (id t) (class t) (box t) (centroid t) (history t) (missingFrames t)
          (speed t) (dy t) (laneStatus t) c.

Definition forgetCreatedAt (self : ObjectTracker R) : ObjectTracker R :=
  mkTracker (map (withCreatedAt 0) (tracks self)) (nextId self).

End Shape.

(** ** The analysis result ([types.ts]) and the tracking step of
    [processImage] ([App.tsx]) *)

Inductive ViolationType := RedLight | Jaywalking | WrongLane | Speeding | OtherViolation.

Inductive Severity := Low | Medium | High.

Record Violation := mkViolation {
  vtype : ViolationType;
  description : string;
  severity : Severity
}.

Inductive LightState := Red | Yellow | Green | Off.

Record TrafficLight := mkLight { state : LightState; lightCount : Z }.

Inductive FlowStatus := FreeFlow | Moderate | Heavy | Gridlock.

Record TrafficAnalysis (R : Type) := mkAnalysis {
  totalVehicles : Z;
  pedestrianCount : Z;
  trafficLights : list TrafficLight;
  congestionLevel : R;
  trafficFlowStatus : FlowStatus;
  estimatedAverageSpeed : R;
  detectedViolations : list Violation
}.
Arguments mkAnalysis {R}.
Arguments totalVehicles {R}.
Arguments pedestrianCount {R}.
Arguments trafficLights {R}.
Arguments congestionLevel {R}.
Arguments trafficFlowStatus {R}.
Arguments estimatedAverageSpeed {R}.
Arguments detectedViolations {R}.

Record TrafficReport (R : Type) := mkReport {
  summary : string;
  recommendations : list string;
  priorityScore : R
}.
Arguments mkReport {R}.
Arguments summary {R}.
Arguments recommendations {R}.
Arguments priorityScore {R}.

Record Place := mkPlace { placeName : string; placeType : string; distance : string }.

Record LocationContextData (R : Type) := mkLocation {
  latitude : option R;
  longitude : option R;
  address : option string;
  nearbyPlaces : list Place;
  trafficInfluencers : list string
}.
Arguments mkLocation {R}.
Arguments latitude {R}.
Arguments longitude {R}.
Arguments address {R}.
Arguments nearbyPlaces {R}.
Arguments trafficInfluencers {R}.

Record FullAnalysisResult (R : Type) := mkResult {
  timestamp : Z;
  detections : list (DetectionItem R);
  analysis : TrafficAnalysis R;
  report : TrafficReport R;
  locationContext : option (LocationContextData R)
}.
Arguments mkResult {R}.
Arguments timestamp {R}.
Arguments detections {R}.
Arguments analysis {R}.
Arguments report {R}.
Arguments locationContext {R}.

(** An integer in a template literal. *)
Definition Number_toString_int (z : Z) : string := NilZero.string_of_int (Z.to_int z).

Section ProcessImage.
Context {R : Type} `{JsNum R}.

(** The text of a number in a template literal. *)
Variable Number_toString : R → string.

Definition templateId (tid : option Z) : string :=
  match tid with Some z => Number_toString_int z | None => "undefined" end.

Definition templateSpeed (spd : option R) : string :=
  match spd with Some x => Number_toString x | None => "undefined" end.

(** [if (d.isSpeeding)], [if (d.isWrongWay)] on an optional boolean. *)
Definition truthy (b : option bool) : bool :=
  match b with Some true => true | _ => false end.

Definition speedingViolation (d : DetectionItem R) : Violation :=
  mkViolation Speeding
    ("Vehicle ID:" ++ templateId (trackId d) ++ " moving at "
       ++ templateSpeed (estimatedSpeed d) ++ "km/h (Limit: 80)")
    High.

Definition wrongLaneViolation (d : DetectionItem R) : Violation :=
  mkViolation WrongLane
    ("Vehicle ID:" ++ templateId (trackId d)
       ++ " detected moving against dominant traffic flow.")
    High.

(** The violations one detection gives rise to, in the order pushed. *)
Definition violationsOf (d : DetectionItem R) : list Violation :=
  (if truthy (isSpeeding d) then [speedingViolation d] else []) ++
  (if truthy (isWrongWay d) then [wrongLaneViolation d] else []).

(** [trackedDetections.forEach(d => ...)], pushing onto [newViolations]. *)
Definition newViolations (trackedDetections : list (DetectionItem R)) : list Violation :=
  fold_left
    (fun acc d =>
       let acc1 := if truthy (isSpeeding d) then acc ++ [speedingViolation d] else acc in
       if truthy (isWrongWay d) then acc1 ++ [wrongLaneViolation d] else acc1)
    trackedDetections [].

Definition setDetectedViolations (a : TrafficAnalysis R) (vs : list Violation)
    : TrafficAnalysis R :=
  mkAnalysis (totalVehicles a) (pedestrianCount a) (trafficLights a) (congestionLevel a)
             (trafficFlowStatus a) (estimatedAverageSpeed a) vs.

(** The synchronous middle of [processImage]: run the tracker on the
    analysis result, extract the tracking-based violations and merge them
    into the result. *)
Definition processImage_track (tracker : ObjectTracker R) (data : FullAnalysisResult R)
    : ObjectTracker R * FullAnalysisResult R :=
  let '(tracker', trackedDetections) := update tracker (detections data) (timestamp data) in
  let new := newViolations trackedDetections in
  let analysis' :=
    if (0 <? length new)%nat
    then setDetectedViolations (analysis data) (detectedViolations (analysis data) ++ new)
    else analysis data in
  (tracker',
   mkResult (timestamp data) trackedDetections analysis' (report data) (locationContext data)).

End ProcessImage.

(** ** Centroids on the detector's scale *)

(** The rank of a number that is a zero or positive and finite: greater
    numbers have greater ranks. *)
Definition rank (x : float) : option Z :=
  match Prim2SF x with
  | S754_zero _ => Some 0
  | S754_finite false m e =>
      if (Zpos m <? 2 ^ 53) && (-1100 <? e) then Some ((e + 1100) * 2 ^ 53 + Zpos m)
      else None
  | _ => None
  end.

(** A centroid coordinate, from the sum of the two box coordinates. *)
Definition centre (s : Z) : float :=
  PrimFloat.div (PrimFloat.div (Float64.ofZ s) (num 2)) (num 1000).

Definition centreRank (s : Z) : Z := default (-1) (rank (centre s)).

(** ** The backend calls ([geminiService.ts]) *)

(** A thrown or rejected value: an [Error] with its message. *)
Record JsError := mkError { message : string }.

(** The second argument of [fetch], with [body] before [JSON.stringify]. *)
Inductive Field (R : Type) := FString (s : string) | FNumber (x : R).
Arguments FString {R}.
Arguments FNumber {R}.

Record Request (R : Type) := mkRequest {
  url : string;
  method : string;
  headers : list (string * string);
  body : list (string * Field R)
}.
Arguments mkRequest {R}.
Arguments url {R}.
Arguments method {R}.
Arguments headers {R}.
Arguments body {R}.

(** What the caller reads of a response; [json] is the outcome of
    [response.json()], which rejects when the body does not parse. *)
Record Response (T : Type) := mkResponse {
  ok : bool;
  statusText : string;
  json : JsError + T
}.
Arguments mkResponse {T}.
Arguments ok {T}.
Arguments statusText {T}.
Arguments json {T}.

Definition BACKEND_URL : string := "https://multi-ai-backend-ehhj.onrender.com".

Section Backend.
Context {R : Type}.

(** [fetch]: rejects, or resolves with a response whose body the caller
    reads at the type it expects. *)
Variable fetch : ∀ T : Type, Request R → JsError + Response T.

Definition analysisRequest (base64Image mimeType : string) : Request R :=
  mkRequest (BACKEND_URL ++ "/api/gemini") "POST"
    [("Content-Type"%string, "application/json"%string)]
    [("prompt"%string, FString "traffic-analysis"); ("image"%string, FString base64Image);
     ("mimeType"%string, FString mimeType)].

(** An [async] function returns what it logged with [console.error] and
    how its promise settles: rejected ([inl]) or resolved ([inr]). *)
Definition analyzeTrafficImage (base64Image mimeType : string)
    : list (string * JsError) * (JsError + FullAnalysisResult R) :=
  let attempt : JsError + FullAnalysisResult R :=
    match fetch (FullAnalysisResult R) (analysisRequest base64Image mimeType) with
    | inl err => inl err
    | inr response =>
        if negb (ok response)
        then inl (mkError ("Analysis failed: " ++ statusText response))
        else json response
    end in
  match attempt with
  | inr result => ([], inr result)
  | inl err =>
      ([("Frontend Error:"%string, err)], inl (mkError "Failed to connect to analysis server."))
  end.

Definition locationRequest (lat lng : R) : Request R :=
  mkRequest (BACKEND_URL ++ "/api/location") "POST"
    [("Content-Type"%string, "application/json"%string)]
    [("lat"%string, FNumber lat); ("lng"%string, FNumber lng)].

Definition getLocationContext (lat lng : R)
    : list (string * JsError) * (JsError + LocationContextData R) :=
  let attempt : JsError + LocationContextData R :=
    match fetch (LocationContextData R) (locationRequest lat lng) with
    | inl err => inl err
    | inr response =>
        if negb (ok response) then inl (mkError "Location lookup failed.")
        else json response
    end in
  match attempt with
  | inr context => ([], inr context)
  | inl err =>
      ([("Location context fetch failed:"%string, err)],
       inr (mkLocation (Some lat) (Some lng) (Some "Location Service Unavailable"%string) []
                       ["Could not load location context"%string]))
  end.

End Backend.

(** ** The dashboard's view of the detections ([ResultsDashboard.tsx]) *)

(** An entry [{ name, count }] of the chart data. *)
Record ChartItem := mkChartItem { itemName : string; itemCount : Z }.

Section Dashboard.
Context {R : Type}.

(** [detections.filter(d => d.type === 'vehicle')] *)
Definition vehicleDetections (dets : list (DetectionItem R)) : list (DetectionItem R) :=
  List.filter (fun d => match type d with vehicle => true | _ => false end) dets.

(** The position of the entry that [acc.find(item => item.name === name)]
    returns. *)
Fixpoint findName (name : string) (acc : list ChartItem) : option nat :=
  match acc with
  | [] => None
  | item :: rest =>
      if String.eqb (itemName item) name then Some 0%nat
      else option_map S (findName name rest)
  end.

(** One step of the [reduce]: the entry found is updated in place,
    otherwise a new entry is pushed. *)
Definition groupStep (acc : list ChartItem) (curr : DetectionItem R) : list ChartItem :=
  match findName (object curr) acc with
  | Some i => alter (fun existing => mkChartItem (itemName existing)
                                                 (itemCount existing + count curr)) i acc
  | None => acc ++ [mkChartItem (object curr) (count curr)]
  end.

Definition groupedChartData (dets : list (DetectionItem R)) : list ChartItem :=
  fold_left groupStep (vehicleDetections dets) [].

(** [detections.filter(d => d.trackId !== undefined)] *)
Definition trackedItems (dets : list (DetectionItem R)) : list (DetectionItem R) :=
  List.filter (fun d => match trackId d with Some _ => true | None => false end) dets.

(** The sum of the counts of the detections of one kind of object, and the
    sum of all counts. *)
Definition countOf (name : string) (dets : list (DetectionItem R)) : Z :=
  fold_right Z.add 0
    (map count (List.filter (fun d => String.eqb (object d) name) dets)).

Definition totalCount (dets : list (DetectionItem R)) : Z :=
  fold_right Z.add 0 (map count dets).

End Dashboard.

(** The names of the vehicles of a frame, each once, in order of first
    appearance. *)
Fixpoint firstSeen (seen names : list string) : list string :=
  match names with
  | [] => []
  | n :: rest =>
      if existsb (String.eqb n) seen then firstSeen seen rest
      else n :: firstSeen (seen ++ [n]) rest
  end.

(** A track that went unmatched for [n] more frames. *)
Definition ageBy {R : Type} (n : Z) (t : TrackedObject R) : TrackedObject R :=
  mkTrack (id t) (class t) (box t) (centroid t) (history t) (missingFrames t + n)
          (speed t) (dy t) (laneStatus t) (createdAt t).

(** Two lists of detection objects that hold the same objects at the
    positions named by [vdA] and by [vdB], in order. *)
Definition sameView {R : Type} (vdA vdB : list nat) (A B : list (DetectionItem R)) : Prop :=
  Forall2 (fun ra rb => A !! ra = B !! rb) vdA vdB.

(** ** Facts about the phases of [update] *)

Section TrackerFacts.
Context {R : Type} `{JsNum R}.

Abbreviation Det := (DetectionItem R).
Abbreviation Track := (TrackedObject R).

#[local] Arguments matchTrack : simpl never.
#[local] Arguments updateTrack : simpl never.
#[local] Arguments createTrack : simpl never.
#[local] Arguments flagDetection : simpl never.
#[local] Arguments calculateIoU : simpl never.
#[local] Arguments getCentroid : simpl never.
#[local] Arguments laneAfter : simpl never.
#[local] Arguments bestMatch : simpl never.

(** *** Geometry *)

Lemma calculateIoU_eq (boxA boxB : Box R) :
  calculateIoU boxA boxB =
    if eqb (unionArea boxA boxB) (num 0) then num 0
    else div (interArea boxA boxB) (unionArea boxA boxB).
Proof. reflexivity. Qed.

(** *** [validDetections] *)

Lemma validFrom_lookup i (dets : list Det) k ref :
  validFrom i dets !! k = Some ref →
  (i ≤ ref)%nat ∧ ∃ d, dets !! (ref - i)%nat = Some d ∧ isValid d = true.
Proof.
  revert i k. induction dets as [|d ds IH]; intros i k Hk; simpl in Hk.
  - discriminate.
  - destruct (isValid d) eqn:Hv.
    + destruct k as [|k]; simpl in Hk.
      * injection Hk as <-. split; [lia|]. exists d.
        replace (i - i)%nat with 0%nat by lia. done.
      * apply IH in Hk as (Hle & d' & Hd' & Hv'). split; [lia|]. exists d'.
        replace (ref - i)%nat with (S (ref - S i)) by lia. done.
    + apply IH in Hk as (Hle & d' & Hd' & Hv'). split; [lia|]. exists d'.
      replace (ref - i)%nat with (S (ref - S i)) by lia. done.
Qed.

Lemma validFrom_lt i (dets : list Det) k1 k2 r1 r2 :
  (k1 < k2)%nat → validFrom i dets !! k1 = Some r1 →
  validFrom i dets !! k2 = Some r2 → (r1 < r2)%nat.
Proof.
  revert i k1 k2. induction dets as [|d ds IH]; intros i k1 k2 Hlt H1 H2; simpl in *.
  - discriminate.
  - destruct (isValid d).
    + destruct k2 as [|k2]; [lia|]. destruct k1 as [|k1]; simpl in *.
      * injection H1 as <-. apply validFrom_lookup in H2 as [? _]. lia.
      * eapply (IH (S i) k1 k2); [lia|done..].
    + eapply IH; done.
Qed.

Lemma validFrom_inj i (dets : list Det) k1 k2 r :
  validFrom i dets !! k1 = Some r → validFrom i dets !! k2 = Some r → k1 = k2.
Proof.
  intros H1 H2. destruct (Nat.lt_total k1 k2) as [Hlt|[->|Hlt]]; [|done|].
  - pose proof (validFrom_lt _ _ _ _ _ _ Hlt H1 H2). lia.
  - pose proof (validFrom_lt _ _ _ _ _ _ Hlt H2 H1). lia.
Qed.

Lemma validFrom_complete i (dets : list Det) j d :
  dets !! j = Some d → isValid d = true →
  ∃ k, validFrom i dets !! k = Some (i + j)%nat.
Proof.
  revert i j. induction dets as [|d0 ds IH]; intros i j Hj Hv; [discriminate|].
  destruct j as [|j]; simpl in *.
  - injection Hj as ->. rewrite Hv. exists 0%nat. simpl. f_equal. lia.
  - destruct (IH (S i) j Hj Hv) as [k Hk].
    replace (i + S j)%nat with (S i + j)%nat by lia.
    destruct (isValid d0); [exists (S k)|exists k]; done.
Qed.

Lemma validDetections_lookup (dets : list Det) k ref :
  validDetections dets !! k = Some ref →
  ∃ d, dets !! ref = Some d ∧ isValid d = true.
Proof.
  intros Hk. apply validFrom_lookup in Hk as (_ & d & Hd & Hv).
  exists d. by rewrite Nat.sub_0_r in Hd.
Qed.

Lemma isValid_box (d : Det) :
  isValid d = true → type d = vehicle ∧ ∃ b, box_2d d = Some b.
Proof.
  unfold isValid. destruct (box_2d d) as [b|]; [|done].
  destruct (type d); try done. eauto.
Qed.

(** *** The unmatched set *)

Lemma has_delete s i j : has (delete i s) j = has s j && negb (Nat.eqb j i).
Proof.
  induction s as [|x s IH]; simpl; [done|].
  destruct (Nat.eqb_spec x i) as [->|Hne]; simpl.
  - rewrite IH. destruct (Nat.eqb_spec i j) as [->|Hij]; simpl.
    + rewrite Nat.eqb_refl. by rewrite andb_false_r.
    + done.
  - rewrite IH. destruct (Nat.eqb_spec x j) as [->|Hxj]; simpl; [|done].
    destruct (Nat.eqb_spec j i); [congruence|done].
Qed.

Lemma has_seq n i : has (seq 0 n) i = true ↔ (i < n)%nat.
Proof.
  assert (Hg : ∀ a, has (seq a n) i = true ↔ (a ≤ i < a + n)%nat).
  { induction n as [|n IH]; intros a; simpl; [split; [done|lia]|].
    rewrite orb_true_iff, IH, Nat.eqb_eq. lia. }
  rewrite Hg. lia.
Qed.

(** *** The matching scan *)

Lemma scanDets_app dets um (t : Track) index l1 l2 best :
  scanDets dets um t index (l1 ++ l2) best =
  scanDets dets um t (index + length l1) l2 (scanDets dets um t index l1 best).
Proof.
  revert index best. induction l1 as [|r l1 IH]; intros index best; simpl.
  - by rewrite Nat.add_0_r.
  - rewrite IH. by replace (S index + length l1)%nat with (index + S (length l1))%nat by lia.
Qed.

Lemma considerDet_cases dets um (t : Track) best index ref :
  considerDet dets um t best index ref = best ∨
  ∃ b, candidate dets um t index ref b ∧
       ltb (snd best) (calculateIoU (box t) b) = true ∧
       considerDet dets um t best index ref = (Some index, calculateIoU (box t) b).
Proof.
  unfold considerDet, candidate.
  destruct (has um index) eqn:Hh; simpl; [|by left].
  destruct (dets !! ref) as [d|] eqn:Hd; [|by left].
  destruct (box_2d d) as [b|] eqn:Hb; [|by left].
  destruct (ltb iouThreshold _) eqn:H1; simpl; [|by left].
  destruct (ltb (snd best) _) eqn:H2; [|by left].
  right. exists b. eauto 10.
Qed.

Lemma scanDets_Some dets um (t : Track) index vd best k :
  fst (scanDets dets um t index vd best) = Some k →
  fst best = Some k ∨
  ∃ ref b, (index ≤ k)%nat ∧ vd !! (k - index)%nat = Some ref ∧
           candidate dets um t k ref b.
Proof.
  revert index best. induction vd as [|r vd IH]; intros index best Hk; simpl in Hk.
  - by left.
  - apply IH in Hk as [Hk|(ref & b & Hle & Hl & Hc)].
    + destruct (considerDet_cases dets um t best index r) as [Heq|(b & Hc & _ & Heq)];
        rewrite Heq in Hk.
      * by left.
      * simpl in Hk. injection Hk as <-.
        right. exists r, b. rewrite Nat.sub_diag. done.
    + right. exists ref, b. split; [lia|]. split; [|done].
      replace (k - index)%nat with (S (k - S index)) by lia. done.
Qed.

Lemma bestMatch_Some dets um vd (t : Track) k :
  bestMatch dets um vd t = Some k →
  ∃ ref b, vd !! k = Some ref ∧ candidate dets um t k ref b.
Proof.
  intros Hk. apply scanDets_Some in Hk as [Hk|(ref & b & _ & Hl & Hc)]; [done|].
  rewrite Nat.sub_0_r in Hl. eauto.
Qed.

(** *** One track of the matching loop *)

Lemma matchTrack_cases vd dets um (t : Track) :
  (bestMatch dets um vd t = None ∧ matchTrack vd (dets, um) t = ((dets, um), t)) ∨
  ∃ k ref b,
    bestMatch dets um vd t = Some k ∧ vd !! k = Some ref ∧
    candidate dets um t k ref b ∧
    matchTrack vd (dets, um) t =
      ((alter (setTracking (id t) (speed (updateTrack t b)) (laneStatus (updateTrack t b)))
              ref dets,
        delete k um),
       updateTrack t b).
Proof.
  unfold matchTrack. destruct (bestMatch dets um vd t) as [k|] eqn:Hbest; [|by left].
  right. destruct (bestMatch_Some _ _ _ _ _ Hbest) as (ref & b & Hl & Hc).
  exists k, ref, b. pose proof Hc as (_ & (d & Hd & Hb) & _).
  rewrite Hl, Hd, Hb. done.
Qed.

(** *** What [update] may do to a detection object *)

Lemma annotated_base L (d d' : Det) :
  annotated L d d' →
  object d' = object d ∧ count d' = count d ∧ confidence d' = confidence d ∧
  type d' = type d ∧ box_2d d' = box_2d d.
Proof. induction 1; simpl; tauto. Qed.

Lemma evolves_refl L (dets : list Det) : evolves L dets dets.
Proof. apply Forall2_same_length_lookup_2; [done|]. intros i x y ? ?. simplify_eq. split; [constructor|done]. Qed.

Lemma evolves_alter L (dets0 dets : list Det) ref (f : Det → Det) :
  evolves L dets0 dets →
  (∀ d0, dets0 !! ref = Some d0 → isValid d0 = true) →
  (∀ d0 d : Det, annotated L d0 d → annotated L d0 (f d)) →
  evolves L dets0 (alter f ref dets).
Proof.
  intros Hev Hval Hf. apply Forall2_alter_r; [done|].
  intros d0 d Hd0 Hd [Ha Hi]. split; [by apply Hf|].
  intros Hinv. rewrite (Hval _ Hd0) in Hinv. done.
Qed.

Lemma evolves_box L (dets0 dets : list Det) ref d0 :
  evolves L dets0 dets → dets0 !! ref = Some d0 →
  ∃ d, dets !! ref = Some d ∧ box_2d d = box_2d d0 ∧ type d = type d0.
Proof.
  intros Hev Hd0. destruct (Forall2_lookup_l _ _ _ _ _ Hev Hd0) as (d & Hd & Ha & _).
  apply annotated_base in Ha. exists d. tauto.
Qed.

(** *** Lane status written by a match *)

Lemma laneAfter_cases old (hist : list (Point R)) c :
  laneAfter old hist c = old ∨ laneAfter old hist c = LaneChange ∨
  laneAfter old hist c = Stable.
Proof.
  unfold laneAfter. destruct (2 <=? length hist)%nat; [|by left].
  destruct (hist !! _); [|by left]. destruct (ltb _ _); auto.
Qed.

Lemma updateTrack_lane L (t : Track) b :
  laneClosed L → lanes L (laneStatus t) → lanes L (laneStatus (updateTrack t b)).
Proof.
  intros [HS HC] Ht. unfold updateTrack; simpl.
  destruct (laneAfter_cases (laneStatus t)
              (if (10 <? length (history t ++ [getCentroid b]))%nat
               then tail (history t ++ [getCentroid b])
               else history t ++ [getCentroid b]) (getCentroid b)) as [->|[->| ->]]; done.
Qed.

(** *** The matching loop *)

Lemma matchedAt_weaken vd um0 um um' dets' k (t t' : Track) :
  (∀ k, has um k = true → has um0 k = true) →
  matchedAt vd um um' dets' k t t' → matchedAt vd um0 um' dets' k t t'.
Proof.
  intros Hsub (ref & b & d' & ? & ? & ?). exists ref, b, d'. split; [done|]. split; [auto|done].
Qed.

Lemma validDetections_injective (dets : list Det) : injective (validDetections dets).
Proof. intros k1 k2 r. apply validFrom_inj. Qed.

Lemma matchTracks_spec vd dets um ts dets' um' ts' :
  injective vd →
  matchTracks vd (dets, um) ts = ((dets', um'), ts') →
  (∀ k, has um' k = true → has um k = true) ∧
  (∀ k ref, vd !! k = Some ref → has um k = false → dets' !! ref = dets !! ref) ∧
  (∀ k ref, vd !! k = Some ref → has um' k = true → dets' !! ref = dets !! ref) ∧
  Forall2 (fun t t' => t' = t ∨ ∃ k, matchedAt vd um um' dets' k t t') ts ts' ∧
  (∀ k, has um k = true → has um' k = false →
        ∃ p t t', ts !! p = Some t ∧ ts' !! p = Some t' ∧ matchedAt vd um um' dets' k t t').
Proof.
  intros Hinj. revert dets um dets' um' ts'.
  induction ts as [|t ts IH]; intros dets um dets' um' ts' Hm; simpl in Hm.
  - simplify_eq. repeat split; try done. intros k ? ?. congruence.
  - destruct (matchTrack vd (dets, um) t) as [[dets1 um1] t1] eqn:Ht.
    destruct (matchTracks vd (dets1, um1) ts) as [[dets2 um2] ts2] eqn:Hts.
    simplify_eq. destruct (IH _ _ _ _ _ Hts) as (I1 & I2 & I3 & I4 & I5).
    destruct (matchTrack_cases vd dets um t) as [[_ Heq]|(k & ref & b & _ & Hl & Hc & Heq)];
      rewrite Heq in Ht; simplify_eq.
    + repeat split; try done.
      * constructor; [by left|done].
      * intros k Hk Hk'. destruct (I5 k Hk Hk') as (p & x & y & ? & ? & ?).
        exists (S p), x, y. done.
    + destruct Hc as (Hk & (d & Hd & Hb) & Hiou).
      assert (Hk1 : has (delete k um) k = false).
      { rewrite has_delete, Nat.eqb_refl. by rewrite andb_false_r. }
      assert (Hsub : ∀ k0, has (delete k um) k0 = true → has um k0 = true).
      { intros k0. rewrite has_delete. by intros [? _]%andb_true_iff. }
      assert (Hk' : has um' k = false).
      { destruct (has um' k) eqn:E; [|done]. apply I1 in E. congruence. }
      assert (Hhead : matchedAt vd um um' dets' k t (updateTrack t b)).
      { exists ref, b, (setTracking (id t) (speed (updateTrack t b))
                           (laneStatus (updateTrack t b)) d).
        repeat split; try done.
        rewrite (I2 k ref Hl Hk1), list_lookup_alter_eq, Hd. done. }
      split; [|split; [|split; [|split]]].
      * intros k0 Hk0. auto.
      * intros k0 ref0 Hl0 Hk0. rewrite (I2 k0 ref0 Hl0).
        -- apply list_lookup_alter_ne. intros ->.
           rewrite (Hinj _ _ _ Hl Hl0) in Hk. congruence.
        -- rewrite has_delete, Hk0. done.
      * intros k0 ref0 Hl0 Hk0. rewrite (I3 k0 ref0 Hl0 Hk0).
        apply list_lookup_alter_ne. intros ->.
        rewrite (Hinj _ _ _ Hl Hl0) in Hk'. congruence.
      * constructor; [right; by exists k|].
        eapply Forall2_impl; [exact I4|]. intros x y [->|[k0 Hxy]]; [by left|right].
        exists k0. by eapply matchedAt_weaken.
      * intros k0 Hk0 Hk0'. destruct (decide (k0 = k)) as [->|Hne].
        -- exists 0%nat, t, (updateTrack t b). done.
        -- destruct (I5 k0) as (p & x & y & ? & ? & ?); [|done|].
           { rewrite has_delete, Hk0. simpl. by destruct (Nat.eqb_spec k0 k). }
           exists (S p), x, y. split; [done|]. split; [done|].
           by eapply matchedAt_weaken.
Qed.

Lemma matchTracks_evolves L vd dets0 dets um ts dets' um' ts' :
  laneClosed L → vd = validDetections dets0 →
  Forall (fun t => lanes L (laneStatus t)) ts →
  evolves L dets0 dets →
  matchTracks vd (dets, um) ts = ((dets', um'), ts') →
  evolves L dets0 dets' ∧ Forall (fun t => lanes L (laneStatus t)) ts'.
Proof.
  intros HL -> Hts. revert dets um dets' um' ts'.
  induction Hts as [|t ts Ht Hts IH]; intros dets um dets' um' ts' Hev Hm; simpl in Hm.
  - simplify_eq. split; [done|constructor].
  - destruct (matchTrack _ (dets, um) t) as [[dets1 um1] t1] eqn:Et.
    destruct (matchTracks _ (dets1, um1) ts) as [[dets2 um2] ts2] eqn:Ets.
    simplify_eq.
    destruct (matchTrack_cases (validDetections dets0) dets um t)
      as [[_ Heq]|(k & ref & b & _ & Hl & Hc & Heq)]; rewrite Heq in Et; simplify_eq.
    + destruct (IH _ _ _ _ _ Hev Ets). split; [done|by constructor].
    + assert (Hl' := updateTrack_lane L t b HL Ht).
      destruct (IH _ _ _ _ _ (evolves_alter L dets0 dets ref _ Hev
                   ltac:(intros d0 Hd0; apply validDetections_lookup in Hl as (? & ? & ?); congruence)
                   ltac:(intros; by constructor)) Ets).
      split; [done|by constructor].
Qed.

(** *** Track creation *)

Lemma createTrack_cases vd timestamp (self : ObjectTracker R) dets k :
  createTrack vd timestamp (self, dets) k = (self, dets) ∨
  ∃ ref d b,
    vd !! k = Some ref ∧ dets !! ref = Some d ∧ box_2d d = Some b ∧
    createTrack vd timestamp (self, dets) k =
      (mkTracker (tracks self ++ [newTrackOf (nextId self) d b timestamp])
                 (nextId self + 1),
       alter (setTracking (nextId self) (num 0) Stable) ref dets).
Proof.
  unfold createTrack. destruct (vd !! k) as [ref|] eqn:Hl; [|by left].
  destruct (dets !! ref) as [d|] eqn:Hd; [|by left].
  destruct (box_2d d) as [b|] eqn:Hb; [|by left].
  right. exists ref, d, b. done.
Qed.

Lemma boxed_alter vd (dets : list Det) um (f : Det → Det) ref :
  (∀ d, box_2d (f d) = box_2d d) → boxed vd dets um → boxed vd (alter f ref dets) um.
Proof.
  intros Hf Hb k Hk. destruct (Hb k Hk) as (r & d & b & Hl & Hd & Hbox).
  destruct (decide (ref = r)) as [->|Hne].
  - exists r, (f d), b. rewrite list_lookup_alter_eq, Hd, Hf. done.
  - exists r, d, b. rewrite list_lookup_alter_ne by done. done.
Qed.

Lemma createTracks_spec vd timestamp (self : ObjectTracker R) dets um self' dets' :
  injective vd →
  createTracks vd timestamp (self, dets) um = (self', dets') →
  ∃ news,
    tracks self' = tracks self ++ news ∧
    nextId self' = nextId self + Z.of_nat (length news) ∧
    (∀ q t, news !! q = Some t →
       id t = nextId self + Z.of_nat q ∧ missingFrames t = 0 ∧
       laneStatus t = Stable ∧ speed t = num 0 ∧ dy t = num 0) ∧
    (∀ k ref, vd !! k = Some ref → has um k = false → dets' !! ref = dets !! ref) ∧
    (boxed vd dets um → length news = length um).
Proof.
  intros Hinj. revert self dets. induction um as [|k um IH]; intros self dets Hc.
  - unfold createTracks in Hc. simpl in Hc. simplify_eq. exists []. simpl.
    rewrite app_nil_r, Z.add_0_r. repeat split; done.
  - unfold createTracks in Hc. simpl in Hc.
    destruct (createTrack_cases vd timestamp self dets k)
      as [Heq|(ref & d & b & Hl & Hd & Hb & Heq)]; rewrite Heq in Hc.
    + destruct (IH _ _ Hc) as (news & E1 & E2 & E3 & E4 & E5).
      exists news. split; [done|]. split; [done|]. split; [done|]. split.
      * intros k0 ref0 Hl0 Hk0. apply (E4 k0 ref0 Hl0).
        simpl in Hk0. by apply orb_false_iff in Hk0 as [_ ?].
      * intros Hbx. exfalso.
        destruct (Hbx k) as (r & d & b & Hl & Hd & Hb).
        { simpl. by rewrite Nat.eqb_refl. }
        unfold createTrack in Heq. rewrite Hl, Hd, Hb in Heq.
        injection Heq as Heq _. apply (f_equal nextId) in Heq. simpl in Heq. lia.
    + destruct (IH _ _ Hc) as (news & E1 & E2 & E3 & E4 & E5). simpl in E1, E2, E3.
      exists (newTrackOf (nextId self) d b timestamp :: news).
      split; [by rewrite E1, <- app_assoc|].
      split; [rewrite E2; simpl length; lia|].
      split; [|split].
      * intros [|q] t Hq; simpl in Hq.
        -- injection Hq as <-. simpl. repeat split; try done. lia.
        -- destruct (E3 q t Hq) as (-> & ?). split; [lia|done].
      * intros k0 ref0 Hl0 Hk0. simpl in Hk0.
        apply orb_false_iff in Hk0 as [Hne Hk0].
        rewrite (E4 k0 ref0 Hl0 Hk0).
        apply list_lookup_alter_ne. intros ->.
        rewrite (Hinj _ _ _ Hl Hl0), Nat.eqb_refl in Hne. done.
      * intros Hbx. simpl. f_equal. apply E5.
        apply boxed_alter; [done|].
        intros k0 Hk0. apply Hbx. simpl. rewrite Hk0. by rewrite orb_true_r.
Qed.

Lemma createTracks_labels vd timestamp (self : ObjectTracker R) dets um self' dets' :
  injective vd → boxed vd dets um →
  createTracks vd timestamp (self, dets) um = (self', dets') →
  ∀ k, has um k = true →
    ∃ ref d' t,
      vd !! k = Some ref ∧ dets' !! ref = Some d' ∧ t ∈ tracks self' ∧
      nextId self ≤ id t ∧ trackId d' = Some (id t) ∧
      estimatedSpeed d' = Some (speed t) ∧ laneEvent d' = Some (laneStatus t) ∧
      missingFrames t = 0 ∧ speed t = num 0 ∧ dy t = num 0 ∧ laneStatus t = Stable.
Proof.
  intros Hinj. revert self dets. induction um as [|k0 um IH]; intros self dets Hbx Hc k Hk.
  - done.
  - unfold createTracks in Hc. simpl in Hc.
    destruct (Hbx k0) as (r0 & d0 & b0 & Hl0 & Hd0 & Hb0); [simpl; by rewrite Nat.eqb_refl|].
    assert (Heq : createTrack vd timestamp (self, dets) k0 =
              (mkTracker (tracks self ++ [newTrackOf (nextId self) d0 b0 timestamp])
                         (nextId self + 1),
               alter (setTracking (nextId self) (num 0) Stable) r0 dets)).
    { unfold createTrack. by rewrite Hl0, Hd0, Hb0. }
    rewrite Heq in Hc.
    assert (Hbx' : boxed vd (alter (setTracking (nextId self) (num 0) Stable) r0 dets) um).
    { apply boxed_alter; [done|]. intros k1 Hk1. apply Hbx. simpl. rewrite Hk1.
      by rewrite orb_true_r. }
    destruct (has um k) eqn:Hum.
    + destruct (IH _ _ Hbx' Hc k Hum) as (ref & d' & t & ? & ? & ? & Hle & ?).
      exists ref, d', t. simpl in Hle. repeat split; try tauto. lia.
    + simpl in Hk. rewrite Hum, orb_false_r in Hk. apply Nat.eqb_eq in Hk as ->.
      destruct (createTracks_spec _ _ _ _ _ _ _ Hinj Hc) as (news & E1 & _ & _ & E4 & _).
      exists r0, (setTracking (nextId self) (num 0) Stable d0),
             (newTrackOf (nextId self) d0 b0 timestamp).
      split; [done|]. split.
      { rewrite (E4 k r0 Hl0 Hum), list_lookup_alter_eq, Hd0. done. }
      split.
      { rewrite E1. simpl. rewrite !elem_of_app, list_elem_of_singleton. auto. }
      simpl. repeat split; done.
Qed.

Lemma createTracks_evolves L vd timestamp dets0 (self : ObjectTracker R) dets um self' dets' :
  laneClosed L → vd = validDetections dets0 →
  evolves L dets0 dets →
  createTracks vd timestamp (self, dets) um = (self', dets') →
  evolves L dets0 dets'.
Proof.
  intros [HS _] ->. revert self dets. induction um as [|k um IH]; intros self dets Hev Hc.
  - unfold createTracks in Hc. simpl in Hc. by simplify_eq.
  - unfold createTracks in Hc. simpl in Hc.
    destruct (createTrack_cases (validDetections dets0) timestamp self dets k)
      as [Heq|(ref & d & b & Hl & Hd & Hb & Heq)]; rewrite Heq in Hc.
    + by eapply IH.
    + eapply IH; [|exact Hc]. apply evolves_alter; [done| |].
      * intros d0 Hd0. apply validDetections_lookup in Hl as (? & ? & ?). congruence.
      * intros. by constructor.
Qed.

(** *** Violation flags *)

Lemma flagDetection_annotated L (ts : list Track) flow (d0 d : Det) :
  flags L → annotated L d0 d → annotated L d0 (flagDetection ts flow d).
Proof.
  intros HF Ha. unfold flagDetection. destruct (trackOf ts d) as [t|]; [|done].
  simpl. destruct (isOpposite flow t), (ltb SPEED_LIMIT (speed t)); by repeat constructor.
Qed.

Lemma flagDetections_evolves L (ts : list Track) flow dets0 vd dets :
  flags L → vd = validDetections dets0 → evolves L dets0 dets →
  evolves L dets0 (flagDetections ts flow vd dets).
Proof.
  intros HF Hvd. unfold flagDetections.
  assert (Hin : ∀ ref, ref ∈ vd → ∃ k, validDetections dets0 !! k = Some ref).
  { intros ref Hr. rewrite Hvd in Hr. by apply list_elem_of_lookup in Hr. }
  clear Hvd. revert dets. induction vd as [|ref vd IH]; intros dets Hev; simpl; [done|].
  apply IH.
  - intros r Hr. apply Hin. by right.
  - apply evolves_alter; [done| |].
    + intros d0 Hd0. destruct (Hin ref) as [k Hk]; [by left|].
      apply validDetections_lookup in Hk as (? & ? & ?). congruence.
    + intros. by apply flagDetection_annotated.
Qed.

(** *** One frame: steps 1 to 3 *)

Lemma trackFrame_unfold (self : ObjectTracker R) dets timestamp self3 dets3 :
  trackFrame self dets timestamp = (self3, dets3) →
  ∃ dets1 um1 ts1,
    matchTracks (validDetections dets) (dets, seq 0 (length (validDetections dets)))
                (map incMissing (tracks self)) = ((dets1, um1), ts1) ∧
    createTracks (validDetections dets) timestamp (mkTracker ts1 (nextId self), dets1) um1
      = (self3, dets3).
Proof.
  unfold trackFrame. destruct (matchTracks _ _ _) as [[dets1 um1] ts1] eqn:Hm.
  intros Hc. by exists dets1, um1, ts1.
Qed.

Lemma trackFrame_tracks (self : ObjectTracker R) dets timestamp self3 dets3 :
  trackFrame self dets timestamp = (self3, dets3) →
  ∃ ts1 news,
    tracks self3 = ts1 ++ news ∧
    nextId self3 = nextId self + Z.of_nat (length news) ∧
    Forall2 (frameStep dets3) (tracks self) ts1 ∧
    (∀ q t, news !! q = Some t →
       id t = nextId self + Z.of_nat q ∧ missingFrames t = 0 ∧
       laneStatus t = Stable ∧ speed t = num 0 ∧ dy t = num 0).
Proof.
  intros (dets1 & um1 & ts1 & Hm & Hc)%trackFrame_unfold.
  pose proof (validDetections_injective dets) as Hinj.
  destruct (matchTracks_spec _ _ _ _ _ _ _ Hinj Hm) as (I1 & I2 & I3 & I4 & I5).
  destruct (createTracks_spec _ _ _ _ _ _ _ Hinj Hc) as (news & E1 & E2 & E3 & E4 & E5).
  simpl in E1, E2, E3. exists ts1, news.
  split; [done|]. split; [done|]. split; [|done].
  apply Forall2_fmap_l in I4. eapply Forall2_impl; [exact I4|].
  intros t t1 [->|(k & ref & b & d' & Hl & Hk & Hk' & Hiou & -> & Hd' & Hb & ? & ? & ?)];
    [by left|right].
  exists b, ref, d'. rewrite (E4 k ref Hl Hk'). done.
Qed.

Lemma trackFrame_tracked (self : ObjectTracker R) dets timestamp self3 dets3 i d :
  trackFrame self dets timestamp = (self3, dets3) →
  dets !! i = Some d → isValid d = true →
  ∃ d3 t,
    dets3 !! i = Some d3 ∧ t ∈ tracks self3 ∧ trackId d3 = Some (id t) ∧
    estimatedSpeed d3 = Some (speed t) ∧ laneEvent d3 = Some (laneStatus t) ∧
    missingFrames t = 0.
Proof.
  intros (dets1 & um1 & ts1 & Hm & Hc)%trackFrame_unfold Hd Hv.
  pose proof (validDetections_injective dets) as Hinj.
  destruct (matchTracks_spec _ _ _ _ _ _ _ Hinj Hm) as (I1 & I2 & I3 & I4 & I5).
  destruct (createTracks_spec _ _ _ _ _ _ _ Hinj Hc) as (news & E1 & E2 & E3 & E4 & E5).
  destruct (validFrom_complete 0 dets i d Hd Hv) as [k Hk]. simpl in Hk.
  fold (validDetections dets) in Hk.
  assert (Hk0 : has (seq 0 (length (validDetections dets))) k = true).
  { apply has_seq. by eapply lookup_lt_Some. }
  destruct (has um1 k) eqn:Hum.
  - assert (Hbx : boxed (validDetections dets) dets1 um1).
    { intros k' Hk'. pose proof (I1 k' Hk') as Hk'0. apply has_seq in Hk'0.
      destruct (lookup_lt_is_Some_2 _ _ Hk'0) as [ref' Hl'].
      destruct (validDetections_lookup _ _ _ Hl') as (d' & Hd' & Hv').
      apply isValid_box in Hv' as (_ & b' & Hb').
      exists ref', d', b'. rewrite (I3 k' ref' Hl' Hk'). done. }
    destruct (createTracks_labels _ _ _ _ _ _ _ Hinj Hbx Hc k Hum)
      as (ref & d' & t & Hl & Hd' & Ht & _ & ? & ? & ? & ? & _).
    assert (ref = i) as -> by congruence.
    exists d', t. done.
  - destruct (I5 k Hk0 Hum)
      as (p & t & t' & Hp & Hp' & ref & b & d' & Hl & _ & _ & _ & -> & Hd' & _ & ? & ? & ?).
    assert (ref = i) as -> by congruence.
    exists d', (updateTrack t b). rewrite (E4 k i Hl Hum).
    split; [done|]. split; [|done].
    rewrite E1. simpl. apply elem_of_app. left. by eapply list_elem_of_lookup_2.
Qed.

(** *** The store invariant *)

Lemma wf_newTracker : wf (@newTracker R).
Proof. split; [constructor|]. split; [constructor|done]. Qed.

Lemma StronglySorted_filter {A} (f : A → Z) (p : A → bool) l :
  StronglySorted Z.lt (map f l) → StronglySorted Z.lt (map f (List.filter p l)).
Proof.
  induction l as [|x l IH]; simpl; [done|].
  intros [Hall Hs]%StronglySorted_cons. specialize (IH Hs).
  destruct (p x); simpl; [|done]. apply StronglySorted_cons. split; [|done].
  apply Forall_forall. intros y Hy. rewrite Forall_forall in Hall. apply Hall.
  apply list_elem_of_fmap in Hy as (z & -> & Hz). apply list_elem_of_fmap_2.
  apply list_elem_of_In, filter_In in Hz as [Hz _]. by apply list_elem_of_In.
Qed.

Lemma Forall_filter_bool {A} (P : A → Prop) (p : A → bool) l :
  Forall P l → Forall P (List.filter p l).
Proof.
  rewrite !Forall_forall. intros HP x Hx. apply HP.
  apply list_elem_of_In, filter_In in Hx as [Hx _]. by apply list_elem_of_In.
Qed.

Lemma consecutive_sorted (news : list Track) a :
  (∀ q t, news !! q = Some t → id t = a + Z.of_nat q) →
  StronglySorted Z.lt (map id news).
Proof.
  revert a. induction news as [|x news IH]; intros a Hq; simpl; [constructor|].
  apply StronglySorted_cons. split.
  - apply Forall_forall. intros y (z & -> & Hz)%list_elem_of_fmap.
    apply list_elem_of_lookup_1 in Hz as [q Hz].
    rewrite (Hq 0%nat x eq_refl), (Hq (S q) z Hz). lia.
  - apply (IH (a + 1)). intros q t Ht. rewrite (Hq (S q) t Ht). lia.
Qed.

Lemma frameStep_id dets3 (t t1 : Track) : frameStep dets3 t t1 → id t1 = id t.
Proof. by intros [->|(b & ref & d3 & -> & _)]. Qed.

Lemma frameStep_ok dets3 bound (t t1 : Track) :
  frameStep dets3 t t1 → trackOk bound t → trackOk bound t1.
Proof.
  intros Hst (Hid & Hmf & Hlane). split; [by rewrite (frameStep_id _ _ _ Hst)|].
  destruct Hst as [->|(b & ref & d3 & -> & _)].
  - simpl. split; [lia|done].
  - split; [done|].
    apply (updateTrack_lane (mkAllowed (fun l => l ≠ Merging) True)); by repeat split.
Qed.

Lemma trackFrame_wf (self : ObjectTracker R) dets timestamp self3 dets3 :
  wf self → trackFrame self dets timestamp = (self3, dets3) →
  wf self3 ∧ nextId self ≤ nextId self3 ∧
  ∀ t3, t3 ∈ tracks self3 →
    (∃ t, t ∈ tracks self ∧ frameStep dets3 t t3) ∨
    (nextId self ≤ id t3 < nextId self3 ∧ missingFrames t3 = 0).
Proof.
  intros (Hs & Hok & Hn) Htf.
  destruct (trackFrame_tracks _ _ _ _ _ Htf) as (ts1 & news & E1 & E2 & Hst & Hnew).
  assert (Hids : map id ts1 = map id (tracks self)).
  { clear -Hst. induction Hst as [|t t1 l l1 Ht _ IH]; simpl; [done|].
    by rewrite IH, (frameStep_id _ _ _ Ht). }
  assert (Hok1 : Forall (trackOk (nextId self)) ts1).
  { clear -Hst Hok. induction Hst as [|t t1 l l1 Ht _ IH]; [constructor|].
    apply Forall_cons in Hok as [? ?]. constructor; [by eapply frameStep_ok|auto]. }
  split; [split; [|split]|split].
  - rewrite E1, map_app. apply StronglySorted_app_2.
    + intros x1 x2 (t1 & -> & Ht1)%list_elem_of_fmap (t2 & -> & Ht2)%list_elem_of_fmap.
      rewrite Forall_forall in Hok1. destruct (Hok1 t1 Ht1) as ([_ ?] & _).
      apply list_elem_of_lookup_1 in Ht2 as [q Ht2].
      destruct (Hnew q t2 Ht2) as (-> & _). lia.
    + by rewrite Hids.
    + apply (consecutive_sorted news (nextId self)). intros q t Ht. by apply Hnew.
  - rewrite E1, E2. apply Forall_app. split.
    + eapply Forall_impl; [exact Hok1|]. intros t (? & ?). split; [lia|done].
    + apply Forall_forall. intros t [q Ht]%list_elem_of_lookup_1.
      pose proof (lookup_lt_Some _ _ _ Ht).
      destruct (Hnew q t Ht) as (Hid & Hmf & Hlane & _).
      split; [lia|]. split; [lia|]. by rewrite Hlane.
  - lia.
  - lia.
  - intros t3. rewrite E1, elem_of_app. intros [Ht3|Ht3].
    + left. apply list_elem_of_lookup_1 in Ht3 as [p Hp].
      destruct (Forall2_lookup_r _ _ _ _ _ Hst Hp) as (t & Ht & Hstep).
      exists t. split; [by eapply list_elem_of_lookup_2|done].
    + right. apply list_elem_of_lookup_1 in Ht3 as [q Hq].
      pose proof (lookup_lt_Some _ _ _ Hq). destruct (Hnew q t3 Hq) as (Hid & Hmf & _).
      split; [lia|done].
Qed.

Lemma update_unfold (self : ObjectTracker R) dets timestamp :
  update self dets timestamp =
    (mkTracker (cleanup (tracks (fst (trackFrame self dets timestamp))))
               (nextId (fst (trackFrame self dets timestamp))),
     flagDetections (tracks (fst (trackFrame self dets timestamp)))
                    (dominantFlow (tracks (fst (trackFrame self dets timestamp))))
                    (validDetections dets) (snd (trackFrame self dets timestamp))).
Proof. unfold update. by destruct (trackFrame self dets timestamp). Qed.

Lemma update_wf (self : ObjectTracker R) dets timestamp :
  wf self → wf (fst (update self dets timestamp)).
Proof.
  intros Hwf. rewrite update_unfold. simpl.
  destruct (trackFrame self dets timestamp) as [self3 dets3] eqn:Htf. simpl.
  destruct (trackFrame_wf _ _ _ _ _ Hwf Htf) as ((Hs & Hok & Hn) & _).
  unfold cleanup. split; [|split]; simpl; [|by apply Forall_filter_bool|done].
  by apply StronglySorted_filter.
Qed.

Lemma run_wf (self : ObjectTracker R) frames : wf self → wf (run self frames).
Proof.
  revert self. induction frames as [|[dets ts] frames IH]; intros self Hwf; [done|].
  simpl. apply IH. by apply update_wf.
Qed.

(** *** The detections returned by [update] *)

Lemma trackFrame_evolves L (self : ObjectTracker R) dets timestamp self' dets' :
  laneClosed L → Forall (fun t => lanes L (laneStatus t)) (tracks self) →
  trackFrame self dets timestamp = (self', dets') →
  evolves L dets dets'.
Proof.
  intros HL Hts. unfold trackFrame.
  destruct (matchTracks _ _ _) as [[dets1 um1] ts1] eqn:Hm. intros Hc.
  eapply matchTracks_evolves in Hm as [Hev _]; [|done|done| |apply evolves_refl].
  - by eapply createTracks_evolves.
  - apply Forall_map. eapply Forall_impl; [exact Hts|]. by intros [].
Qed.

Lemma update_evolves L (self : ObjectTracker R) dets timestamp :
  laneClosed L → flags L → Forall (fun t => lanes L (laneStatus t)) (tracks self) →
  evolves L dets (snd (update self dets timestamp)).
Proof.
  intros HL HF Hts. unfold update.
  destruct (trackFrame self dets timestamp) as [self3 dets3] eqn:Htf. simpl.
  apply flagDetections_evolves; [done|done|]. by eapply trackFrame_evolves.
Qed.

Lemma validDetections_elem (dets : list Det) i d :
  dets !! i = Some d → (i ∈ validDetections dets ↔ isValid d = true).
Proof.
  intros Hd. split.
  - intros [k Hk]%list_elem_of_lookup_1.
    apply validDetections_lookup in Hk as (d' & ? & ?). congruence.
  - intros Hv. destruct (validFrom_complete 0 dets i d Hd Hv) as [k Hk].
    by eapply list_elem_of_lookup_2.
Qed.

Lemma flagDetections_lookup (ts : list Track) flow vd dets i :
  NoDup vd →
  flagDetections ts flow vd dets !! i =
    if decide (i ∈ vd) then flagDetection ts flow <$> dets !! i else dets !! i.
Proof.
  unfold flagDetections. intros Hnd. revert dets.
  induction Hnd as [|r vd Hr Hnd IH]; intros dets; simpl.
  - done.
  - rewrite IH. destruct (decide (i = r)) as [->|Hne].
    + rewrite decide_False by done. rewrite decide_True by left.
      apply list_lookup_alter_eq.
    + rewrite list_lookup_alter_ne by done.
      destruct (decide (i ∈ vd)).
      * rewrite decide_True by (by right). done.
      * rewrite decide_False; [done|]. by intros [?|?]%elem_of_cons.
Qed.

Lemma update_lookup (self : ObjectTracker R) dets timestamp i d :
  dets !! i = Some d →
  ∃ d3,
    snd (trackFrame self dets timestamp) !! i = Some d3 ∧
    annotated trackOnly d d3 ∧ (isValid d = false → d3 = d) ∧
    snd (update self dets timestamp) !! i =
      Some (if isValid d
            then flagDetection (tracks (fst (trackFrame self dets timestamp)))
                   (dominantFlow (tracks (fst (trackFrame self dets timestamp)))) d3
            else d).
Proof.
  intros Hd. rewrite update_unfold. simpl.
  destruct (trackFrame self dets timestamp) as [self3 dets3] eqn:Htf. simpl.
  assert (Hev : evolves trackOnly dets dets3).
  { eapply trackFrame_evolves; [| |exact Htf]; [done|]. by apply Forall_forall. }
  destruct (Forall2_lookup_l _ _ _ _ _ Hev Hd) as (d3 & Hd3 & Ha & Hinv).
  exists d3. split; [done|]. split; [done|]. split; [done|].
  rewrite flagDetections_lookup by (apply NoDup_alt, validDetections_injective).
  pose proof (validDetections_elem dets i d Hd) as Hel.
  destruct (isValid d) eqn:Hv.
  - rewrite decide_True by (by apply Hel). by rewrite Hd3.
  - rewrite decide_False; [by rewrite Hd3, Hinv|]. intros ?%Hel. done.
Qed.

Lemma annotated_trackOnly_flags (d d3 : Det) :
  annotated trackOnly d d3 →
  isSpeeding d3 = isSpeeding d ∧ isWrongWay d3 = isWrongWay d.
Proof. induction 1; simpl in *; done. Qed.

Lemma update_length (self : ObjectTracker R) dets timestamp :
  length (snd (update self dets timestamp)) = length dets.
Proof.
  symmetry. eapply Forall2_length.
  apply (update_evolves (mkAllowed (fun _ => True) True)); [done|done|by apply Forall_forall].
Qed.

Lemma flagDetection_fields (ts : list Track) flow (d : Det) :
  trackId (flagDetection ts flow d) = trackId d ∧
  estimatedSpeed (flagDetection ts flow d) = estimatedSpeed d ∧
  laneEvent (flagDetection ts flow d) = laneEvent d ∧
  isSpeeding (flagDetection ts flow d) =
    (if speedViolation ts d then Some true else isSpeeding d) ∧
  isWrongWay (flagDetection ts flow d) =
    (if wrongWayViolation ts flow d then Some true else isWrongWay d).
Proof.
  unfold flagDetection, speedViolation, wrongWayViolation.
  destruct (trackOf ts d) as [t|]; [|done]. simpl.
  destruct (isOpposite flow t), (ltb SPEED_LIMIT (speed t)); done.
Qed.

Lemma trackOf_ext (ts : list Track) (d d' : Det) :
  trackId d' = trackId d → trackOf ts d' = trackOf ts d.
Proof. unfold trackOf. by intros ->. Qed.

Lemma isValid_false (d : Det) :
  type d ≠ vehicle ∨ box_2d d = None → isValid d = false.
Proof.
  unfold isValid. intros [Ht| ->]; [|done].
  destruct (box_2d d); [|done]. by destruct (type d).
Qed.

Lemma filter_all {A} (p : A → bool) (l : list A) :
  Forall (fun x => p x = true) l → List.filter p l = l.
Proof. induction 1 as [|x l Hx _ IH]; simpl; [done|]. by rewrite Hx, IH. Qed.

(** *** Identities across calls *)

Lemma empty_store_frame (self : ObjectTracker R) dets timestamp self3 dets3 :
  tracks self = [] → trackFrame self dets timestamp = (self3, dets3) →
  length (tracks self3) = length (validDetections dets) ∧
  ∀ q t, tracks self3 !! q = Some t → id t = nextId self + Z.of_nat q ∧ missingFrames t = 0.
Proof.
  intros Hemp (dets1 & um1 & ts1 & Hm & Hc)%trackFrame_unfold.
  rewrite Hemp in Hm. simpl in Hm. injection Hm as <- <- <-.
  pose proof (validDetections_injective dets) as Hinj.
  destruct (createTracks_spec _ _ _ _ _ _ _ Hinj Hc) as (news & E1 & _ & E3 & _ & E5).
  simpl in E1, E3. rewrite E1. split.
  - rewrite E5, length_seq; [done|].
    intros k Hk%has_seq. destruct (lookup_lt_is_Some_2 _ _ Hk) as [ref Hl].
    destruct (validDetections_lookup _ _ _ Hl) as (d & Hd & Hv).
    apply isValid_box in Hv as (_ & b & Hb). by exists ref, d, b.
  - intros q t Hq. destruct (E3 q t Hq) as (? & ? & _). done.
Qed.

Lemma StronglySorted_lt_NoDup (l : list Z) : StronglySorted Z.lt l → NoDup l.
Proof.
  induction 1 as [|x l _ IH Hall]; constructor; [|done].
  intros Hx. rewrite Forall_forall in Hall. specialize (Hall x Hx). lia.
Qed.

Lemma update_ids (self : ObjectTracker R) dets timestamp :
  wf self →
  nextId self ≤ nextId (fst (update self dets timestamp)) ∧
  ∀ t', t' ∈ tracks (fst (update self dets timestamp)) →
    id t' ∈ map id (tracks self) ∨
    nextId self ≤ id t' < nextId (fst (update self dets timestamp)).
Proof.
  intros Hwf. rewrite update_unfold. simpl.
  destruct (trackFrame self dets timestamp) as [self3 dets3] eqn:Htf. simpl.
  destruct (trackFrame_wf _ _ _ _ _ Hwf Htf) as (_ & Hle & Hfrom).
  split; [done|]. intros t' Ht'.
  apply list_elem_of_In, filter_In in Ht' as [Ht' _]. apply list_elem_of_In in Ht'.
  destruct (Hfrom t' Ht') as [(t & Ht & Hst)|[? _]]; [left|by right].
  rewrite (frameStep_id _ _ _ Hst). by apply list_elem_of_fmap_2.
Qed.

Lemma run_absent (self : ObjectTracker R) frames i :
  wf self → i < nextId self → i ∉ map id (tracks self) →
  i ∉ map id (tracks (run self frames)).
Proof.
  revert self. induction frames as [|[dets ts] frames IH]; intros self Hwf Hlt Hni; [done|].
  simpl. destruct (update_ids self dets ts Hwf) as [Hle Hfrom].
  apply IH; [by apply update_wf|lia|].
  intros (t' & -> & Ht')%list_elem_of_fmap.
  destruct (Hfrom t' Ht') as [?|?]; [done|lia].
Qed.

(** *** Ageing *)

Lemma cleanup_bound (ts : list Track) :
  Forall (fun t => missingFrames t ≤ maxMissingFrames) (cleanup ts).
Proof.
  apply Forall_forall. intros t Ht.
  apply list_elem_of_In, filter_In in Ht as [_ Ht]. by apply Z.leb_le.
Qed.

Lemma update_label_kept (self : ObjectTracker R) dets timestamp ref d3 :
  snd (trackFrame self dets timestamp) !! ref = Some d3 →
  ∃ d', snd (update self dets timestamp) !! ref = Some d' ∧ trackId d' = trackId d3.
Proof.
  intros Hd3.
  assert (Hev : evolves trackOnly dets (snd (trackFrame self dets timestamp))).
  { destruct (trackFrame self dets timestamp) as [self3 dets3] eqn:Htf.
    eapply trackFrame_evolves; [| |exact Htf]; [done|]. by apply Forall_forall. }
  destruct (Forall2_lookup_r _ _ _ _ _ Hev Hd3) as (d & Hd & _).
  destruct (update_lookup self dets timestamp ref d Hd) as (d3' & Hd3' & _ & Hinv & Hout).
  rewrite Hd3 in Hd3'. injection Hd3' as <-.
  eexists. split; [exact Hout|].
  destruct (isValid d); [apply flagDetection_fields|]. by rewrite Hinv.
Qed.

Lemma matchTracks_flags vd st (ts : list Track) st' ts' :
  matchTracks vd st ts = (st', ts') →
  ∀ p t, ts !! p = Some t →
    ∃ (m : bool) t', foundMatch vd st ts !! p = Some m ∧ ts' !! p = Some t' ∧
            id t' = id t ∧
            missingFrames t' = (if m then 0 else missingFrames t).
Proof.
  revert st st' ts'. induction ts as [|t0 ts IH]; intros st st' ts' Hm p t Hp; [done|].
  simpl in Hm. destruct st as [dets um].
  destruct (matchTrack vd (dets, um) t0) as [st1 t1] eqn:Ht.
  destruct (matchTracks vd st1 ts) as [st2 ts2] eqn:Hts. injection Hm as <- <-.
  destruct p as [|p]; simpl in *.
  - injection Hp as <-.
    destruct (matchTrack_cases vd dets um t0) as [[Hb Heq]|(k & ref & b & Hb & _ & _ & Heq)];
      rewrite Heq in Ht; injection Ht as <- <-; rewrite Hb.
    + by exists false, t0.
    + by exists true, (updateTrack t0 b).
  - rewrite Ht. simpl. by eapply IH.
Qed.

Lemma noMatchFor_lookup i (ts : list Track) flags p t m :
  noMatchFor i ts flags = true → ts !! p = Some t → flags !! p = Some m →
  id t = i → m = false.
Proof.
  revert flags p. induction ts as [|t0 ts IH]; intros [|m0 flags] p Hn Ht Hm Hid;
    try done.
  simpl in Hn. apply andb_true_iff in Hn as [Hn0 Hn].
  destruct p as [|p]; simpl in *.
  - simplify_eq. rewrite Z.eqb_refl in Hn0. by destruct m.
  - by eapply IH.
Qed.

(** Within one call a stored track keeps its place and identity; its counter is
    reset by a match and raised by 1 otherwise. *)
Lemma trackFrame_ageing (self : ObjectTracker R) dets timestamp p t :
  tracks self !! p = Some t →
  ∃ (m : bool) t1,
    matchFlags self dets !! p = Some m ∧
    tracks (fst (trackFrame self dets timestamp)) !! p = Some t1 ∧
    id t1 = id t ∧
    missingFrames t1 = (if m then 0 else missingFrames t + 1).
Proof.
  intros Hp. destruct (trackFrame self dets timestamp) as [self3 dets3] eqn:Htf.
  destruct (trackFrame_unfold _ _ _ _ _ Htf) as (dets1 & um1 & ts1 & Hm & Hc).
  destruct (createTracks_spec _ _ _ _ _ _ _ (validDetections_injective dets) Hc)
    as (news & E1 & _). simpl in E1.
  destruct (matchTracks_flags _ _ _ _ _ Hm p (incMissing t)) as (m & t1 & Hf & Ht1 & Hid & Hmf).
  { by rewrite list_lookup_fmap, Hp. }
  exists m, t1. split; [done|]. simpl. rewrite E1.
  split; [by apply lookup_app_l_Some|]. done.
Qed.

Lemma update_unmatched_step (self : ObjectTracker R) dets timestamp i n :
  wf self → i < nextId self →
  (∀ t, t ∈ tracks self → id t = i → n ≤ missingFrames t) →
  matchesNone i self dets = true →
  ∀ t', t' ∈ tracks (fst (update self dets timestamp)) → id t' = i →
        n + 1 ≤ missingFrames t'.
Proof.
  intros Hwf Hlt Hn Hnone t' Ht' Hid.
  rewrite update_unfold in Ht'. simpl in Ht'.
  apply list_elem_of_In, filter_In in Ht' as [Ht' _]. apply list_elem_of_In in Ht'.
  destruct (trackFrame self dets timestamp) as [self3 dets3] eqn:Htf.
  destruct (trackFrame_tracks _ _ _ _ _ Htf) as (ts1 & news & E1 & E2 & Hst & Hnew).
  simpl in Ht'. rewrite E1 in Ht'. apply elem_of_app in Ht' as [Ht'|Ht'].
  - apply list_elem_of_lookup_1 in Ht' as [p Hp'].
    destruct (Forall2_lookup_r _ _ _ _ _ Hst Hp') as (t & Hp & Hstep).
    destruct (trackFrame_ageing self dets timestamp p t Hp) as (m & t1 & Hf & Ht1 & Hid1 & Hmf).
    rewrite Htf in Ht1. simpl in Ht1. rewrite E1, (lookup_app_l_Some _ _ _ _ Hp') in Ht1.
    injection Ht1 as <-.
    assert (m = false) as ->.
    { eapply (noMatchFor_lookup i); [exact Hnone|exact Hp|exact Hf|congruence]. }
    rewrite Hmf. specialize (Hn t (list_elem_of_lookup_2 _ _ _ Hp)). lia.
  - apply list_elem_of_lookup_1 in Ht' as [q Hq]. destruct (Hnew q t' Hq) as (? & _). lia.
Qed.

Lemma run_unmatched (self : ObjectTracker R) frames i n :
  wf self → i < nextId self →
  (∀ t, t ∈ tracks self → id t = i → n ≤ missingFrames t) →
  neverMatched i self frames = true →
  ∀ t', t' ∈ tracks (run self frames) → id t' = i →
        n + Z.of_nat (length frames) ≤ missingFrames t'.
Proof.
  revert self n. induction frames as [|[dets ts] frames IH]; intros self n Hwf Hlt Hn Hnl.
  - simpl. intros t' Ht' Hid. specialize (Hn t' Ht' Hid). lia.
  - simpl in Hnl. apply andb_true_iff in Hnl as [Hnow Hrest].
    intros t' Ht' Hid. simpl in Ht'.
    pose proof (update_ids self dets ts Hwf) as [Hle _].
    specialize (IH (fst (update self dets ts)) (n + 1) (update_wf _ _ _ Hwf)
                   ltac:(lia)
                   (update_unmatched_step self dets ts i n Hwf Hlt Hn Hnow)
                   Hrest t' Ht' Hid).
    simpl length. lia.
Qed.

Lemma run_snoc (self : ObjectTracker R) frames fr :
  run self (frames ++ [fr]) = fst (update (run self frames) (fst fr) (snd fr)).
Proof. unfold run. by rewrite fold_left_app. Qed.

(** *** Dominant flow and the track of a detection *)

Lemma dominantFlow_mean (ts : list Track) :
  dominantFlow ts =
    match activeMovingTracks ts with
    | [] => num 0
    | _ :: _ => mean (map dy (activeMovingTracks ts))
    end.
Proof.
  unfold dominantFlow, mean. rewrite length_map.
  assert (Hf : ∀ (l : list Track) z,
             fold_left (fun sum t => add sum (dy t)) l z = fold_left add (map dy l) z).
  { induction l as [|x l IH]; intros z; simpl; [done|]. apply IH. }
  rewrite Hf. by destruct (activeMovingTracks ts).
Qed.

Lemma find_unique (ts : list Track) (t : Track) :
  NoDup (map id ts) → t ∈ ts → List.find (fun x => id x =? id t) ts = Some t.
Proof.
  induction ts as [|x ts IH]; simpl; intros Hnd Ht.
  - by apply elem_of_nil in Ht.
  - apply NoDup_cons in Hnd as [Hx Hnd].
    destruct (Z.eqb_spec (id x) (id t)) as [Heq|Hne].
    + apply elem_of_cons in Ht as [->|Ht]; [done|].
      exfalso. apply Hx. rewrite Heq. by apply list_elem_of_fmap_2.
    + apply elem_of_cons in Ht as [->|Ht]; [done|]. by apply IH.
Qed.

Lemma trackOf_tracked (self3 : ObjectTracker R) (t : Track) (d : Det) :
  wf self3 → t ∈ tracks self3 → trackId d = Some (id t) →
  trackOf (tracks self3) d = Some t.
Proof.
  intros (Hs & Hok & _) Ht Hid. unfold trackOf. rewrite Hid.
  rewrite Forall_forall in Hok. destruct (Hok t Ht) as ([? _] & _).
  destruct (Z.eqb_spec (id t) 0); [lia|].
  apply find_unique; [|done]. by apply StronglySorted_lt_NoDup.
Qed.

(** Every vehicle detection with a box leaves [update] carrying the
    identity, speed and lane status of a track of the store (as it stands
    before the cleanup), and its flags are decided on that track. *)
Lemma update_tracked (self : ObjectTracker R) dets timestamp i d :
  wf self → dets !! i = Some d → isValid d = true →
  ∃ d' t,
    snd (update self dets timestamp) !! i = Some d' ∧
    t ∈ tracks (fst (trackFrame self dets timestamp)) ∧
    trackOf (tracks (fst (trackFrame self dets timestamp))) d' = Some t ∧
    missingFrames t = 0 ∧
    trackId d' = Some (id t) ∧ estimatedSpeed d' = Some (speed t) ∧
    laneEvent d' = Some (laneStatus t) ∧ laneStatus t ≠ Merging ∧
    isSpeeding d' = (if ltb SPEED_LIMIT (speed t) then Some true else isSpeeding d) ∧
    isWrongWay d' =
      (if isOpposite (dominantFlow (tracks (fst (trackFrame self dets timestamp)))) t
       then Some true else isWrongWay d).
Proof.
  intros Hwf Hd Hv.
  destruct (update_lookup self dets timestamp i d Hd) as (d3 & Hd3 & Ha & _ & Hout).
  rewrite Hv in Hout.
  destruct (trackFrame self dets timestamp) as [self3 dets3] eqn:Htf. simpl in *.
  destruct (trackFrame_tracked _ _ _ _ _ _ _ Htf Hd Hv)
    as (d3' & t & Hd3' & Ht & Hid & Hsp & Hlane & Hmf).
  assert (d3' = d3) as -> by congruence.
  destruct (trackFrame_wf _ _ _ _ _ Hwf Htf) as (Hwf3 & _ & _).
  pose proof (trackOf_tracked self3 t d3 Hwf3 Ht Hid) as Hof.
  destruct (flagDetection_fields (tracks self3) (dominantFlow (tracks self3)) d3)
    as (Fid & Fsp & Flane & Fs & Fw).
  apply annotated_trackOnly_flags in Ha as [Hs Hw].
  eexists _, t. split; [exact Hout|]. split; [done|].
  split; [by rewrite (trackOf_ext _ d3 _ Fid)|]. split; [done|].
  split; [congruence|]. split; [congruence|]. split; [congruence|].
  split.
  { destruct Hwf3 as (_ & Hok & _). rewrite Forall_forall in Hok.
    by destruct (Hok t Ht) as (_ & _ & ?). }
  rewrite Fs, Fw. unfold speedViolation, wrongWayViolation. rewrite Hof, Hs, Hw. done.
Qed.

(** *** What a match writes *)

Lemma update_fields_kept (self : ObjectTracker R) dets timestamp ref d3 :
  snd (trackFrame self dets timestamp) !! ref = Some d3 →
  ∃ d', snd (update self dets timestamp) !! ref = Some d' ∧
        box_2d d' = box_2d d3 ∧ trackId d' = trackId d3 ∧
        estimatedSpeed d' = estimatedSpeed d3 ∧ laneEvent d' = laneEvent d3.
Proof.
  intros Hd3.
  assert (Hev : evolves trackOnly dets (snd (trackFrame self dets timestamp))).
  { destruct (trackFrame self dets timestamp) as [self3 dets3] eqn:Htf.
    eapply trackFrame_evolves; [| |exact Htf]; [done|]. by apply Forall_forall. }
  destruct (Forall2_lookup_r _ _ _ _ _ Hev Hd3) as (d & Hd & _).
  destruct (update_lookup self dets timestamp ref d Hd) as (d3' & Hd3' & Ha & Hinv & Hout).
  rewrite Hd3 in Hd3'. injection Hd3' as <-.
  eexists. split; [exact Hout|].
  destruct (isValid d).
  - destruct (flagDetection_fields (tracks (fst (trackFrame self dets timestamp)))
                (dominantFlow (tracks (fst (trackFrame self dets timestamp)))) d3)
      as (? & ? & ? & _).
    split; [|done].
    unfold flagDetection. destruct (trackOf _ d3) as [t|]; [|done]. simpl.
    by destruct (isOpposite _ t), (ltb SPEED_LIMIT (speed t)).
  - by rewrite Hinv.
Qed.

Lemma updateTrack_history (t : Track) b :
  history (updateTrack t b) !! (length (history (updateTrack t b)) - 1)%nat
  = Some (getCentroid b).
Proof.
  unfold updateTrack; simpl.
  destruct (10 <? length (history t ++ [getCentroid b]))%nat eqn:E.
  - apply Nat.ltb_lt in E. rewrite length_app in E. simpl in E.
    destruct (history t) as [|p h] eqn:Hh; simpl in *; [lia|].
    rewrite length_app. simpl. rewrite lookup_app_r by lia.
    by replace (length h + 1 - 1 - length h)%nat with 0%nat by lia.
  - rewrite length_app. simpl. rewrite lookup_app_r by lia.
    by replace (length (history t) + 1 - 1 - length (history t))%nat with 0%nat by lia.
Qed.

Lemma laneAfter_window old (hist : list (Point R)) c :
  (2 ≤ length hist)%nat →
  ∃ p, hist !! (length hist - Nat.min (length hist) 4)%nat = Some p ∧
       laneAfter old hist c =
         (if ltb (lit (3 # 100)) (Math_abs (sub (fst c) (fst p))) then LaneChange else Stable).
Proof.
  intros Hlen. unfold laneAfter.
  destruct (Nat.leb_spec 2 (length hist)); [|lia].
  destruct (lookup_lt_is_Some_2 hist (length hist - Nat.min (length hist) 4)%nat) as [p Hp];
    [lia|].
  exists p. unfold Point in *. by rewrite Hp.
Qed.

Lemma laneAfter_short old (hist : list (Point R)) c :
  (length hist < 2)%nat → laneAfter old hist c = old.
Proof. intros Hlen. unfold laneAfter. by destruct (Nat.leb_spec 2 (length hist)); [lia|]. Qed.

Lemma laneAfter_spec_agrees old (hist : list (Point R)) c :
  (length hist ≤ 4)%nat → laneAfter_spec old hist c = laneAfter old hist c.
Proof.
  intros Hlen. unfold laneAfter, laneAfter_spec.
  replace (length hist - 1 - Nat.min (length hist - 1) 4)%nat
    with (length hist - Nat.min (length hist) 4)%nat by lia.
  done.
Qed.

(** *** Which detection a track takes *)

Lemma scan_prefix dets um (t : Track) v l index best :
  ltb (snd best) v = true →
  (∀ j ref' b', l !! j = Some ref' → candidate dets um t (index + j) ref' b' →
                ltb (calculateIoU (box t) b') v = true) →
  ltb (snd (scanDets dets um t index l best)) v = true.
Proof.
  revert index best. induction l as [|r l IH]; intros index best Hb Hall; simpl; [done|].
  apply IH.
  - destruct (considerDet_cases dets um t best index r) as [Heq|(b' & Hc & _ & Heq)];
      rewrite Heq; [done|].
    simpl. apply (Hall 0%nat r b'); [done|]. by rewrite Nat.add_0_r.
  - intros j ref' b' Hj Hc. apply (Hall (S j) ref' b'); [done|].
    by replace (index + S j)%nat with (S index + j)%nat by lia.
Qed.

Lemma scan_suffix dets um (t : Track) k v l index :
  (∀ j ref' b', l !! j = Some ref' → candidate dets um t (index + j) ref' b' →
                ltb v (calculateIoU (box t) b') = false) →
  scanDets dets um t index l (Some k, v) = (Some k, v).
Proof.
  revert index. induction l as [|r l IH]; intros index Hall; simpl; [done|].
  destruct (considerDet_cases dets um t (Some k, v) index r) as [Heq|(b' & Hc & Hlt & _)].
  - rewrite Heq. apply IH. intros j ref' b' Hj Hc. apply (Hall (S j) ref' b'); [done|].
    by replace (index + S j)%nat with (S index + j)%nat by lia.
  - simpl in Hlt. rewrite (Hall 0%nat r b') in Hlt; [done|done|]. by rewrite Nat.add_0_r.
Qed.

Lemma considerDet_take dets um (t : Track) best index ref b :
  candidate dets um t index ref b →
  ltb (snd best) (calculateIoU (box t) b) = true →
  considerDet dets um t best index ref = (Some index, calculateIoU (box t) b).
Proof.
  intros (Hh & (d & Hd & Hb) & Hthr) Hlt. unfold considerDet.
  by rewrite Hh, Hd, Hb, Hthr, Hlt.
Qed.

(** The scan returns the first candidate of greatest overlap. *)
Lemma bestMatch_picks dets um vd (t : Track) k ref b :
  (∀ x, ltb iouThreshold x = true → ltb (num 0) x = true) →
  vd !! k = Some ref → candidate dets um t k ref b →
  (∀ k' ref' b', (k' < k)%nat → vd !! k' = Some ref' → candidate dets um t k' ref' b' →
                 ltb (calculateIoU (box t) b') (calculateIoU (box t) b) = true) →
  (∀ k' ref' b', (k < k')%nat → vd !! k' = Some ref' → candidate dets um t k' ref' b' →
                 ltb (calculateIoU (box t) b) (calculateIoU (box t) b') = false) →
  bestMatch dets um vd t = Some k.
Proof.
  intros Hpos Hl Hc Hbefore Hafter. unfold bestMatch.
  pose proof (lookup_lt_Some _ _ _ Hl) as Hlt.
  rewrite <- (take_drop_middle vd k ref Hl), scanDets_app. simpl.
  rewrite length_take, Nat.min_l by lia.
  rewrite (considerDet_take dets um t _ k ref b Hc).
  - rewrite scan_suffix; [done|].
    intros j ref' b' Hj Hc'. apply (Hafter (S k + j)%nat ref' b'); [lia| |done].
    by rewrite lookup_drop in Hj.
  - apply scan_prefix.
    + simpl. apply Hpos. by destruct Hc as (_ & _ & ?).
    + intros j ref' b' Hj Hc'. simpl in Hc'.
      pose proof (lookup_lt_Some _ _ _ Hj) as Hjl. rewrite length_take in Hjl.
      rewrite lookup_take_lt in Hj by lia.
      apply (Hbefore j ref' b'); [lia|done|done].
Qed.

Lemma matchTracks_app vd st (l1 l2 : list Track) :
  matchTracks vd st (l1 ++ l2) =
    (let '(st1, l1') := matchTracks vd st l1 in
     let '(st2, l2') := matchTracks vd st1 l2 in
     (st2, l1' ++ l2')).
Proof.
  revert st. induction l1 as [|t l1 IH]; intros st; simpl.
  - by destruct (matchTracks vd st l2).
  - destruct (matchTrack vd st t) as [st1 t']. rewrite IH.
    destruct (matchTracks vd st1 l1) as [st2 l1'].
    by destruct (matchTracks vd st2 l2) as [st3 l2'].
Qed.

Lemma matchTracks_keeps dets0 dets um ts dets' um' ts' k ref d0 b :
  evolves trackOnly dets0 dets →
  matchTracks (validDetections dets0) (dets, um) ts = ((dets', um'), ts') →
  validDetections dets0 !! k = Some ref → dets0 !! ref = Some d0 → box_2d d0 = Some b →
  Forall (fun t => ltb iouThreshold (calculateIoU (box t) b) = false) ts →
  has um k = true → has um' k = true.
Proof.
  intros Hev Hm Hl Hd0 Hb0 Hall Hk.
  destruct (has um' k) eqn:Hk'; [done|]. exfalso.
  pose proof (validDetections_injective dets0) as Hinj.
  destruct (matchTracks_spec _ _ _ _ _ _ _ Hinj Hm) as (_ & _ & _ & _ & I5).
  destruct (I5 k Hk Hk')
    as (p & t & t' & Hp & _ & ref0 & b0 & d' & Hl0 & _ & _ & Hiou & _ & Hd' & Hb' & _).
  assert (ref0 = ref) as -> by congruence.
  destruct (matchTracks_evolves trackOnly (validDetections dets0) dets0 dets um ts
              dets' um' ts') as [Hev' _]; try done.
  { by apply Forall_forall. }
  destruct (evolves_box _ _ _ _ _ Hev' Hd0) as (d'' & Hd'' & Hbox & _).
  assert (b0 = b) as -> by congruence.
  rewrite Forall_forall in Hall. rewrite (Hall t) in Hiou; [done|].
  by eapply list_elem_of_lookup_2.
Qed.

Lemma match_stability_general (self : ObjectTracker R) dets timestamp p (T : Track) r d B' :
  (∀ x, ltb iouThreshold x = true → ltb (num 0) x = true) →
  tracks self !! p = Some T →
  dets !! r = Some d → type d = vehicle → box_2d d = Some B' →
  ltb iouThreshold (calculateIoU (box T) B') = true →
  (∀ r' d' b', r' ≠ r → dets !! r' = Some d' → type d' = vehicle → box_2d d' = Some b' →
     if (r' <? r)%nat
     then ltb (calculateIoU (box T) b') (calculateIoU (box T) B') = true
     else ltb (calculateIoU (box T) B') (calculateIoU (box T) b') = false) →
  (∀ p' T', (p' < p)%nat → tracks self !! p' = Some T' →
            ltb iouThreshold (calculateIoU (box T') B') = false) →
  ∃ d', snd (update self dets timestamp) !! r = Some d' ∧ trackId d' = Some (id T).
Proof.
  intros Hpos HT Hd Hty Hbox Hthr Hothers Hearlier.
  assert (Hv : isValid d = true) by (unfold isValid; by rewrite Hbox, Hty).
  destruct (validFrom_complete 0 dets r d Hd Hv) as [k Hk]. simpl in Hk.
  fold (validDetections dets) in Hk.
  pose proof (validDetections_injective dets) as Hinj.
  destruct (trackFrame self dets timestamp) as [self3 dets3] eqn:Htf.
  destruct (trackFrame_unfold _ _ _ _ _ Htf) as (dets1 & um1 & ts1 & Hm & Hc).
  rewrite <- (take_drop_middle (tracks self) p T HT) in Hm.
  rewrite map_app, matchTracks_app in Hm.
  destruct (matchTracks (validDetections dets) (dets, seq 0 (length (validDetections dets)))
              (map incMissing (take p (tracks self)))) as [[detsA umA] tsA] eqn:HA.
  simpl in Hm.
  destruct (matchTrack (validDetections dets) (detsA, umA) (incMissing T))
    as [[detsB umB] TB] eqn:HB.
  destruct (matchTracks (validDetections dets) (detsB, umB)
              (map incMissing (drop (S p) (tracks self)))) as [[detsC umC] tsC] eqn:HC.
  injection Hm as <- <- <-.
  (* the earlier tracks leave the detection unmatched *)
  assert (HevA : evolves trackOnly dets detsA).
  { eapply (matchTracks_evolves trackOnly); [done|done| |apply evolves_refl|exact HA].
    by apply Forall_forall. }
  assert (HkA : has umA k = true).
  { eapply (matchTracks_keeps dets dets); [apply evolves_refl|exact HA|exact Hk|exact Hd|
                                             exact Hbox| |].
    - apply Forall_forall. intros t (T' & -> & HT')%list_elem_of_fmap.
      apply list_elem_of_lookup_1 in HT' as [p' Hp'].
      pose proof (lookup_lt_Some _ _ _ Hp') as Hlt. rewrite length_take in Hlt.
      rewrite lookup_take_lt in Hp' by lia. apply (Hearlier p' T'); [lia|done].
    - apply has_seq. by eapply lookup_lt_Some. }
  (* the track takes it *)
  assert (Hother : ∀ k' ref' b', k' ≠ k → validDetections dets !! k' = Some ref' →
             candidate detsA umA (incMissing T) k' ref' b' →
             ∃ d', ref' ≠ r ∧ dets !! ref' = Some d' ∧ type d' = vehicle ∧
                   box_2d d' = Some b').
  { intros k' ref' b' Hne Hl' (_ & (dA & HdA & HbA) & _).
    destruct (validDetections_lookup _ _ _ Hl') as (d' & Hd' & Hv').
    exists d'. split; [intros ->; apply Hne; by eapply Hinj|]. split; [done|].
    split; [by apply isValid_box in Hv' as [? _]|].
    destruct (evolves_box _ _ _ _ _ HevA Hd') as (dA' & HdA' & Hb' & _). congruence. }
  assert (Hbest : bestMatch detsA umA (validDetections dets) (incMissing T) = Some k).
  { apply (bestMatch_picks _ _ _ _ k r B' Hpos Hk).
    - split; [done|]. split; [|done].
      destruct (evolves_box _ _ _ _ _ HevA Hd) as (dA & HdA & Hb & _).
      exists dA. split; [done|congruence].
    - intros k' ref' b' Hlt Hl' Hc'.
      destruct (Hother k' ref' b' ltac:(lia) Hl' Hc') as (d' & Hne & Hd' & Hty' & Hb').
      specialize (Hothers ref' d' b' Hne Hd' Hty' Hb').
      pose proof (validFrom_lt _ _ _ _ _ _ Hlt Hl' Hk) as Hr.
      by destruct (Nat.ltb_spec ref' r); [|lia].
    - intros k' ref' b' Hlt Hl' Hc'.
      destruct (Hother k' ref' b' ltac:(lia) Hl' Hc') as (d' & Hne & Hd' & Hty' & Hb').
      specialize (Hothers ref' d' b' Hne Hd' Hty' Hb').
      pose proof (validFrom_lt _ _ _ _ _ _ Hlt Hk Hl') as Hr.
      by destruct (Nat.ltb_spec ref' r); [lia|]. }
  destruct (matchTrack_cases (validDetections dets) detsA umA (incMissing T))
    as [[Hnone _]|(k0 & ref0 & b0 & Hk0 & Hl0 & Hc0 & Heq)]; [congruence|].
  assert (k0 = k) as -> by congruence. assert (ref0 = r) as -> by congruence.
  rewrite Heq in HB. injection HB as <- <- <-.
  (* nothing later touches it *)
  destruct (matchTracks_spec _ _ _ _ _ _ _ Hinj HC) as (I1 & I2 & _).
  assert (HkB : has (delete k umA) k = false).
  { rewrite has_delete, Nat.eqb_refl. by rewrite andb_false_r. }
  assert (HkC : has umC k = false).
  { destruct (has umC k) eqn:E; [|done]. apply I1 in E. congruence. }
  destruct (createTracks_spec _ _ _ _ _ _ _ Hinj Hc) as (_ & _ & _ & _ & E4 & _).
  destruct Hc0 as (_ & (dA & HdA & _) & _).
  destruct (update_label_kept self dets timestamp r
              (setTracking (id T) (speed (updateTrack (incMissing T) b0))
                 (laneStatus (updateTrack (incMissing T) b0)) dA)) as (d' & Hd' & Hid).
  { rewrite Htf. simpl. rewrite (E4 k r Hk HkC), (I2 k r Hk HkB), list_lookup_alter_eq, HdA.
    done. }
  exists d'. split; [done|]. by rewrite Hid.
Qed.

End TrackerFacts.

(** ** The properties *)

Section Claims.
Context {R : Type} `{JsNum R}.

(** C6. Pass-through: [update] returns the detections it was given, in
    the same order and number; each returned detection has the object,
    count, confidence, type and box of the one passed in, and a
    detection that is not a vehicle, or has no box, is returned with every
    field unchanged. *)
Theorem update_pass_through (self : ObjectTracker R)
    (detections : list (DetectionItem R)) (timestamp : Z) :
  length (snd (update self detections timestamp)) = length detections ∧
  Forall2
    (fun d d' =>
       object d' = object d ∧ count d' = count d ∧ confidence d' = confidence d ∧
       type d' = type d ∧ box_2d d' = box_2d d ∧
       (type d ≠ vehicle ∨ box_2d d = None → d' = d))
    detections (snd (update self detections timestamp)).
Proof.
  split; [apply update_length|].
  eapply Forall2_impl.
  - apply (update_evolves (mkAllowed (fun _ => True) True)); [done|done|by apply Forall_forall].
  - intros d d' [Ha Hinv]. apply annotated_base in Ha as (? & ? & ? & ? & ?).
    repeat split; try done. intros Hd. apply Hinv. by apply isValid_false.
Qed.

(** C10. Violation flags are never cleared: on return, [isSpeeding] is
    [true] when the detection is tracked and the track found for it is
    over the speed limit, and has the value it had on entry otherwise;
    the same holds of [isWrongWay] and the wrong-way test.  So neither
    flag is ever assigned [false], and a flag that enters as [true]
    leaves as [true]. *)
Theorem flags_never_cleared (self : ObjectTracker R)
    (detections : list (DetectionItem R)) (timestamp : Z) :
  let ts := tracks (fst (trackFrame self detections timestamp)) in
  let dominantDy := dominantFlow ts in
  Forall2
    (fun d d' =>
       isSpeeding d' =
         (if isValid d && speedViolation ts d' then Some true else isSpeeding d) ∧
       isWrongWay d' =
         (if isValid d && wrongWayViolation ts dominantDy d' then Some true
          else isWrongWay d) ∧
       (isSpeeding d = Some true → isSpeeding d' = Some true) ∧
       (isWrongWay d = Some true → isWrongWay d' = Some true))
    detections (snd (update self detections timestamp)).
Proof.
  intros ts dominantDy.
  apply Forall2_same_length_lookup_2; [symmetry; apply update_length|].
  intros i d d' Hd Hd'.
  destruct (update_lookup self detections timestamp i d Hd) as (d3 & _ & Ha & _ & Hout).
  rewrite Hd' in Hout. injection Hout as ->.
  apply annotated_trackOnly_flags in Ha as [Hs Hw].
  fold ts. fold dominantDy.
  destruct (isValid d); simpl; [|done].
  destruct (flagDetection_fields ts dominantDy d3) as (Hid & _ & _ & -> & ->).
  unfold speedViolation, wrongWayViolation.
  rewrite (trackOf_ext ts d3 _ Hid), Hs, Hw.
  split; [done|]. split; [done|].
  split; intros ->; by destruct (trackOf ts d3) as [t|]; [destruct (_ : bool)|].
Qed.

(** C9. Reset: after [reset] no track is active; the next [update]
    creates one track per vehicle detection that has a box, numbered
    1, 2, ... in the order of the detections, so the first track created has
    identity 1; and resetting twice is resetting once. *)
Theorem reset_semantics (self : ObjectTracker R) :
  getActiveTracksCount (reset self) = 0%nat ∧
  reset (reset self) = reset self ∧
  ∀ (detections : list (DetectionItem R)) (timestamp : Z),
    map id (tracks (fst (update (reset self) detections timestamp))) =
    map Z.of_nat (seq 1 (length (validDetections detections))).
Proof.
  split; [done|]. split; [done|]. intros detections timestamp.
  rewrite update_unfold. simpl.
  destruct (trackFrame (reset self) detections timestamp) as [self3 dets3] eqn:Htf. simpl.
  destruct (empty_store_frame (reset self) _ _ _ _ eq_refl Htf) as [Hlen Hq]. simpl in Hq.
  unfold cleanup. rewrite filter_all.
  - apply (list_eq_same_length _ _ (length (validDetections detections))).
    + by rewrite length_map, length_seq.
    + by rewrite length_map.
    + intros q x y Hlt Hx Hy.
      apply list_lookup_fmap_Some_1 in Hx as (t & -> & Ht).
      apply list_lookup_fmap_Some_1 in Hy as (n & -> & Hn).
      apply lookup_seq in Hn as [-> _]. destruct (Hq q t Ht) as [-> _]. lia.
  - apply Forall_forall. intros t [q Ht]%list_elem_of_lookup_1.
    destruct (Hq q t Ht) as [_ ->]. done.
Qed.

(** C5. Identities are unique and increasing.  In every state reached from
    a fresh tracker (identity counter 1) by calls of [update]: the
    identities in the store are strictly increasing, hence pairwise
    distinct, and lie between 1 and [nextId]; a further call keeps the
    identities of the tracks it keeps, gives the tracks it creates the
    consecutive identities [nextId], [nextId + 1], ..., and raises [nextId]
    by their number; and an identity already handed out that is no longer in
    the store is in no later store. *)
Theorem track_ids_unique_monotone (frames : list (list (DetectionItem R) * Z)) :
  let s := run newTracker frames in
  nextId (@newTracker R) = 1 ∧
  StronglySorted Z.lt (map id (tracks s)) ∧
  NoDup (map id (tracks s)) ∧
  Forall (fun t => 1 ≤ id t < nextId s) (tracks s) ∧
  (∀ detections timestamp,
     ∃ kept created,
       tracks (fst (trackFrame s detections timestamp)) = kept ++ created ∧
       map id kept = map id (tracks s) ∧
       map id created = map (fun q => nextId s + Z.of_nat q) (seq 0 (length created)) ∧
       nextId (fst (update s detections timestamp)) = nextId s + Z.of_nat (length created) ∧
       ∀ t', t' ∈ tracks (fst (update s detections timestamp)) → t' ∈ kept ++ created) ∧
  (∀ i more, 1 ≤ i < nextId s → i ∉ map id (tracks s) →
             i ∉ map id (tracks (run s more))).
Proof.
  intros s. assert (Hwf : wf s) by apply run_wf, wf_newTracker.
  destruct Hwf as (Hs & Hok & Hn).
  split; [done|]. split; [done|]. split; [by apply StronglySorted_lt_NoDup|].
  split; [eapply Forall_impl; [exact Hok|]; by intros t (? & _)|].
  split.
  - intros detections timestamp. rewrite update_unfold. simpl.
    destruct (trackFrame s detections timestamp) as [self3 dets3] eqn:Htf. simpl.
    destruct (trackFrame_tracks _ _ _ _ _ Htf) as (ts1 & news & E1 & E2 & Hst & Hnew).
    exists ts1, news. split; [done|]. split; [|split; [|split; [done|]]].
    + clear -Hst. induction Hst as [|t t1 l l1 Ht _ IH]; simpl; [done|].
      by rewrite IH, (frameStep_id _ _ _ Ht).
    + apply (list_eq_same_length _ _ (length news)).
      * by rewrite length_map, length_seq.
      * by rewrite length_map.
      * intros q x y Hlt Hx Hy.
        apply list_lookup_fmap_Some_1 in Hx as (t & -> & Ht).
        apply list_lookup_fmap_Some_1 in Hy as (n & -> & Hq).
        apply lookup_seq in Hq as [-> _]. by destruct (Hnew q t Ht) as [-> _].
    + intros t' Ht'. rewrite <- E1.
      apply list_elem_of_In, filter_In in Ht' as [Ht' _]. by apply list_elem_of_In.
  - intros i more [_ Hlt] Hni. apply run_absent; [|done|done].
    by apply run_wf, wf_newTracker.
Qed.

(** C2. Eviction.  After every call of [update], from any state, every
    stored track has [missingFrames <= 50].  Within a call a stored track
    keeps its identity, and its counter is reset to 0 if it finds a match
    and raised by exactly 1 if it does not.  And when a tracker that has been
    driven from a fresh one holds a track, and that track matches no
    detection in 51 further calls, it is absent from the store after the 51st
    call. *)
Theorem eviction :
  (∀ (self : ObjectTracker R) detections timestamp,
     Forall (fun t => missingFrames t ≤ 50)
            (tracks (fst (update self detections timestamp)))) ∧
  (∀ (self : ObjectTracker R) detections timestamp p t,
     tracks self !! p = Some t →
     ∃ (m : bool) t1,
       matchFlags self detections !! p = Some m ∧
       tracks (fst (trackFrame self detections timestamp)) !! p = Some t1 ∧
       id t1 = id t ∧
       missingFrames t1 = (if m then 0 else missingFrames t + 1)) ∧
  (∀ (before frames : list (list (DetectionItem R) * Z)) (t : TrackedObject R),
     t ∈ tracks (run newTracker before) →
     length frames = 51%nat →
     neverMatched (id t) (run newTracker before) frames = true →
     id t ∉ map id (tracks (run (run newTracker before) frames))).
Proof.
  split; [|split].
  - intros self detections timestamp. rewrite update_unfold. apply cleanup_bound.
  - intros self detections timestamp p t Hp. by apply trackFrame_ageing.
  - intros before frames t Ht Hlen Hnl (t' & Hid & Ht')%list_elem_of_fmap.
    assert (Hwf : wf (run newTracker before)) by apply run_wf, wf_newTracker.
    pose proof Hwf as (_ & Hok & _). rewrite Forall_forall in Hok.
    destruct (Hok t Ht) as ([_ Hlt] & _).
    assert (Hage : 0 + Z.of_nat (length frames) ≤ missingFrames t').
    { apply (run_unmatched (run newTracker before) frames (id t)); try done.
      intros t0 Ht0 _. by destruct (Hok t0 Ht0) as (_ & ? & _). }
    destruct frames as [|fr frames _] using rev_ind; [done|].
    rewrite run_snoc, update_unfold in Ht'. simpl in Ht'.
    pose proof (cleanup_bound
      (tracks (fst (trackFrame (run (run newTracker before) frames) (fst fr) (snd fr)))))
      as Hb.
    rewrite Forall_forall in Hb. specialize (Hb t' Ht').
    unfold maxMissingFrames in Hb. lia.
Qed.

(** The general part of C4: in every state reached from a fresh tracker,
    the dominant flow of a call is the mean vertical velocity of the
    tracks updated in this call that move by more than 0.001 (and 0 when
    there is none); and every vehicle detection with a box is returned
    carrying the identity of a stored track, with [isWrongWay] set to [true]
    when both the flow and the track's velocity exceed 0.005 in magnitude and
    their signs differ, and left as it was otherwise. *)
Lemma wrong_way_general (frames : list (list (DetectionItem R) * Z))
    (detections : list (DetectionItem R)) (timestamp : Z) :
  let s := run newTracker frames in
  let ts := tracks (fst (trackFrame s detections timestamp)) in
  let moving :=
    List.filter
      (fun t => (missingFrames t =? 0) && ltb (lit (1 # 1000)) (Math_abs (dy t))) ts in
  dominantFlow ts = match moving with [] => num 0 | _ :: _ => mean (map dy moving) end ∧
  Forall2
    (fun d d' =>
       isValid d = true →
       ∃ t, t ∈ ts ∧ trackId d' = Some (id t) ∧
            isWrongWay d' =
              (if ltb (lit (5 # 1000)) (Math_abs (dominantFlow ts))
                  && ltb (lit (5 # 1000)) (Math_abs (dy t))
                  && negb (eqb (Math_sign (dominantFlow ts)) (Math_sign (dy t)))
               then Some true else isWrongWay d))
    detections (snd (update s detections timestamp)).
Proof.
  intros s ts moving. split; [apply dominantFlow_mean|].
  assert (Hwf : wf s) by apply run_wf, wf_newTracker.
  apply Forall2_same_length_lookup_2; [symmetry; apply update_length|].
  intros i d d' Hd Hd' Hv.
  destruct (update_tracked s detections timestamp i d Hwf Hd Hv)
    as (d'' & t & Hout & Ht & _ & _ & Hid & _ & _ & _ & _ & Hw).
  assert (d'' = d') as -> by congruence.
  exists t. done.
Qed.

(** The general part of C3: in one call, each stored track either only
    ages, or is matched, and then its speed is
    [floor(|newCentroid.y - oldCentroid.y| * 1000 * 1.5)], its vertical
    velocity the signed difference, and the matched detection is returned
    carrying the track's identity and that speed as [estimatedSpeed]. *)
Lemma speed_general (self : ObjectTracker R) (detections : list (DetectionItem R))
    (timestamp : Z) :
  ∃ kept created,
    tracks (fst (trackFrame self detections timestamp)) = kept ++ created ∧
    Forall2
      (fun t t1 =>
         t1 = incMissing t ∨
         ∃ b ref d',
           snd (update self detections timestamp) !! ref = Some d' ∧
           box_2d d' = Some b ∧ box t1 = b ∧ missingFrames t1 = 0 ∧
           dy t1 = sub (snd (getCentroid b)) (snd (centroid t)) ∧
           speed t1 =
             Math_floor
               (mul (mul (Math_abs (sub (snd (getCentroid b)) (snd (centroid t))))
                         (num 1000))
                    (lit (15 # 10))) ∧
           trackId d' = Some (id t) ∧ estimatedSpeed d' = Some (speed t1))
      (tracks self) kept.
Proof.
  destruct (trackFrame self detections timestamp) as [self3 dets3] eqn:Htf.
  destruct (trackFrame_tracks _ _ _ _ _ Htf) as (ts1 & news & E1 & _ & Hst & _).
  exists ts1, news. split; [done|].
  eapply Forall2_impl; [exact Hst|].
  intros t t1 [->|(b & ref & d3 & -> & _ & Hd3 & Hb & Hid & Hsp & _)]; [by left|right].
  destruct (update_fields_kept self detections timestamp ref d3) as (d' & Hd' & ? & ? & ? & _).
  { by rewrite Htf. }
  exists b, ref, d'. repeat split; try done; congruence.
Qed.

(** C7, amended.  A match appends the new centroid to the history
    (dropping the oldest entry beyond 10).  With [n] the length afterwards:
    when [n >= 2] the lane status becomes [LaneChange] if the x of the new
    centroid differs by more than 0.03 from the x of the entry at position
    [n - min n 4], which is the oldest of the last [min n 4] entries with the
    new centroid counted in (3 entries back, not 4), and [Stable] if not;
    when [n < 2] the status is left as it was.  That entry is the one the
    specification's wording names as long as [n <= 4].  No state reached from
    a fresh tracker holds a [Merging] track, and from such a state every
    vehicle detection with a box is returned with lane event [Stable] or
    [LaneChange]. *)
Theorem lane_change_classification :
  (∀ (t : TrackedObject R) (b : Box R),
     let t' := updateTrack t b in
     let n := length (history t') in
     history t' !! (n - 1)%nat = Some (getCentroid b) ∧
     ((2 ≤ n)%nat →
        ∃ p, history t' !! (n - Nat.min n 4)%nat = Some p ∧
             laneStatus t' =
               (if ltb (lit (3 # 100)) (Math_abs (sub (fst (getCentroid b)) (fst p)))
                then LaneChange else Stable)) ∧
     ((n < 2)%nat → laneStatus t' = laneStatus t) ∧
     ((n ≤ 4)%nat →
        laneStatus t' = laneAfter_spec (laneStatus t) (history t') (getCentroid b))) ∧
  (∀ (frames : list (list (DetectionItem R) * Z)) detections timestamp,
     let s := run newTracker frames in
     Forall (fun t => laneStatus t ≠ Merging) (tracks s) ∧
     Forall2
       (fun d d' =>
          isValid d = true → laneEvent d' = Some Stable ∨ laneEvent d' = Some LaneChange)
       detections (snd (update s detections timestamp))).
Proof.
  split.
  - intros t b t' n. split; [apply updateTrack_history|].
    split; [|split].
    + intros Hn. by apply laneAfter_window.
    + intros Hn. by apply laneAfter_short.
    + intros Hn. symmetry. by apply laneAfter_spec_agrees.
  - intros frames detections timestamp s.
    assert (Hwf : wf s) by apply run_wf, wf_newTracker. split.
    + destruct Hwf as (_ & Hok & _). eapply Forall_impl; [exact Hok|]. by intros t (_ & _ & ?).
    + apply Forall2_same_length_lookup_2; [symmetry; apply update_length|].
      intros i d d' Hd Hd' Hv.
      destruct (update_tracked s detections timestamp i d Hwf Hd Hv)
        as (d'' & t & Hout & _ & _ & _ & _ & _ & Hlane & Hnm & _).
      assert (d'' = d') as -> by congruence.
      rewrite Hlane. destruct (laneStatus t); auto. done.
Qed.

End Claims.


(** ** The program's arithmetic: binary64 *)

(** An overlap above the threshold is above the initial [bestIoU = 0]. *)
Lemma float_threshold_positive (x : float) :
  ltb (R:=float) iouThreshold x = true → ltb (R:=float) (num 0) x = true.
Proof.
  change (PrimFloat.ltb (Float64.lit (15 # 100)) x = true →
          PrimFloat.ltb (Float64.lit (inject_Z 0)) x = true).
  rewrite !FloatAxioms.ltb_spec.
  replace (Prim2SF (Float64.lit (15 # 100)))
    with (S754_finite false 5404319552844595 (-55)) by (vm_compute; reflexivity).
  replace (Prim2SF (Float64.lit (inject_Z 0))) with (S754_zero false)
    by (vm_compute; reflexivity).
  destruct (Prim2SF x) as [s|s| |s m e]; simpl; try done.
  all: destruct s; simpl; try done.
Qed.

(** *** Match stability *)

(** The first track overlaps the detection by 1/3 and is processed first:
    the detection is returned with identity 1, although it coincides with
    the box of track 2. *)
Lemma match_stability_refuted : ¬ match_stability_as_stated.
Proof.
  intros Hclaim.
  destruct (Hclaim sideBySide [car (fbox 0 50 100 150)] 2
              (mkTrack 2 "car" (fbox 0 50 100 150) (getCentroid (fbox 0 50 100 150))
                 [getCentroid (fbox 0 50 100 150)] 0 (num 0) (num 0) Stable 1)
              0%nat (car (fbox 0 50 100 150)) (fbox 0 50 100 150))
    as (d' & Hd' & Hid).
  - vm_compute. right. left.
  - done.
  - done.
  - done.
  - vm_compute. reflexivity.
  - intros [|r'] d' b' Hne Hl; [done|discriminate].
  - vm_compute in Hd'. injection Hd' as <-. discriminate.
Qed.

(** C1, amended.  Let the store hold track [T], and let the detections
    passed to [update] hold, at position [r], a vehicle detection with box
    [B'] whose overlap with the box of [T] exceeds 0.15.  If every other
    vehicle detection listed before it overlaps [T] strictly less, none
    listed after it overlaps [T] more, and no track stored before [T]
    overlaps [B'] by more than 0.15, then the detection is returned with the
    identity of [T]. *)
Theorem match_stability (self : ObjectTracker float)
    (detections : list (DetectionItem float)) (timestamp : Z) (p : nat)
    (T : TrackedObject float) (r : nat) (d : DetectionItem float) (B' : Box float) :
  tracks self !! p = Some T →
  detections !! r = Some d → type d = vehicle → box_2d d = Some B' →
  ltb iouThreshold (calculateIoU (box T) B') = true →
  (∀ r' d' b', r' ≠ r → detections !! r' = Some d' → type d' = vehicle →
               box_2d d' = Some b' →
     if (r' <? r)%nat
     then ltb (calculateIoU (box T) b') (calculateIoU (box T) B') = true
     else ltb (calculateIoU (box T) B') (calculateIoU (box T) b') = false) →
  (∀ p' T', (p' < p)%nat → tracks self !! p' = Some T' →
            ltb iouThreshold (calculateIoU (box T') B') = false) →
  ∃ d', snd (update self detections timestamp) !! r = Some d' ∧ trackId d' = Some (id T).
Proof.
  intros. eapply match_stability_general; eauto using float_threshold_positive.
Qed.

Lemma match_stability_witness :
  ∃ d', snd (update sixLanes sixLanesNext 2) !! 2%nat = Some d' ∧ trackId d' = Some 3.
Proof.
  apply (match_stability sixLanes sixLanesNext 2 2%nat
           (mkTrack 3 "car" (fbox 400 200 500 280) (getCentroid (fbox 400 200 500 280))
              [getCentroid (fbox 400 200 500 280)] 0 (num 0) (num 0) Stable 1)
           2%nat (inLane 2 420) (fbox 420 200 520 280)).
  - vm_compute. reflexivity.
  - reflexivity.
  - reflexivity.
  - reflexivity.
  - vm_compute. reflexivity.
  - intros r' d' b' Hne Hd' _ Hb'.
    do 6 (destruct r' as [|r']; [first [done | injection Hd' as <-; injection Hb' as <-;
                                              vm_compute; reflexivity]|]).
    discriminate.
  - intros p' T' Hlt HT'.
    do 2 (destruct p' as [|p']; [injection HT' as <-; vm_compute; reflexivity|]).
    lia.
Defined.

(** *** Eviction *)

(** A car seen once, then 51 frames that show another car far away. *)
Lemma eviction_witness :
  1 ∉ map id
        (tracks (run (run newTracker [([car (fbox 400 400 500 500)], 1)])
                     (replicate 51 ([car (fbox 0 0 50 50)], 2)))).
Proof.
  apply (proj2 (proj2 (@eviction float float_JsNum))
               [([car (fbox 400 400 500 500)], 1)]
               (replicate 51 ([car (fbox 0 0 50 50)], 2))
               (mkTrack 1 "car" (fbox 400 400 500 500) (getCentroid (fbox 400 400 500 500))
                  [getCentroid (fbox 400 400 500 500)] 0 (num 0) (num 0) Stable 1)).
  - vm_compute. left.
  - reflexivity.
  - vm_compute. reflexivity.
Defined.

(** *** Speed *)

(** In binary64 the centroid moves from 0.45 to 0.48 by a little less than
    0.03, and the floor of the scaled difference is 44. *)
Lemma speed_example_refuted : ¬ speed_example_as_stated.
Proof.
  unfold speed_example_as_stated. intros Heq.
  apply (f_equal (fun l => match l with
                           | [Some x] => PrimFloat.eqb x (Float64.ofZ 45)
                           | _ => false
                           end)) in Heq.
  vm_compute in Heq. discriminate.
Qed.

(** C3, amended.  In one call, each stored track either only ages, or is
    matched, and then its speed is
    [floor(|newCentroid.y - oldCentroid.y| * 1000 * 1.5)], its vertical
    velocity is the signed difference, and the matched detection is returned
    carrying the track's identity and that speed as [estimatedSpeed].  In the
    program's binary64 arithmetic a car at [400,400,500,500] matched at
    [430,400,530,500] moves by less than 0.03 and gets speed 44 (45 is the
    value over exact rationals), and no speeding flag; matched at
    [460,400,560,500] it gets speed 90 and [isSpeeding = true]. *)
Theorem speed_derivation :
  (∀ (R : Type) (N : JsNum R) (self : ObjectTracker R)
     (detections : list (DetectionItem R)) (timestamp : Z),
     ∃ kept created,
       tracks (fst (trackFrame self detections timestamp)) = kept ++ created ∧
       Forall2
         (fun t t1 =>
            t1 = incMissing t ∨
            ∃ b ref d',
              snd (update self detections timestamp) !! ref = Some d' ∧
              box_2d d' = Some b ∧ box t1 = b ∧ missingFrames t1 = 0 ∧
              dy t1 = sub (snd (getCentroid b)) (snd (centroid t)) ∧
              speed t1 =
                Math_floor
                  (mul (mul (Math_abs (sub (snd (getCentroid b)) (snd (centroid t))))
                            (num 1000))
                       (lit (15 # 10))) ∧
              trackId d' = Some (id t) ∧ estimatedSpeed d' = Some (speed t1))
         (tracks self) kept) ∧
  (let r := update oneCar [car (fbox 430 400 530 500)] 2 in
   map (fun t => ltb (dy t) (lit (3 # 100))) (tracks (fst r)) = [true] ∧
   map speed (tracks (fst r)) = [Float64.ofZ 44] ∧
   map estimatedSpeed (snd r) = [Some (Float64.ofZ 44)] ∧
   map isSpeeding (snd r) = [None]) ∧
  (let r := update oneCar [car (fbox 460 400 560 500)] 2 in
   map speed (tracks (fst r)) = [Float64.ofZ 90] ∧
   map estimatedSpeed (snd r) = [Some (Float64.ofZ 90)] ∧
   map isSpeeding (snd r) = [Some true]) ∧
  map estimatedSpeed
    (snd (update (fst (update newTracker
                         [mkDet "car" 1 (9 # 10)%Q vehicle
                            (Some (mkBox 400 400 500 500)%Q) None None None None None] 1))
                 [mkDet "car" 1 (9 # 10)%Q vehicle
                    (Some (mkBox 430 400 530 500)%Q) None None None None None] 2))
  = [Some (inject_Z 45)].
Proof.
  split; [intros R N self detections timestamp; apply speed_general|].
  split; [vm_compute; by repeat split|].
  split; [vm_compute; by repeat split|].
  vm_compute. reflexivity.
Qed.

(** *** Wrong way *)

(** C4.  In every state reached from a fresh tracker, whatever the
    arithmetic: the dominant flow of a call is the mean vertical velocity of
    the tracks updated in this call that move by more than 0.001, and 0 when
    there is none; and every vehicle detection with a box is returned
    carrying the identity of a stored track, with [isWrongWay] set to [true]
    when the flow and the track's velocity both exceed 0.005 in magnitude and
    differ in sign, and left as it was otherwise.  With five cars moving
    down by 0.02 and a sixth moving up by 0.02, only the sixth is flagged. *)
Theorem wrong_way_detection :
  (∀ (R : Type) (N : JsNum R) (frames : list (list (DetectionItem R) * Z))
     (detections : list (DetectionItem R)) (timestamp : Z),
     let s := run newTracker frames in
     let ts := tracks (fst (trackFrame s detections timestamp)) in
     let moving :=
       List.filter
         (fun t => (missingFrames t =? 0) && ltb (lit (1 # 1000)) (Math_abs (dy t))) ts in
     dominantFlow ts = match moving with [] => num 0 | _ :: _ => mean (map dy moving) end ∧
     Forall2
       (fun d d' =>
          isValid d = true →
          ∃ t, t ∈ ts ∧ trackId d' = Some (id t) ∧
               isWrongWay d' =
                 (if ltb (lit (5 # 1000)) (Math_abs (dominantFlow ts))
                     && ltb (lit (5 # 1000)) (Math_abs (dy t))
                     && negb (eqb (Math_sign (dominantFlow ts)) (Math_sign (dy t)))
                  then Some true else isWrongWay d))
       detections (snd (update s detections timestamp))) ∧
  (let ts := tracks (fst (update sixLanes sixLanesNext 2)) in
   map (fun t => ltb (num 0) (dy t)) ts = [true; true; true; true; true; false] ∧
   map (fun t => ltb (dy t) (num 0)) ts = [false; false; false; false; false; true] ∧
   ltb (lit (5 # 1000)) (dominantFlow ts) = true ∧
   map isWrongWay (snd (update sixLanes sixLanesNext 2))
   = [None; None; None; None; None; Some true]).
Proof.
  split; [intros R N frames detections timestamp; apply wrong_way_general|].
  vm_compute. by repeat split.
Qed.

(** *** Lane change *)

Lemma drifted_store : tracks drifted = [driftedTrack].
Proof. vm_compute. reflexivity. Qed.

(** On the fifth frame the history has 5 entries; the program compares
    with the second (no displacement: [Stable]), the wording with the first
    (displacement 0.04: [LaneChange]). *)
Lemma lane_reference_refuted : ¬ lane_reference_as_stated.
Proof.
  intros Hclaim. specialize (Hclaim driftedTrack (fbox 400 140 500 340)).
  vm_compute in Hclaim. specialize (Hclaim ltac:(lia)). discriminate.
Qed.

Lemma lane_fifth_frame :
  map laneEvent (snd (update drifted [car (fbox 400 140 500 340)] 5)) = [Some Stable].
Proof. vm_compute. reflexivity. Qed.

(** ** Integers in binary64: the operations are exact

    From the specification of the binary64 operations ([SpecFloat]): on
    integers below 2^53 in absolute value, sums, differences and products
    that stay below 2^53 are computed exactly, comparisons are those of the
    integers, and the quotient of two such integers [0 <= a <= b], [0 < b],
    rounds to a number between 0 and 1. *)

(** *** Binary digits and shifts *)

Lemma digits2_size p : digits2_pos p = Pos.size p.
Proof. induction p; simpl; congruence. Qed.

Lemma digits2_bounds p : 2 ^ (Zpos (digits2_pos p) - 1) ≤ Zpos p < 2 ^ Zpos (digits2_pos p).
Proof.
  rewrite digits2_size. split.
  - pose proof (Pos.size_le p) as H.
    assert (Hs : Zpos (Pos.size p) = Z.succ (Zpos (Pos.size p) - 1)) by lia.
    assert (2 ^ Zpos (Pos.size p) <= Zpos p~0).
    { rewrite <- Pos2Z.inj_pow. apply Pos2Z.pos_le_pos. exact H. }
    rewrite Hs, Z.pow_succ_r in H0 by lia. lia.
  - rewrite <- Pos2Z.inj_pow. apply Pos2Z.pos_lt_pos. apply Pos.size_gt.
Qed.

Lemma digits2_unique p d : 0 < d → 2 ^ (d - 1) ≤ Zpos p < 2 ^ d → Zpos (digits2_pos p) = d.
Proof.
  intros Hd [Hlo Hhi]. pose proof (digits2_bounds p) as [Blo Bhi].
  destruct (Z.lt_trichotomy (Zpos (digits2_pos p)) d) as [Hlt|[Heq|Hgt]]; [|done|].
  - exfalso. assert (2 ^ Zpos (digits2_pos p) <= 2 ^ (d - 1)) by (apply Z.pow_le_mono_r; lia). lia.
  - exfalso. assert (2 ^ d <= 2 ^ (Zpos (digits2_pos p) - 1)) by (apply Z.pow_le_mono_r; lia). lia.
Qed.

Lemma iter_xO_mul p n : Zpos (Pos.iter xO p n) = Zpos p * 2 ^ Zpos n.
Proof.
  revert p. induction n using Pos.peano_ind; intros p.
  - simpl. lia.
  - rewrite Pos.iter_succ. rewrite Pos2Z.inj_succ, Z.pow_succ_r by lia.
    change (Zpos (Pos.iter xO p n)~0) with (2 * Zpos (Pos.iter xO p n)). rewrite IHn. lia.
Qed.

Lemma pshift_mul p n : 0 ≤ n → Zpos (pshift p n) = Zpos p * 2 ^ n.
Proof.
  destruct n as [|k|k]; simpl; intros Hn; [lia| |lia]. apply iter_xO_mul.
Qed.

Lemma pshift_inj_val p q : Zpos p = Zpos q → p = q.
Proof. congruence. Qed.

Lemma pshift_add p a b : 0 ≤ a → 0 ≤ b → pshift (pshift p a) b = pshift p (a + b).
Proof.
  intros Ha Hb. apply pshift_inj_val.
  rewrite !pshift_mul by lia. rewrite Z.pow_add_r by lia. lia.
Qed.

Lemma digits2_pshift p n : 0 ≤ n → Zpos (digits2_pos (pshift p n)) = Zpos (digits2_pos p) + n.
Proof.
  intros Hn. apply digits2_unique; [lia|].
  rewrite pshift_mul by lia. pose proof (digits2_bounds p) as [Hlo Hhi].
  replace (Zpos (digits2_pos p) + n - 1) with ((Zpos (digits2_pos p) - 1) + n) by lia.
  rewrite !Z.pow_add_r by lia.
  assert (0 < 2 ^ n) by (apply Z.pow_pos_nonneg; lia). nia.
Qed.

Lemma iter_pos_comm {A} (f : A → A) n x : SpecFloat.iter_pos f n (f x) = f (SpecFloat.iter_pos f n x).
Proof.
  revert x. induction n as [n IH|n IH|]; intros x; simpl.
  - by rewrite !IH.
  - by rewrite !IH.
  - done.
Qed.

Lemma iter_pos_succ {A} (f : A → A) n x : SpecFloat.iter_pos f (Pos.succ n) x = SpecFloat.iter_pos f n (f x).
Proof.
  revert x. induction n as [n IH|n IH|]; intros x; simpl.
  - rewrite !IH. by rewrite !iter_pos_comm.
  - by rewrite !iter_pos_comm.
  - done.
Qed.

Lemma shr_iter p n :
  SpecFloat.iter_pos shr_1 n {| shr_m := Zpos (Pos.iter xO p n); shr_r := false; shr_s := false |}
  = {| shr_m := Zpos p; shr_r := false; shr_s := false |}.
Proof.
  revert p. induction n using Pos.peano_ind; intros p.
  - done.
  - rewrite iter_pos_succ, Pos.iter_succ. simpl. apply IHn.
Qed.

(** *** Rounding a value that needs no rounding *)

Lemma round_aux_exact s p n e :
  0 ≤ n → Zpos (digits2_pos p) = 53 → -1074 ≤ e + n ≤ 971 →
  binary_round_aux prec emax s (Zpos (pshift p n)) e loc_Exact = S754_finite s p (e + n).
Proof.
  intros Hn Hd He. unfold binary_round_aux, shr_fexp. simpl Zdigits2.
  rewrite digits2_pshift by done. rewrite Hd.
  replace (fexp prec emax (53 + n + e) - e) with n
    by (unfold fexp, SpecFloat.emin, prec, emax; lia).
  destruct n as [|k|k]; [| |lia].
  - simpl shr. simpl shr_m. cbn [round_nearest_even loc_of_shr_record shr_record_of_loc].
    simpl Zdigits2. rewrite Hd.
    replace (fexp prec emax (53 + e) - e) with 0
      by (unfold fexp, SpecFloat.emin, prec, emax; lia).
    simpl. rewrite Z.add_0_r.
    replace (e <=? emax - prec) with true; [done|].
    symmetry. apply Z.leb_le. unfold emax, prec. lia.
  - simpl pshift. simpl shr. rewrite shr_iter. simpl shr_m.
    cbn [round_nearest_even loc_of_shr_record shr_record_of_loc].
    simpl Zdigits2. rewrite Hd.
    replace (fexp prec emax (53 + (e + Zpos k)) - (e + Zpos k)) with 0
      by (unfold fexp, SpecFloat.emin, prec, emax; lia).
    simpl.
    replace (e + Zpos k <=? emax - prec) with true; [done|].
    symmetry. apply Z.leb_le. unfold emax, prec. lia.
Qed.

Lemma round_aux_exact' s m p n e :
  m = pshift p n →
  0 ≤ n → Zpos (digits2_pos p) = 53 → -1074 ≤ e + n ≤ 971 →
  binary_round_aux prec emax s (Zpos m) e loc_Exact = S754_finite s p (e + n).
Proof. intros ->. apply round_aux_exact. Qed.

Lemma round_canon s p n :
  Zpos (digits2_pos p) ≤ 53 → 0 ≤ n ≤ 1000 →
  binary_round prec emax s (pshift p n) (- n) = canon s p.
Proof.
  intros Hd Hn. unfold binary_round, shl_align.
  rewrite digits2_pshift by lia.
  set (d := Zpos (digits2_pos p)) in *.
  assert (Hd1 : 1 <= d) by (unfold d; lia).
  replace (fexp prec emax (d + n + - n)) with (d - 53)
    by (unfold fexp, SpecFloat.emin, prec, emax; lia).
  assert (Hq : Zpos (digits2_pos (pshift p (53 - d))) = 53).
  { rewrite digits2_pshift by lia. fold d. lia. }
  destruct (d - 53 - - n) as [|k|k] eqn:Hk.
  - rewrite (round_aux_exact' s _ (pshift p (53 - d)) 0); try lia; try done.
    + unfold canon. fold d. f_equal. lia.
    + simpl. f_equal. lia.
  - rewrite (round_aux_exact' s _ (pshift p (53 - d)) (Zpos k)); try lia; try done.
    + unfold canon. fold d. f_equal. lia.
    + rewrite pshift_add by lia. f_equal. lia.
  - rewrite (round_aux_exact' s _ (pshift p (53 - d)) 0); try lia; try done.
    + unfold canon. fold d. f_equal. lia.
    + simpl (pshift _ 0). change (Pos.iter xO (pshift p n) k) with (pshift (pshift p n) (Zpos k)).
      rewrite pshift_add by lia. f_equal. lia.
Qed.

(** *** Integers below 2^53 *)

Lemma digits2_le p : Zpos p < 2 ^ 53 → Zpos (digits2_pos p) ≤ 53.
Proof.
  intros Hp. pose proof (digits2_bounds p) as [Hlo _].
  destruct (Z_le_gt_dec (Zpos (digits2_pos p)) 53) as [|Hgt]; [done|]. exfalso.
  assert (2 ^ 53 <= 2 ^ (Zpos (digits2_pos p) - 1)) by (apply Z.pow_le_mono_r; lia). lia.
Qed.

Lemma normalize_canon z n :
  Z.abs z < 2 ^ 53 → 0 ≤ n ≤ 1000 →
  binary_normalize prec emax (z * 2 ^ n) (- n) false = canonZ z.
Proof.
  intros Hz Hn. destruct z as [|p|p].
  - done.
  - replace (Zpos p * 2 ^ n) with (Zpos (pshift p n)) by (rewrite pshift_mul; lia).
    cbn [binary_normalize canonZ]. apply round_canon; [apply digits2_le; lia|done].
  - replace (Zneg p * 2 ^ n) with (Zneg (pshift p n)).
    + cbn [binary_normalize canonZ]. apply round_canon; [apply digits2_le; lia|done].
    + rewrite <- !Pos2Z.opp_pos, pshift_mul by lia. lia.
Qed.

Lemma canon_valid s p : Zpos p < 2 ^ 53 → SpecFloat.valid_binary prec emax (canon s p) = true.
Proof.
  intros Hp. pose proof (digits2_le p Hp) as Hd. unfold canon. simpl.
  unfold bounded, canonical_mantissa. rewrite digits2_pshift by lia.
  apply andb_true_intro. split.
  - apply Z.eqb_eq. unfold fexp, SpecFloat.emin, prec, emax. lia.
  - apply Z.leb_le. unfold prec, emax. lia.
Qed.

Lemma canonZ_valid z : Z.abs z < 2 ^ 53 → SpecFloat.valid_binary prec emax (canonZ z) = true.
Proof. destruct z; cbn [canonZ]; intros; [done|apply canon_valid; lia..]. Qed.

Lemma Prim2SF_ofZ z : Z.abs z < 2 ^ 53 → Prim2SF (Float64.ofZ z) = canonZ z.
Proof.
  intros Hz. unfold Float64.ofZ.
  pose proof (normalize_canon z 0 Hz ltac:(lia)) as Hn.
  rewrite Z.mul_1_r in Hn. change (- 0) with 0 in Hn. rewrite Hn.
  apply FloatAxioms.Prim2SF_SF2Prim. by apply canonZ_valid.
Qed.

Lemma holds_ofZ z : Z.abs z < 2 ^ 53 → holds (Float64.ofZ z) z.
Proof.
  intros Hz. split; [done|]. rewrite Prim2SF_ofZ by done.
  destruct z; [by exists false|done..].
Qed.

Lemma shl_align_fst m e e' : e' ≤ e → fst (shl_align m e e') = pshift m (e - e').
Proof.
  intros He. unfold shl_align.
  destruct (e' - e) as [|k|k] eqn:Hk; simpl.
  - by replace (e - e') with 0 by lia.
  - lia.
  - by replace (e - e') with (Zpos k) by lia.
Qed.

Lemma canonZ_signed s p : canonZ (signed s p) = canon s p.
Proof. by destruct s. Qed.

Lemma cond_Zopp_aligned s p ez :
  Zpos (digits2_pos p) ≤ 53 → ez ≤ Zpos (digits2_pos p) - 53 →
  cond_Zopp s (Zpos (fst (shl_align (pshift p (53 - Zpos (digits2_pos p)))
                                     (Zpos (digits2_pos p) - 53) ez)))
  = signed s p * 2 ^ (- ez).
Proof.
  intros Hd He. rewrite shl_align_fst by done. rewrite pshift_add by lia.
  rewrite pshift_mul by lia.
  replace (53 - Zpos (digits2_pos p) + (Zpos (digits2_pos p) - 53 - ez)) with (- ez) by lia.
  destruct s; simpl; [|done]. rewrite <- Pos2Z.opp_pos. lia.
Qed.

Lemma SFadd_canon sa pa sb pb :
  Zpos pa < 2 ^ 53 → Zpos pb < 2 ^ 53 → Z.abs (signed sa pa + signed sb pb) < 2 ^ 53 →
  SFadd prec emax (canon sa pa) (canon sb pb) = canonZ (signed sa pa + signed sb pb).
Proof.
  intros Ha Hb Hab. pose proof (digits2_le _ Ha). pose proof (digits2_le _ Hb).
  unfold canon at 1 2. cbn [SFadd].
  set (ez := Z.min _ _).
  rewrite !cond_Zopp_aligned by (try done; unfold ez; lia).
  rewrite <- Z.mul_add_distr_r.
  replace ez with (- - ez) at 2 by lia.
  apply normalize_canon; [done|]. unfold ez. lia.
Qed.

Lemma SFsub_canon sa pa sb pb :
  Zpos pa < 2 ^ 53 → Zpos pb < 2 ^ 53 → Z.abs (signed sa pa - signed sb pb) < 2 ^ 53 →
  SFsub prec emax (canon sa pa) (canon sb pb) = canonZ (signed sa pa - signed sb pb).
Proof.
  intros Ha Hb Hab. pose proof (digits2_le _ Ha). pose proof (digits2_le _ Hb).
  unfold canon at 1 2. cbn [SFsub].
  set (ez := Z.min _ _).
  rewrite !cond_Zopp_aligned by (try done; unfold ez; lia).
  rewrite <- Z.mul_sub_distr_r.
  replace ez with (- - ez) at 2 by lia.
  apply normalize_canon; [done|]. unfold ez. lia.
Qed.

Lemma digits2_mul_lower pa pb :
  Zpos (digits2_pos pa) + Zpos (digits2_pos pb) - 1 ≤ Zpos (digits2_pos (pa * pb)).
Proof.
  pose proof (digits2_bounds pa) as [La _]. pose proof (digits2_bounds pb) as [Lb _].
  pose proof (digits2_bounds (pa * pb)) as [_ Hq].
  assert (Hp : 2 ^ (Zpos (digits2_pos pa) - 1 + (Zpos (digits2_pos pb) - 1)) <= Zpos (pa * pb)).
  { rewrite Z.pow_add_r by lia. rewrite Pos2Z.inj_mul. apply Z.mul_le_mono_nonneg; lia. }
  assert (Hlt : 2 ^ (Zpos (digits2_pos pa) - 1 + (Zpos (digits2_pos pb) - 1))
                < 2 ^ Zpos (digits2_pos (pa * pb))) by lia.
  apply Z.pow_lt_mono_r_iff in Hlt; lia.
Qed.

Lemma SFmul_canon sa pa sb pb :
  Zpos pa * Zpos pb < 2 ^ 53 →
  SFmul prec emax (canon sa pa) (canon sb pb) = canon (xorb sa sb) (pa * pb).
Proof.
  intros Hab.
  assert (Ha : Zpos pa < 2 ^ 53) by nia. assert (Hb : Zpos pb < 2 ^ 53) by nia.
  pose proof (digits2_le _ Ha) as Da. pose proof (digits2_le _ Hb) as Db.
  assert (Dq : Zpos (digits2_pos (pa * pb)) <= 53) by (apply digits2_le; lia).
  pose proof (digits2_mul_lower pa pb) as Dl.
  unfold canon. cbn [SFmul].
  set (da := Zpos (digits2_pos pa)) in *. set (db := Zpos (digits2_pos pb)) in *.
  set (dq := Zpos (digits2_pos (pa * pb))) in *.
  replace (dq - 53) with ((da - 53 + (db - 53)) + (53 + dq - da - db)) by lia.
  apply round_aux_exact'; [|lia| |lia].
  - apply pshift_inj_val. rewrite pshift_add by lia.
    rewrite Pos2Z.inj_mul, !pshift_mul by lia. rewrite Pos2Z.inj_mul.
    replace (53 - dq + (53 + dq - da - db)) with ((53 - da) + (53 - db)) by lia.
    rewrite Z.pow_add_r by lia. ring.
  - rewrite digits2_pshift by lia. fold dq. lia.
Qed.

Lemma compare_canon pa pb :
  Zpos pa < 2 ^ 53 → Zpos pb < 2 ^ 53 →
  match Zpos (digits2_pos pa) - 53 ?= Zpos (digits2_pos pb) - 53 with
  | Lt => Lt
  | Gt => Gt
  | Eq => Pos.compare_cont Eq (pshift pa (53 - Zpos (digits2_pos pa)))
                              (pshift pb (53 - Zpos (digits2_pos pb)))
  end = (pa ?= pb)%positive.
Proof.
  intros Ha Hb. pose proof (digits2_le _ Ha) as Da. pose proof (digits2_le _ Hb) as Db.
  pose proof (digits2_bounds pa) as [La Ua]. pose proof (digits2_bounds pb) as [Lb Ub].
  destruct (Z.compare_spec (Zpos (digits2_pos pa) - 53) (Zpos (digits2_pos pb) - 53)) as [E|E|E].
  - change (Pos.compare_cont Eq ?a ?b) with (a ?= b)%positive.
    rewrite !Pos2Z.inj_compare, !pshift_mul by lia.
    replace (Zpos (digits2_pos pb)) with (Zpos (digits2_pos pa)) by lia.
    symmetry. apply Zmult_compare_compat_r.
    assert (0 < 2 ^ (53 - Zpos (digits2_pos pa))) by (apply Z.pow_pos_nonneg; lia). lia.
  - symmetry. apply Pos.compare_lt_iff.
    assert (2 ^ Zpos (digits2_pos pa) <= 2 ^ (Zpos (digits2_pos pb) - 1))
      by (apply Z.pow_le_mono_r; lia). lia.
  - symmetry. apply Pos.compare_gt_iff.
    assert (2 ^ Zpos (digits2_pos pb) <= 2 ^ (Zpos (digits2_pos pa) - 1))
      by (apply Z.pow_le_mono_r; lia). lia.
Qed.

Lemma SFcompare_canon sa pa sb pb :
  Zpos pa < 2 ^ 53 → Zpos pb < 2 ^ 53 →
  SFcompare (canon sa pa) (canon sb pb) = Some (signed sa pa ?= signed sb pb).
Proof.
  intros Ha Hb. unfold canon. cbn [SFcompare].
  destruct sa, sb; cbn [signed]; try done.
  - f_equal.
    change (Zneg pa ?= Zneg pb) with (CompOpp (pa ?= pb)%positive).
    rewrite <- (compare_canon pa pb Ha Hb).
    by destruct (_ ?= _).
  - f_equal. change (Zpos pa ?= Zpos pb) with (pa ?= pb)%positive.
    by rewrite <- (compare_canon pa pb Ha Hb).
Qed.

Lemma signed_abs s p : Z.abs (signed s p) = Zpos p.
Proof. by destruct s. Qed.

Lemma holds_inv x z :
  holds x z →
  (z = 0 ∧ ∃ s, Prim2SF x = S754_zero s) ∨
  (∃ s p, z = signed s p ∧ Zpos p < 2 ^ 53 ∧ Prim2SF x = canon s p).
Proof.
  intros [Hb Hx]. destruct z as [|p|p].
  - by left.
  - right. exists false, p. split; [done|]. split; [lia|done].
  - right. exists true, p. split; [done|]. split; [lia|done].
Qed.

Lemma holds_zero x s : Prim2SF x = S754_zero s → holds x 0.
Proof. intros Hx. split; [done|]. by exists s. Qed.

Lemma holds_signed x s p : Zpos p < 2 ^ 53 → Prim2SF x = canon s p → holds x (signed s p).
Proof.
  intros Hp Hx. split; [by rewrite signed_abs|].
  destruct s; done.
Qed.

Lemma holds_canonZ x z : Z.abs z < 2 ^ 53 → Prim2SF x = canonZ z → holds x z.
Proof.
  intros Hz Hx. split; [done|]. destruct z; [by exists false|done..].
Qed.

Ltac holds_cases Hx Hy :=
  apply holds_inv in Hx as [[-> [? Hx]]|(? & ? & -> & ? & Hx)];
  apply holds_inv in Hy as [[-> [? Hy]]|(? & ? & -> & ? & Hy)].

Lemma holds_add x y a b :
  holds x a → holds y b → Z.abs (a + b) < 2 ^ 53 → holds (x + y)%float (a + b).
Proof.
  intros Hx Hy Hab.
  assert (Hs : Prim2SF (x + y) = SFadd prec emax (Prim2SF x) (Prim2SF y))
    by apply FloatAxioms.add_spec.
  holds_cases Hx Hy; rewrite Hx, Hy in Hs.
  - repeat match goal with s : bool |- _ => destruct s end;
      by apply (holds_zero _ _ Hs).
  - apply holds_canonZ; [done|]. by rewrite Hs, Z.add_0_l, canonZ_signed.
  - apply holds_canonZ; [done|]. by rewrite Hs, Z.add_0_r, canonZ_signed.
  - apply holds_canonZ; [done|]. rewrite Hs. by apply SFadd_canon.
Qed.

Lemma holds_sub x y a b :
  holds x a → holds y b → Z.abs (a - b) < 2 ^ 53 → holds (x - y)%float (a - b).
Proof.
  intros Hx Hy Hab.
  assert (Hs : Prim2SF (x - y) = SFsub prec emax (Prim2SF x) (Prim2SF y))
    by apply FloatAxioms.sub_spec.
  holds_cases Hx Hy; rewrite Hx, Hy in Hs.
  - repeat match goal with s : bool |- _ => destruct s end;
      by apply (holds_zero _ _ Hs).
  - replace (0 - signed x1 x2) with (signed (negb x1) x2) by (by destruct x1).
    by apply holds_signed.
  - apply holds_canonZ; [done|]. by rewrite Hs, Z.sub_0_r, canonZ_signed.
  - apply holds_canonZ; [done|]. rewrite Hs. by apply SFsub_canon.
Qed.

Lemma signed_mul sa pa sb pb :
  signed sa pa * signed sb pb = signed (xorb sa sb) (pa * pb).
Proof. by destruct sa, sb. Qed.

Lemma holds_mul x y a b :
  holds x a → holds y b → Z.abs (a * b) < 2 ^ 53 → holds (x * y)%float (a * b).
Proof.
  intros Hx Hy Hab.
  assert (Hs : Prim2SF (x * y) = SFmul prec emax (Prim2SF x) (Prim2SF y))
    by apply FloatAxioms.mul_spec.
  holds_cases Hx Hy; rewrite Hx, Hy in Hs.
  - by apply (holds_zero _ _ Hs).
  - rewrite Z.mul_0_l. by apply (holds_zero _ _ Hs).
  - rewrite Z.mul_0_r. by apply (holds_zero _ _ Hs).
  - rewrite signed_mul in *. rewrite signed_abs in Hab.
    apply holds_signed; [done|]. rewrite Hs. apply SFmul_canon. lia.
Qed.

Lemma holds_compare x y a b :
  holds x a → holds y b → SFcompare (Prim2SF x) (Prim2SF y) = Some (a ?= b).
Proof.
  intros Hx Hy. holds_cases Hx Hy; rewrite Hx, Hy.
  - done.
  - unfold canon. by repeat match goal with s : bool |- _ => destruct s end.
  - unfold canon. by repeat match goal with s : bool |- _ => destruct s end.
  - by apply SFcompare_canon.
Qed.

Lemma holds_ltb x y a b : holds x a → holds y b → (x <? y)%float = (a <? b).
Proof.
  intros Hx Hy. rewrite FloatAxioms.ltb_spec. unfold SFltb.
  rewrite (holds_compare x y a b Hx Hy). rewrite Z.ltb_compare. by destruct (a ?= b).
Qed.

Lemma holds_eqb x y a b : holds x a → holds y b → (x =? y)%float = (a =? b).
Proof.
  intros Hx Hy. rewrite FloatAxioms.eqb_spec. unfold SFeqb.
  rewrite (holds_compare x y a b Hx Hy). rewrite Z.eqb_compare. by destruct (a ?= b).
Qed.

Lemma holds_not_nan x a : holds x a → PrimFloat.is_nan x = false.
Proof.
  intros Hx. unfold PrimFloat.is_nan. by rewrite (holds_eqb x x a a), Z.eqb_refl.
Qed.

Lemma holds_max x y a b : holds x a → holds y b → holds (Float64.max x y) (Z.max a b).
Proof.
  intros Hx Hy. unfold Float64.max.
  rewrite (holds_not_nan x a), (holds_not_nan y b) by done.
  rewrite (holds_ltb x y a b), (holds_ltb y x b a) by done.
  destruct (Z.ltb_spec a b); [by rewrite Z.max_r by lia|].
  destruct (Z.ltb_spec b a); [by rewrite Z.max_l by lia|].
  assert (a = b) as -> by lia. rewrite Z.max_id. by destruct (Float64.is_negzero x).
Qed.

Lemma holds_min x y a b : holds x a → holds y b → holds (Float64.min x y) (Z.min a b).
Proof.
  intros Hx Hy. unfold Float64.min.
  rewrite (holds_not_nan x a), (holds_not_nan y b) by done.
  rewrite (holds_ltb x y a b), (holds_ltb y x b a) by done.
  destruct (Z.ltb_spec a b); [by rewrite Z.min_l by lia|].
  destruct (Z.ltb_spec b a); [by rewrite Z.min_r by lia|].
  assert (a = b) as -> by lia. rewrite Z.min_id. by destruct (Float64.is_negzero x).
Qed.

(** *** Rounding a quotient of two 53-bit mantissas *)

Lemma round_nearest_even_cases m l :
  round_nearest_even m l = m ∨ round_nearest_even m l = m + 1.
Proof.
  unfold round_nearest_even. destruct l as [|[]]; try (by left); [|by right].
  destruct (Z.even m); [by left|by right].
Qed.

Lemma fexp_normal d e : -1000 ≤ e → 53 ≤ d → fexp prec emax (d + e) - e = d - 53.
Proof. unfold fexp, SpecFloat.emin, prec, emax. lia. Qed.

Lemma second_round s m e :
  2 ^ 52 ≤ m ≤ 2 ^ 53 → -1000 ≤ e ≤ 960 →
  (let '(mrs, e2) := shr_fexp prec emax m e loc_Exact in
   match shr_m mrs with
   | 0 => S754_zero s
   | Zpos p => if e2 <=? emax - prec then S754_finite s p e2 else S754_infinity s
   | Zneg _ => S754_nan
   end) = finish s m e.
Proof.
  intros Hm He. unfold finish, shr_fexp.
  destruct (Z.ltb_spec m (2 ^ 53)) as [Hlt|Hge].
  - destruct m as [|p|p]; [lia| |lia]. cbn [Zdigits2].
    rewrite fexp_normal; [|lia|].
    2:{ pose proof (digits2_bounds p) as [_ Hu].
        destruct (Z_lt_ge_dec (Zpos (digits2_pos p)) 53) as [Hd|Hd]; [|lia].
        assert (2 ^ Zpos (digits2_pos p) <= 2 ^ 52) by (apply Z.pow_le_mono_r; lia). lia. }
    replace (Zpos (digits2_pos p)) with 53.
    2:{ symmetry. apply digits2_unique; lia. }
    change (53 - 53) with 0. cbn [shr shr_m shr_record_of_loc Z.to_pos].
    replace (e <=? emax - prec) with true; [done|].
    symmetry. apply Z.leb_le. unfold emax, prec. lia.
  - assert (m = 2 ^ 53) as -> by lia.
    change (Zdigits2 (2 ^ 53)) with 54.
    rewrite fexp_normal by lia. change (54 - 53) with 1.
    cbn [shr shr_record_of_loc]. 
    match goal with |- context [shr_m ?r] =>
      let v := eval vm_compute in (shr_m r) in change (shr_m r) with v end.
    cbv iota beta.
    replace (e + 1 <=? emax - prec) with true; [done|].
    symmetry. apply Z.leb_le. unfold emax, prec. lia.
Qed.

Lemma digits2_53 q : 2 ^ 52 ≤ Zpos q < 2 ^ 53 → Zpos (digits2_pos q) = 53.
Proof. intros Hq. apply digits2_unique; lia. Qed.

Lemma digits2_54 q : 2 ^ 53 ≤ Zpos q < 2 ^ 54 → Zpos (digits2_pos q) = 54.
Proof. intros Hq. apply digits2_unique; lia. Qed.

Lemma shr_m_of_loc m l : shr_m (shr_record_of_loc m l) = m.
Proof. by destruct l as [|[]]. Qed.

Lemma round_aux_53 s q e l :
  2 ^ 52 ≤ Zpos q < 2 ^ 53 → -1000 ≤ e ≤ 900 →
  ∃ m, 2 ^ 52 ≤ m ≤ 2 ^ 53 ∧
    binary_round_aux prec emax s (Zpos q) e l = finish s m e.
Proof.
  intros Hq He. unfold binary_round_aux. unfold shr_fexp at 1. cbn [Zdigits2].
  rewrite digits2_53 by done. rewrite fexp_normal by lia. change (53 - 53) with 0.
  cbn [shr]. rewrite shr_m_of_loc.
  set (m := round_nearest_even _ _).
  assert (Hm : 2 ^ 52 <= m <= 2 ^ 53).
  { unfold m. destruct (round_nearest_even_cases (Zpos q)
      (loc_of_shr_record (shr_record_of_loc (Zpos q) l))) as [->| ->]; lia. }
  exists m. split; [done|]. apply second_round; lia.
Qed.

Lemma shr_1_half q r s :
  1 < Zpos q → shr_m (shr_1 {| shr_m := Zpos q; shr_r := r; shr_s := s |}) = Zpos q / 2.
Proof.
  intros Hq. destruct q as [p|p|]; [| |lia]; cbn [shr_1 shr_m].
  - rewrite Pos2Z.inj_xI. apply (Z.div_unique _ _ _ 1); lia.
  - rewrite Pos2Z.inj_xO. apply (Z.div_unique _ _ _ 0); lia.
Qed.

Lemma round_aux_54 s q e l :
  2 ^ 53 ≤ Zpos q < 2 ^ 54 → -1000 ≤ e ≤ 900 →
  ∃ m, 2 ^ 52 ≤ m ≤ 2 ^ 53 ∧
    binary_round_aux prec emax s (Zpos q) e l = finish s m (e + 1) ∧
    (Zpos q = 2 ^ 53 → l = loc_Exact → m = 2 ^ 52).
Proof.
  intros Hq He. unfold binary_round_aux. unfold shr_fexp at 1. cbn [Zdigits2].
  rewrite digits2_54 by done. rewrite fexp_normal by lia. change (54 - 53) with 1.
  cbn [shr SpecFloat.iter_pos].
  set (r1 := shr_1 _).
  assert (Hr : shr_m r1 = Zpos q / 2).
  { unfold r1. destruct l as [|[]]; cbn [shr_record_of_loc]; apply shr_1_half; lia. }
  assert (Hh : 2 ^ 52 <= Zpos q / 2 < 2 ^ 53).
  { assert (2 ^ 53 = 2 * 2 ^ 52) by done. assert (2 ^ 54 = 2 * 2 ^ 53) by done.
    split; [apply Z.div_le_lower_bound; lia|apply Z.div_lt_upper_bound; lia]. }
  set (m := round_nearest_even _ _).
  assert (Hm : 2 ^ 52 <= m <= 2 ^ 53).
  { unfold m. destruct (round_nearest_even_cases (shr_m r1) (loc_of_shr_record r1))
      as [->| ->]; lia. }
  exists m. split; [done|]. split; [apply second_round; lia|].
  intros Hq2 ->. unfold m, r1. injection Hq2 as ->. by vm_compute.
Qed.

Lemma finish_atMostOne m e :
  2 ^ 52 ≤ m ≤ 2 ^ 53 → e ≤ -53 → atMostOne (finish false m e).
Proof.
  intros Hm He. unfold finish. destruct (Z.ltb_spec m (2 ^ 53)); cbn [atMostOne].
  - left. lia.
  - destruct (Z_lt_ge_dec (e + 1) (-52)); [by left|right]. split; [lia|done].
Qed.

Lemma div_eucl_pair a b : Z.div_eucl a b = (a / b, a mod b).
Proof. unfold Z.div, Z.modulo. by destruct (Z.div_eucl a b). Qed.

Lemma div_core m1 e1 m2 e2 :
  Zpos (digits2_pos m1) = 53 → Zpos (digits2_pos m2) = 53 → -60 ≤ e1 - e2 ≤ 60 →
  SFdiv_core_binary prec emax (Zpos m1) e1 (Zpos m2) e2
  = (Zpos m1 * 2 ^ 53 / Zpos m2, e1 - e2 - 53,
     new_location (Zpos m2) (Zpos m1 * 2 ^ 53 mod Zpos m2)).
Proof.
  intros H1 H2 He. unfold SFdiv_core_binary. cbn [Zdigits2]. rewrite H1, H2.
  replace (Z.min _ _) with (e1 - e2 - 53)
    by (unfold fexp, SpecFloat.emin, prec, emax; lia).
  replace (e1 - e2 - (e1 - e2 - 53)) with 53 by lia.
  cbv iota beta. rewrite Z.shiftl_mul_pow2 by lia. by rewrite div_eucl_pair.
Qed.

Lemma new_location_zero n : new_location n 0 = loc_Exact.
Proof. unfold new_location. by destruct (Z.even n). Qed.

Lemma SFdiv_canon_le pa pb :
  Zpos pa ≤ Zpos pb → Zpos pb < 2 ^ 53 →
  atMostOne (SFdiv prec emax (canon false pa) (canon false pb)).
Proof.
  intros Hab Hb. assert (Ha : Zpos pa < 2 ^ 53) by lia.
  pose proof (digits2_le _ Ha) as Da. pose proof (digits2_le _ Hb) as Db.
  pose proof (digits2_bounds pa) as [La Ua]. pose proof (digits2_bounds pb) as [Lb Ub].
  assert (Dab : Zpos (digits2_pos pa) <= Zpos (digits2_pos pb)).
  { destruct (Z_le_gt_dec (Zpos (digits2_pos pa)) (Zpos (digits2_pos pb))); [done|].
    assert (2 ^ Zpos (digits2_pos pb) <= 2 ^ (Zpos (digits2_pos pa) - 1))
      by (apply Z.pow_le_mono_r; lia). lia. }
  unfold canon. cbn [SFdiv xorb].
  set (da := Zpos (digits2_pos pa)) in *. set (db := Zpos (digits2_pos pb)) in *.
  set (ma := pshift pa (53 - da)). set (mb := pshift pb (53 - db)).
  assert (Dma : Zpos (digits2_pos ma) = 53)
    by (unfold ma; rewrite digits2_pshift by lia; fold da; lia).
  assert (Dmb : Zpos (digits2_pos mb) = 53)
    by (unfold mb; rewrite digits2_pshift by lia; fold db; lia).
  pose proof (digits2_bounds ma) as Bma. rewrite Dma in Bma. change (53 - 1) with 52 in Bma.
  pose proof (digits2_bounds mb) as Bmb. rewrite Dmb in Bmb. change (53 - 1) with 52 in Bmb.
  rewrite div_core by lia.
  set (q := Zpos ma * 2 ^ 53 / Zpos mb).
  assert (P53 : 2 ^ 53 = 2 * 2 ^ 52) by done. assert (P54 : 2 ^ 54 = 2 * 2 ^ 53) by done.
  assert (Hq : 2 ^ 52 <= q < 2 ^ 54).
  { unfold q. split; [apply Z.div_le_lower_bound; nia|apply Z.div_lt_upper_bound; nia]. }
  destruct q as [|pq|pq] eqn:Eq; [lia| |lia].
  destruct (Z_lt_ge_dec (Zpos pq) (2 ^ 53)) as [Hlt|Hge].
  - destruct (round_aux_53 false pq (da - 53 - (db - 53) - 53)
                (new_location (Zpos mb) (Zpos ma * 2 ^ 53 mod Zpos mb)))
      as (m & Hm & ->); [lia|lia|].
    apply finish_atMostOne; lia.
  - destruct (round_aux_54 false pq (da - 53 - (db - 53) - 53)
                (new_location (Zpos mb) (Zpos ma * 2 ^ 53 mod Zpos mb)))
      as (m & Hm & -> & Hex); [lia|lia|].
    destruct (Z_lt_ge_dec da db) as [Hd|Hd].
    { apply finish_atMostOne; lia. }
    assert (da = db) by lia.
    assert (Hle : Zpos ma <= Zpos mb).
    { unfold ma, mb. rewrite !pshift_mul by lia. replace db with da by done.
      apply Z.mul_le_mono_nonneg_r; [|lia]. apply Z.pow_nonneg. lia. }
    assert (Hge' : Zpos mb <= Zpos ma).
    { assert (2 ^ 53 * Zpos mb <= Zpos ma * 2 ^ 53); [|lia].
      rewrite (Z.mul_comm (2 ^ 53)).
      pose proof (Z.mul_div_le (Zpos ma * 2 ^ 53) (Zpos mb) ltac:(lia)) as Hd'.
      fold q in Hd'. rewrite Eq in Hd'. nia. }
    assert (Zpos ma = Zpos mb) as Hm' by lia.
    assert (Hpq : Zpos pq = 2 ^ 53).
    { rewrite <- Eq. unfold q. rewrite Hm'. rewrite Z.mul_comm. apply Z.div_mul. lia. }
    assert (Hr : Zpos ma * 2 ^ 53 mod Zpos mb = 0).
    { rewrite Hm', Z.mul_comm. apply Z.mod_mul. lia. }
    rewrite Hr, new_location_zero in Hex. rewrite (Hex Hpq eq_refl).
    replace (da - 53 - (db - 53) - 53 + 1) with (-52) by lia.
    right. done.
Qed.

Lemma holds_div_zero x y b : holds x 0 → holds y b → b ≠ 0 → holds (x / y)%float 0.
Proof.
  intros Hx Hy Hb.
  assert (Hs : Prim2SF (x / y) = SFdiv prec emax (Prim2SF x) (Prim2SF y))
    by apply FloatAxioms.div_spec.
  destruct Hx as [_ [s Hx]].
  apply holds_inv in Hy as [[-> _]|(sy & py & -> & Hp & Hy)]; [done|].
  rewrite Hx, Hy in Hs. by apply (holds_zero _ _ Hs).
Qed.

Lemma atMostOne_unit x :
  atMostOne (Prim2SF x) →
  (x <? (num 0%Z))%float = false ∧ ((num 1%Z) <? x)%float = false ∧ (x =? x)%float = true.
Proof.
  rewrite !FloatAxioms.ltb_spec, FloatAxioms.eqb_spec.
  replace (Prim2SF (num 0%Z)) with (S754_zero false) by (by vm_compute).
  replace (Prim2SF (num 1%Z)) with (S754_finite false 4503599627370496 (-52)) by (by vm_compute).
  destruct (Prim2SF x) as [| | |[] m e]; try done. cbn [atMostOne].
  unfold SFltb, SFeqb. cbn [SFcompare]. rewrite Z.compare_refl.
  change (Pos.compare_cont Eq m m) with (m ?= m)%positive. rewrite Pos.compare_refl.
  intros [He|[-> Hm]].
  - replace (-52 ?= e) with Gt by (symmetry; apply Z.compare_gt_iff; lia). done.
  - injection Hm as ->. done.
Qed.

Lemma holds_unit x : holds x 0 →
  (x <? (num 0%Z))%float = false ∧ ((num 1%Z) <? x)%float = false ∧ (x =? x)%float = true.
Proof.
  intros [_ [s Hx]].
  rewrite !FloatAxioms.ltb_spec, FloatAxioms.eqb_spec, Hx.
  replace (Prim2SF (num 0%Z)) with (S754_zero false) by (by vm_compute).
  replace (Prim2SF (num 1%Z)) with (S754_finite false 4503599627370496 (-52)) by (by vm_compute).
  done.
Qed.

Lemma holds_div_unit x y a b :
  holds x a → holds y b → 0 ≤ a ≤ b → 0 < b →
  ((x / y) <? (num 0%Z))%float = false ∧ ((num 1%Z) <? (x / y))%float = false ∧
  ((x / y) =? (x / y))%float = true.
Proof.
  intros Hx Hy Hab Hb.
  destruct (Z.eq_dec a 0) as [->|Ha].
  { apply holds_unit. apply (holds_div_zero x y b); [done|done|lia]. }
  apply atMostOne_unit. rewrite FloatAxioms.div_spec.
  holds_cases Hx Hy; try lia; rewrite Hx, Hy.
  repeat match goal with s : bool |- _ => destruct s end; cbn [signed] in *; try lia.
  apply SFdiv_canon_le; lia.
Qed.


(** ** Intersection over union *)

(** In binary64 the guard of [calculateIoU] lets no zero through, of
    either sign. *)
Lemma float_guard_nonzero (u : float) :
  eqb (R:=float) u (num 0) = false → ∀ s, Prim2SF u ≠ S754_zero s.
Proof.
  change (PrimFloat.eqb u (Float64.lit (inject_Z 0)) = false → ∀ s, Prim2SF u ≠ S754_zero s).
  rewrite FloatAxioms.eqb_spec.
  replace (Prim2SF (Float64.lit (inject_Z 0))) with (S754_zero false)
    by (vm_compute; reflexivity).
  intros Hne s Hu. rewrite Hu in Hne. discriminate.
Qed.

(** A box with negative width: the result is a zero (the negative one). *)
Lemma float_degenerate_example :
  eqb (calculateIoU (fbox 0 0 10 (-10)) (fbox 0 0 5 5)) (num 0) = true.
Proof. vm_compute. reflexivity. Qed.

Section ExactIoU.
Local Open Scope Q_scope.

Lemma exact_ltb_lt (x y : Q) : Exact.ltb x y = true ↔ x < y.
Proof.
  unfold Exact.ltb. rewrite negb_true_iff. split.
  - intros Hb. apply Qnot_le_lt. intros Hle. apply Qle_bool_iff in Hle. congruence.
  - intros Hlt. destruct (Qle_bool y x) eqn:E; [|done]. apply Qle_bool_iff in E. lra.
Qed.

Lemma exact_ltb_ge (x y : Q) : Exact.ltb x y = false ↔ y <= x.
Proof. unfold Exact.ltb. rewrite negb_false_iff. apply Qle_bool_iff. Qed.

Lemma overlap_cases lo1 hi1 lo2 hi2 :
  overlap lo1 hi1 lo2 hi2 == 0 ∨
  (0 < overlap lo1 hi1 lo2 hi2 ∧ overlap lo1 hi1 lo2 hi2 <= hi1 - lo1 ∧
   overlap lo1 hi1 lo2 hi2 <= hi2 - lo2).
Proof.
  unfold overlap, Exact.max, Exact.min.
  destruct (Exact.ltb hi1 hi2) eqn:E1; destruct (Exact.ltb lo1 lo2) eqn:E2;
    destruct (Exact.ltb 0 _) eqn:E3;
    rewrite ?exact_ltb_lt, ?exact_ltb_ge in *; first [left; lra | right; lra].
Qed.

Lemma interArea_overlap (A B : Box Q) :
  interArea A B = overlap (xmin A) (xmax A) (xmin B) (xmax B)
                  * overlap (ymin A) (ymax A) (ymin B) (ymax B).
Proof. reflexivity. Qed.

(** A positive intersection lies inside both boxes, and both boxes then
    have positive extent along both axes. *)
Lemma interArea_cases (A B : Box Q) :
  interArea A B == 0 ∨
  (0 < interArea A B ∧ interArea A B <= boxArea A ∧ interArea A B <= boxArea B ∧
   0 < ymax A - ymin A ∧ 0 < xmax A - xmin A ∧
   0 < ymax B - ymin B ∧ 0 < xmax B - xmin B).
Proof.
  rewrite interArea_overlap. unfold boxArea. simpl.
  destruct (overlap_cases (xmin A) (xmax A) (xmin B) (xmax B)) as [Hw|(Hw & Hw1 & Hw2)];
    destruct (overlap_cases (ymin A) (ymax A) (ymin B) (ymax B)) as [Hh|(Hh & Hh1 & Hh2)].
  - left. rewrite Hw. ring.
  - left. rewrite Hw. ring.
  - left. rewrite Hh. ring.
  - right. set (w := overlap (xmin A) (xmax A) (xmin B) (xmax B)) in *.
    set (h := overlap (ymin A) (ymax A) (ymin B) (ymax B)) in *.
    repeat split; try lra; try nra.
Qed.

Lemma exact_iou (A B : Box Q) :
  (Qeq_bool (unionArea A B) 0 = false → ¬ unionArea A B == 0) ∧
  0 <= calculateIoU A B <= 1 ∧
  (ymax A <= ymin A ∨ xmax A <= xmin A ∨ ymax B <= ymin B ∨ xmax B <= xmin B →
   calculateIoU A B == 0).
Proof.
  split.
  { intros Hb Heq. apply Qeq_bool_iff in Heq. congruence. }
  rewrite calculateIoU_eq.
  change (eqb (unionArea A B) (num 0)) with (Qeq_bool (unionArea A B) 0).
  change (div (interArea A B) (unionArea A B)) with (interArea A B / unionArea A B).
  change (@num Q _ 0%Z) with 0.
  assert (Hu : unionArea A B == boxArea A + boxArea B - interArea A B) by reflexivity.
  destruct (interArea_cases A B) as [H0|(Hpos & HA & HB & H1 & H2 & H3 & H4)].
  - assert (Hz : (if Qeq_bool (unionArea A B) 0 then 0
                  else interArea A B / unionArea A B) == 0).
    { destruct (Qeq_bool (unionArea A B) 0); [reflexivity|].
      rewrite H0. unfold Qdiv. ring. }
    split; [rewrite Hz; lra|]. intros _. exact Hz.
  - assert (Hup : 0 < unionArea A B) by (rewrite Hu; lra).
    destruct (Qeq_bool (unionArea A B) 0) eqn:E.
    { apply Qeq_bool_iff in E. lra. }
    split.
    + split.
      * apply Qle_shift_div_l; [done|]. lra.
      * apply Qle_shift_div_r; [done|]. rewrite Hu. lra.
    + intros [?|[?|[?|?]]]; lra.
Qed.

End ExactIoU.

(** *** [calculateIoU] on integer boxes, in binary64 *)

Lemma abs_mul_small (u v : Z) :
  Z.abs u ≤ 2 ^ 25 → Z.abs v ≤ 2 ^ 25 → Z.abs (u * v) ≤ 2 ^ 50.
Proof.
  intros Hu Hv. rewrite Z.abs_mul. change (2 ^ 50) with (2 ^ 25 * 2 ^ 25).
  apply Z.mul_le_mono_nonneg; lia.
Qed.

Lemma holds_num0 : holds (num 0) 0.
Proof. apply (holds_zero _ false). by vm_compute. Qed.

Lemma holds_onScale z : onScale z → holds (Float64.ofZ z) z.
Proof. unfold onScale. intros Hz. apply holds_ofZ. lia. Qed.

Lemma holds_extent lo hi :
  onScale lo → onScale hi → holds (sub (Float64.ofZ hi) (Float64.ofZ lo)) (hi - lo).
Proof.
  unfold onScale. intros Hlo Hhi.
  apply holds_sub; [apply holds_ofZ; lia..|lia].
Qed.

Lemma holds_overlap lo1 hi1 lo2 hi2 :
  onScale lo1 → onScale hi1 → onScale lo2 → onScale hi2 →
  holds (Math_max (num 0)
           (sub (Math_min (Float64.ofZ hi1) (Float64.ofZ hi2))
                (Math_max (Float64.ofZ lo1) (Float64.ofZ lo2))))
        (Z.max 0 (Z.min hi1 hi2 - Z.max lo1 lo2)).
Proof.
  intros H1 H2 H3 H4.
  apply holds_max; [apply holds_num0|].
  apply holds_sub.
  - by apply holds_min; apply holds_onScale.
  - by apply holds_max; apply holds_onScale.
  - unfold onScale in *. lia.
Qed.

Lemma overlap_range lo1 hi1 lo2 hi2 :
  onScale lo1 → onScale hi1 → onScale lo2 → onScale hi2 →
  let o := Z.max 0 (Z.min hi1 hi2 - Z.max lo1 lo2) in
  0 ≤ o ≤ 2 ^ 25 ∧ (o ≠ 0 → o ≤ hi1 - lo1 ∧ o ≤ hi2 - lo2) ∧
  Z.abs (hi1 - lo1) ≤ 2 ^ 25 ∧ Z.abs (hi2 - lo2) ≤ 2 ^ 25.
Proof.
  unfold onScale. intros H1 H2 H3 H4. cbv zeta.
  apply Z.abs_le in H1, H2, H3, H4. rewrite !Z.abs_le.
  change (2 ^ 24) with 16777216 in *. change (2 ^ 25) with 33554432.
  lia.
Qed.

Lemma float_iou (a b c d a' b' c' d' : Z) :
  Forall onScale [a; b; c; d; a'; b'; c'; d'] →
  let r := calculateIoU (fbox a b c d) (fbox a' b' c' d') in
  ltb r (num 0) = false ∧ ltb (num 1) r = false ∧ eqb r r = true ∧
  (c ≤ a ∨ d ≤ b ∨ c' ≤ a' ∨ d' ≤ b' → eqb r (num 0) = true).
Proof.
  intros HF r.
  repeat match goal with
         | HF : Forall _ (_ :: _) |- _ => apply Forall_cons in HF as [? HF]
         end.
  clear HF.
  pose proof (holds_overlap b d b' d') as Hox.
  pose proof (holds_overlap a c a' c') as Hoy.
  pose proof (overlap_range b d b' d') as Rx.
  pose proof (overlap_range a c a' c') as Ry.
  pose proof (holds_extent a c) as Hh. pose proof (holds_extent b d) as Hw.
  pose proof (holds_extent a' c') as Hh'. pose proof (holds_extent b' d') as Hw'.
  repeat match goal with
         | H : onScale ?z, G : onScale ?z → _ |- _ => specialize (G H)
         end.
  cbv zeta in Rx, Ry.
  set (ox := Z.max 0 (Z.min d d' - Z.max b b')) in *.
  set (oy := Z.max 0 (Z.min c c' - Z.max a a')) in *.
  clearbody ox oy.
  repeat match goal with H : onScale _ |- _ => clear H end.
  destruct Rx as (Bx & Ex & Bw & Bw'). destruct Ry as (By & Ey & Bh & Bh').
  pose proof (abs_mul_small ox oy ltac:(lia) ltac:(lia)) as BI.
  pose proof (abs_mul_small (c - a) (d - b) Bh Bw) as BA.
  pose proof (abs_mul_small (c' - a') (d' - b') Bh' Bw') as BB.
  set (I := ox * oy) in *.
  set (A := (c - a) * (d - b)) in *. set (B := (c' - a') * (d' - b')) in *.
  assert (P50 : 2 ^ 50 = 1125899906842624) by done.
  assert (P53 : 2 ^ 53 = 9007199254740992) by done.
  assert (HI : holds (interArea (fbox a b c d) (fbox a' b' c' d')) I)
    by (apply holds_mul; [done|done|fold I; lia]).
  assert (HA : holds (boxArea (fbox a b c d)) A)
    by (apply holds_mul; [done|done|fold A; lia]).
  assert (HB : holds (boxArea (fbox a' b' c' d')) B)
    by (apply holds_mul; [done|done|fold B; lia]).
  assert (HU : holds (unionArea (fbox a b c d) (fbox a' b' c' d')) (A + B - I)).
  { apply holds_sub; [apply holds_add; [done|done|lia]|done|lia]. }
  assert (Hg : eqb (unionArea (fbox a b c d) (fbox a' b' c' d')) (num 0) = (A + B - I =? 0))
    by exact (holds_eqb _ _ _ _ HU holds_num0).
  assert (Hz : holds r 0 →
    ltb r (num 0) = false ∧ ltb (num 1) r = false ∧ eqb r r = true ∧
    (c ≤ a ∨ d ≤ b ∨ c' ≤ a' ∨ d' ≤ b' → eqb r (num 0) = true)).
  { intros Hr. destruct (holds_unit r Hr) as (? & ? & ?).
    split; [done|]. split; [done|]. split; [done|]. intros _.
    exact (holds_eqb _ _ _ _ Hr holds_num0). }
  unfold r in *. rewrite calculateIoU_eq, Hg in *.
  destruct (Z.eqb_spec (A + B - I) 0) as [HU0|HU0]; [apply Hz, holds_num0|].
  destruct (Z.eq_dec I 0) as [HI0|HI0].
  { apply Hz. rewrite HI0 in HI. by apply (holds_div_zero _ _ (A + B - I)). }
  assert (Hx0 : ox ≠ 0) by (intros ->; by apply HI0).
  assert (Hy0 : oy ≠ 0) by (intros ->; apply HI0; unfold I; lia).
  specialize (Ex Hx0). specialize (Ey Hy0).
  assert (HIA : I ≤ A).
  { unfold I, A. rewrite (Z.mul_comm ox). apply Z.mul_le_mono_nonneg; lia. }
  assert (HIB : I ≤ B).
  { unfold I, B. rewrite (Z.mul_comm ox). apply Z.mul_le_mono_nonneg; lia. }
  assert (HIp : 0 < I) by (unfold I; apply Z.mul_pos_pos; lia).
  destruct (holds_div_unit _ _ _ _ HI HU) as (? & ? & ?); [lia|lia|].
  split; [done|]. split; [done|]. split; [done|]. lia.
Qed.

(** C8.  [calculateIoU] is its quotient behind the guard: it returns 0
    when [areaA + areaB - interArea] is 0 and divides by it otherwise, so
    the divisor is never zero, in binary64 (no zero of either sign passes the
    guard) as over exact rationals.  In binary64, for every pair of boxes
    with integer coordinates of absolute value at most 2^24 (the detector's
    scale is 0 to 1000): the result is a number, not below 0 and not above
    1, and it [=== 0] when either box has zero or negative height or width.
    Read over exact rationals, for all boxes with rational coordinates: the
    result lies between 0 and 1, and it is 0 when either box has zero or
    negative height or width. *)
Theorem iou_total_bounded :
  (∀ (R : Type) (N : JsNum R) (A B : Box R),
     calculateIoU A B =
       if eqb (unionArea A B) (num 0) then num 0
       else div (interArea A B) (unionArea A B)) ∧
  (∀ (A B : Box float) (s : bool),
     eqb (unionArea A B) (num 0) = false → Prim2SF (unionArea A B) ≠ S754_zero s) ∧
  (∀ a b c d a' b' c' d' : Z,
     Forall onScale [a; b; c; d; a'; b'; c'; d'] →
     let r := calculateIoU (fbox a b c d) (fbox a' b' c' d') in
     ltb r (num 0) = false ∧ ltb (num 1) r = false ∧ eqb r r = true ∧
     (c ≤ a ∨ d ≤ b ∨ c' ≤ a' ∨ d' ≤ b' → eqb r (num 0) = true)) ∧
  (∀ A B : Box Q,
     (Qeq_bool (unionArea A B) 0 = false → ¬ (unionArea A B == 0)%Q) ∧
     (0 <= calculateIoU A B <= 1)%Q ∧
     ((ymax A <= ymin A)%Q ∨ (xmax A <= xmin A)%Q ∨
      (ymax B <= ymin B)%Q ∨ (xmax B <= xmin B)%Q →
      (calculateIoU A B == 0)%Q)).
Proof.
  split; [intros; apply calculateIoU_eq|].
  split; [intros A B s Hne; by apply float_guard_nonzero|].
  split; [exact float_iou|].
  apply exact_iou.
Qed.

(** ** Further properties of the tracker *)

Section TrackerMore.
Context {R : Type} `{JsNum R}.

Abbreviation Det := (DetectionItem R).
Abbreviation Track := (TrackedObject R).

#[local] Arguments matchTrack : simpl never.
#[local] Arguments updateTrack : simpl never.
#[local] Arguments createTrack : simpl never.
#[local] Arguments flagDetection : simpl never.
#[local] Arguments calculateIoU : simpl never.
#[local] Arguments getCentroid : simpl never.
#[local] Arguments laneAfter : simpl never.
#[local] Arguments bestMatch : simpl never.

(** *** Counting the unmatched set *)

Lemma has_elem s i : has s i = true ↔ i ∈ s.
Proof.
  induction s as [|x s IH]; simpl.
  - split; [done|by intros ?%elem_of_nil].
  - rewrite orb_true_iff, Nat.eqb_eq, elem_of_cons, IH.
    split; (intros [->|?]; [by left|by right]).
Qed.

Lemma delete_absent s i : i ∉ s → delete i s = s.
Proof.
  intros Hi. apply filter_all. apply Forall_forall. intros x Hx.
  destruct (Nat.eqb_spec x i) as [->|]; done.
Qed.

Lemma delete_length s i : NoDup s → has s i = true → S (length (delete i s)) = length s.
Proof.
  induction 1 as [|x s Hx Hnd IH]; simpl; [done|].
  destruct (Nat.eqb_spec x i) as [->|Hne]; simpl.
  - intros _. by rewrite delete_absent.
  - intros Hi. f_equal. by apply IH.
Qed.

Lemma delete_NoDup s i : NoDup s → NoDup (delete i s).
Proof.
  induction 1 as [|x s Hx Hnd IH]; simpl; [constructor|].
  destruct (negb (x =? i)%nat); [|done]. constructor; [|done].
  rewrite <- has_elem, has_delete, andb_true_iff, has_elem. tauto.
Qed.

Lemma matchTracks_count vd (dets : list Det) um ts dets' um' ts' :
  NoDup um → Forall (fun t => missingFrames t ≠ 0) ts →
  matchTracks vd (dets, um) ts = ((dets', um'), ts') →
  NoDup um' ∧
  (length (List.filter (fun t => (missingFrames t =? 0)%Z) ts') + length um'
   = length um)%nat.
Proof.
  revert dets um dets' um' ts'.
  induction ts as [|t ts IH]; intros dets um dets' um' ts' Hnd Hmf Hm; simpl in Hm.
  - by injection Hm as <- <- <-.
  - apply Forall_cons in Hmf as [Ht Hmf].
    destruct (matchTrack vd (dets, um) t) as [[dets1 um1] t1] eqn:Hmt.
    destruct (matchTracks vd (dets1, um1) ts) as [[dets2 um2] ts2] eqn:Hrest.
    injection Hm as <- <- <-.
    destruct (matchTrack_cases vd dets um t) as [[_ Hc]|(k & ref & b & _ & _ & (Hk & _) & Hc)];
      rewrite Hc in Hmt; injection Hmt as <- <- <-.
    + destruct (IH _ _ _ _ _ Hnd Hmf Hrest) as [Hnd' Hlen]. split; [done|].
      simpl. destruct (Z.eqb_spec (missingFrames t) 0); [done|]. done.
    + destruct (IH _ _ _ _ _ (delete_NoDup _ k Hnd) Hmf Hrest) as [Hnd' Hlen].
      split; [done|]. simpl. rewrite <- (delete_length um k Hnd Hk). simpl. lia.
Qed.
Lemma matchTracks_NoDup vd (dets : list Det) um ts dets' um' ts' :
  NoDup um → matchTracks vd (dets, um) ts = ((dets', um'), ts') → NoDup um'.
Proof.
  revert dets um dets' um' ts'.
  induction ts as [|t ts IH]; intros dets um dets' um' ts' Hnd Hm; simpl in Hm.
  - by injection Hm as <- <- <-.
  - destruct (matchTrack vd (dets, um) t) as [[d1 u1] t1] eqn:Hmt.
    destruct (matchTracks vd (d1, u1) ts) as [[d2 u2] ts2] eqn:Hrest.
    injection Hm as <- <- <-.
    destruct (matchTrack_cases vd dets um t) as [[_ Hc]|(k & ref & b & _ & _ & _ & Hc)];
      rewrite Hc in Hmt; injection Hmt as <- <- <-.
    + by eapply IH.
    + eapply IH; [|done]. by apply delete_NoDup.
Qed.

(** *** Track creation, in full *)

Lemma createTracks_full vd timestamp (self : ObjectTracker R) (dets : list Det) um self' dets' :
  injective vd → NoDup um → boxed vd dets um →
  createTracks vd timestamp (self, dets) um = (self', dets') →
  ∃ news,
    tracks self' = tracks self ++ news ∧
    nextId self' = nextId self + Z.of_nat (length um) ∧
    length news = length um ∧
    (∀ q k, um !! q = Some k →
       ∃ ref d b,
         vd !! k = Some ref ∧ dets !! ref = Some d ∧ box_2d d = Some b ∧
         news !! q = Some (newTrackOf (nextId self + Z.of_nat q) d b timestamp) ∧
         dets' !! ref
         = Some (setTracking (nextId self + Z.of_nat q) (num 0) Stable d)) ∧
    (∀ ref, (∀ k, has um k = true → vd !! k ≠ Some ref) → dets' !! ref = dets !! ref).
Proof.
  intros Hinj Hnd. revert self dets.
  induction Hnd as [|k um Hk Hnd IH]; intros self dets Hbx Hc.
  - simpl in Hc. injection Hc as <- <-. exists []. rewrite app_nil_r, Z.add_0_r.
    repeat split; try done.
  - unfold createTracks in Hc. simpl in Hc. fold (createTracks vd timestamp) in Hc.
    destruct (Hbx k) as (ref & d & b & Hl & Hd & Hb); [simpl; by rewrite Nat.eqb_refl|].
    unfold createTrack in Hc. rewrite Hl, Hd, Hb in Hc.
    fold (newTrackOf (nextId self) d b timestamp) in Hc.
    assert (Hother : ∀ k', has um k' = true → vd !! k' ≠ Some ref).
    { intros k' Hk' Hl'. assert (k' = k) as -> by (by eapply Hinj).
      by apply has_elem in Hk'. }
    assert (Hbx' : boxed vd (alter (setTracking (nextId self) (num 0) Stable) ref dets) um).
    { apply boxed_alter; [done|]. intros k1 Hk1. apply Hbx. simpl. rewrite Hk1.
      by rewrite orb_true_r. }
    destruct (IH _ _ Hbx' Hc) as (news & E1 & E2 & E3 & E4 & E5). simpl in E1, E2.
    exists (newTrackOf (nextId self) d b timestamp :: news).
    split; [by rewrite E1, <- app_assoc|].
    split; [rewrite E2; simpl length; lia|].
    split; [simpl; by rewrite E3|].
    split.
    + intros [|q] k0 Hq; simpl in Hq.
      * injection Hq as <-. exists ref, d, b. rewrite Z.add_0_r.
        split; [done|]. split; [done|]. split; [done|]. split; [done|].
        rewrite (E5 ref Hother). by rewrite list_lookup_alter_eq, Hd.
      * destruct (E4 q k0 Hq) as (ref0 & d0 & b0 & Hl0 & Hd0 & Hb0 & Hn0 & Hd0').
        assert (ref0 ≠ ref).
        { intros ->. apply (Hother k0); [|done]. apply has_elem. by eapply list_elem_of_lookup_2. }
        rewrite list_lookup_alter_ne in Hd0 by done.
        exists ref0, d0, b0.
        replace (nextId self + Z.of_nat (S q)) with (nextId self + 1 + Z.of_nat q) by lia.
        done.
    + intros ref0 Hr0. rewrite E5.
      * apply list_lookup_alter_ne. intros <-. apply (Hr0 k); [|done].
        simpl. by rewrite Nat.eqb_refl.
      * intros k' Hk'. apply Hr0. simpl. rewrite Hk'. by rewrite orb_true_r.
Qed.

(** *** Steps 1 to 3, in full *)

Lemma trackFrame_created (self : ObjectTracker R) (dets : list Det) timestamp self3 dets3 :
  trackFrame self dets timestamp = (self3, dets3) →
  ∃ dets1 um1 ts1 news,
    matchTracks (validDetections dets) (dets, seq 0 (length (validDetections dets)))
                (map incMissing (tracks self)) = ((dets1, um1), ts1) ∧
    NoDup um1 ∧
    tracks self3 = ts1 ++ news ∧
    nextId self3 = nextId self + Z.of_nat (length um1) ∧
    length news = length um1 ∧
    (∀ q k, um1 !! q = Some k →
       ∃ ref d b,
         validDetections dets !! k = Some ref ∧ dets !! ref = Some d ∧ box_2d d = Some b ∧
         news !! q = Some (newTrackOf (nextId self + Z.of_nat q) d b timestamp) ∧
         dets3 !! ref
         = Some (setTracking (nextId self + Z.of_nat q) (num 0) Stable d)) ∧
    (∀ ref, (∀ k, has um1 k = true → validDetections dets !! k ≠ Some ref) →
            dets3 !! ref = dets1 !! ref).
Proof.
  intros (dets1 & um1 & ts1 & Hm & Hc)%trackFrame_unfold.
  pose proof (validDetections_injective dets) as Hinj.
  destruct (matchTracks_spec _ _ _ _ _ _ _ Hinj Hm) as (I1 & I2 & I3 & I4 & I5).
  pose proof (matchTracks_NoDup _ _ _ _ _ _ _ (NoDup_seq _ _) Hm) as Hnd.
  assert (Hbx : boxed (validDetections dets) dets1 um1).
  { intros k' Hk'. pose proof (I1 k' Hk') as Hk'0. apply has_seq in Hk'0.
    destruct (lookup_lt_is_Some_2 _ _ Hk'0) as [ref' Hl'].
    destruct (validDetections_lookup _ _ _ Hl') as (d' & Hd' & Hv').
    apply isValid_box in Hv' as (_ & b' & Hb').
    exists ref', d', b'. rewrite (I3 k' ref' Hl' Hk'). done. }
  destruct (createTracks_full _ _ _ _ _ _ _ Hinj Hnd Hbx Hc) as (news & E1 & E2 & E3 & E4 & E5).
  exists dets1, um1, ts1, news. simpl in E1, E2.
  split; [done|]. split; [done|]. split; [done|]. split; [done|]. split; [done|].
  split; [|done].
  intros q k Hq. destruct (E4 q k Hq) as (ref & d & b & Hl & Hd & Hb & Hn & Hd3).
  exists ref, d, b. rewrite <- (I3 k ref Hl); [done|].
  apply has_elem. by eapply list_elem_of_lookup_2.
Qed.

Lemma filter_filter_imp {A} (p q : A → bool) (l : list A) :
  (∀ x, p x = true → q x = true) → List.filter p (List.filter q l) = List.filter p l.
Proof.
  intros Hpq. induction l as [|x l IH]; simpl; [done|].
  destruct (q x) eqn:Hq; simpl.
  - by rewrite IH.
  - destruct (p x) eqn:Hp; [|done]. apply Hpq in Hp. congruence.
Qed.

Lemma update_active_count (self : ObjectTracker R) (dets : list Det) timestamp :
  Forall (fun t => 0 ≤ missingFrames t) (tracks self) →
  getActiveTracksCount (fst (update self dets timestamp)) = length (validDetections dets).
Proof.
  intros Hmf. rewrite update_unfold. unfold getActiveTracksCount. simpl.
  destruct (trackFrame self dets timestamp) as [self3 dets3] eqn:Htf. simpl.
  unfold cleanup. rewrite filter_filter_imp.
  2:{ intros t Ht. apply Z.eqb_eq in Ht. rewrite Ht. done. }
  destruct (trackFrame_created _ _ _ _ _ Htf)
    as (dets1 & um1 & ts1 & news & Hm & Hnd & E1 & _ & E3 & E4 & _).
  assert (Haged : Forall (fun t : Track => missingFrames t ≠ 0) (map incMissing (tracks self))).
  { apply Forall_forall. intros t (t0 & -> & Ht0)%list_elem_of_fmap.
    rewrite Forall_forall in Hmf. specialize (Hmf _ Ht0). simpl. lia. }
  destruct (matchTracks_count _ _ _ _ _ _ _ (NoDup_seq _ _) Haged Hm) as [_ Hcount].
  rewrite length_seq in Hcount. rewrite E1, List.filter_app, length_app.
  rewrite (filter_all _ news).
  - lia.
  - apply Forall_forall. intros t [q Hq]%list_elem_of_lookup_1.
    destruct (lookup_lt_is_Some_2 um1 q) as [k Hk].
    { rewrite <- E3. by eapply lookup_lt_Some. }
    destruct (E4 q k Hk) as (ref & d & b & _ & _ & _ & Hn & _).
    rewrite Hq in Hn. by injection Hn as ->.
Qed.

(** *** One identity per detection *)

Lemma matchTracks_owner_id vd (dets : list Det) um ts dets' um' ts' k ref d' :
  injective vd →
  matchTracks vd (dets, um) ts = ((dets', um'), ts') →
  vd !! k = Some ref → has um k = true → has um' k = false → dets' !! ref = Some d' →
  ∃ t, t ∈ ts ∧ trackId d' = Some (id t).
Proof.
  intros Hinj Hm Hl Hk Hk' Hd'.
  destruct (matchTracks_spec _ _ _ _ _ _ _ Hinj Hm) as (_ & _ & _ & _ & I5).
  destruct (I5 k Hk Hk') as (p & t & t' & Hp & _ & ref0 & b & d0 & Hl0 & _ & _ & _ & _ & Hd0 & _ & Hid & _).
  assert (ref0 = ref) as -> by congruence. assert (d0 = d') as -> by congruence.
  exists t. split; [by eapply list_elem_of_lookup_2|done].
Qed.

Lemma matchTracks_owner vd (dets : list Det) um ts dets' um' ts' :
  injective vd → NoDup (map id ts) →
  matchTracks vd (dets, um) ts = ((dets', um'), ts') →
  ∀ k1 k2 r1 r2 d1 d2, k1 ≠ k2 →
    vd !! k1 = Some r1 → vd !! k2 = Some r2 →
    has um k1 = true → has um' k1 = false → has um k2 = true → has um' k2 = false →
    dets' !! r1 = Some d1 → dets' !! r2 = Some d2 → trackId d1 ≠ trackId d2.
Proof.
  intros Hinj. revert dets um dets' um' ts'.
  induction ts as [|t ts IH]; intros dets um dets' um' ts' Hids Hm; simpl in Hm.
  - injection Hm as <- <- <-. intros k1 k2 r1 r2 d1 d2 _ _ _ Hk1 Hk1'. congruence.
  - apply NoDup_cons in Hids as [Hid Hids].
    destruct (matchTrack vd (dets, um) t) as [[dets1 um1] t1] eqn:Hmt.
    destruct (matchTracks vd (dets1, um1) ts) as [[dets2 um2] ts2] eqn:Hrest.
    injection Hm as <- <- <-.
    destruct (matchTrack_cases vd dets um t) as [[_ Hc]|(k0 & ref0 & b & _ & Hl0 & _ & Hc)];
      rewrite Hc in Hmt; injection Hmt as <- <- <-; [by eapply IH|].
    destruct (matchTracks_spec _ _ _ _ _ _ _ Hinj Hrest) as (_ & J2 & _).
    assert (Hfirst : ∀ k r d d0, k ≠ k0 → vd !! k = Some r → has um k = true →
              has um2 k = false → dets2 !! r = Some d → dets2 !! ref0 = Some d0 →
              trackId d ≠ trackId d0).
    { intros k r d d0 Hne Hl Hk Hk' Hd Hd0.
      destruct (matchTracks_owner_id _ _ _ _ _ _ _ k r d Hinj Hrest Hl) as (t2 & Ht2 & Hid2);
        [rewrite has_delete, Hk; by destruct (Nat.eqb_spec k k0)|done|done|].
      rewrite (J2 k0 ref0 Hl0) in Hd0 by (rewrite has_delete, Nat.eqb_refl; by rewrite andb_false_r).
      rewrite list_lookup_alter_eq in Hd0.
      destruct (dets !! ref0) as [dd|]; [|done]. injection Hd0 as <-. simpl.
      rewrite Hid2. intros [= Heq]. apply Hid. rewrite <- Heq.
      by apply list_elem_of_fmap_2. }
    intros k1 k2 r1 r2 d1 d2 Hne Hl1 Hl2 Hk1 Hk1' Hk2 Hk2' Hd1 Hd2.
    destruct (decide (k1 = k0)) as [->|Hn1].
    { assert (r1 = ref0) as -> by congruence.
      intros Heq. by eapply (Hfirst k2 r2 d2 d1). }
    destruct (decide (k2 = k0)) as [->|Hn2].
    { assert (r2 = ref0) as -> by congruence. by eapply (Hfirst k1 r1 d1 d2). }
    eapply (IH _ _ _ _ _ Hids Hrest k1 k2); try done.
    + rewrite has_delete, Hk1. by destruct (Nat.eqb_spec k1 k0).
    + rewrite has_delete, Hk2. by destruct (Nat.eqb_spec k2 k0).
Qed.

Lemma trackFrame_distinct (self : ObjectTracker R) (dets : list Det) timestamp self3 dets3
    i j di dj d3i d3j :
  wf self → trackFrame self dets timestamp = (self3, dets3) →
  i ≠ j → dets !! i = Some di → isValid di = true → dets !! j = Some dj → isValid dj = true →
  dets3 !! i = Some d3i → dets3 !! j = Some d3j → trackId d3i ≠ trackId d3j.
Proof.
  intros (Hs & Hok & Hn) Htf Hij Hdi Hvi Hdj Hvj H3i H3j.
  pose proof (validDetections_injective dets) as Hinj.
  destruct (trackFrame_created _ _ _ _ _ Htf)
    as (dets1 & um1 & ts1 & news & Hm & Hnd & E1 & E2 & E3 & E4 & E5).
  destruct (validFrom_complete 0 dets i di Hdi Hvi) as [ki Hki].
  destruct (validFrom_complete 0 dets j dj Hdj Hvj) as [kj Hkj].
  simpl in Hki, Hkj. fold (validDetections dets) in Hki, Hkj.
  assert (Hk : ki ≠ kj) by congruence.
  assert (Hcls : ∀ k ref d3, validDetections dets !! k = Some ref → dets3 !! ref = Some d3 →
            (∃ q, um1 !! q = Some k ∧ trackId d3 = Some (nextId self + Z.of_nat q)) ∨
            (has um1 k = false ∧ dets1 !! ref = Some d3 ∧
             ∃ t, t ∈ tracks self ∧ trackId d3 = Some (id t))).
  { intros k ref d3 Hl Hd3. destruct (has um1 k) eqn:Hum.
    - left. apply has_elem, list_elem_of_lookup_1 in Hum as [q Hq]. exists q. split; [done|].
      destruct (E4 q k Hq) as (ref' & d & b & Hl' & _ & _ & _ & Hd').
      assert (ref' = ref) as -> by congruence. rewrite Hd3 in Hd'. by injection Hd' as ->.
    - right. split; [done|].
      assert (Hd1 : dets1 !! ref = Some d3).
      { rewrite <- (E5 ref); [done|]. intros k' Hk' Hl'.
        assert (k' = k) as -> by (by eapply Hinj). congruence. }
      split; [done|].
      destruct (matchTracks_owner_id _ _ _ _ _ _ _ k ref d3 Hinj Hm Hl) as (t & Ht & Hid);
        [apply has_seq; by eapply lookup_lt_Some|done|done|].
      apply list_elem_of_fmap in Ht as (t0 & -> & Ht0). by exists t0. }
  assert (Hlt : ∀ t, t ∈ tracks self → id t < nextId self).
  { intros t Ht. rewrite Forall_forall in Hok. by destruct (Hok t Ht) as ((_ & ?) & _). }
  destruct (Hcls ki i d3i Hki H3i) as [(qi & Hqi & Ei)|(Hui & H1i & ti & Hti & Ei)];
    destruct (Hcls kj j d3j Hkj H3j) as [(qj & Hqj & Ej)|(Huj & H1j & tj & Htj & Ej)];
    rewrite Ei, Ej.
  - intros [= Heq]. assert (qi = qj) as -> by lia. congruence.
  - intros [= Heq]. specialize (Hlt tj Htj). lia.
  - intros [= Heq]. specialize (Hlt ti Hti). lia.
  - rewrite <- Ei, <- Ej.
    assert (Hids : NoDup (map id (map incMissing (tracks self)))).
    { rewrite <- list_fmap_compose.
      replace (id ∘ incMissing) with (id (R:=R)) by done.
      by apply StronglySorted_lt_NoDup. }
    eapply (matchTracks_owner _ _ _ _ _ _ _ Hinj Hids Hm ki kj i j); try done.
    + apply has_seq. by eapply lookup_lt_Some.
    + apply has_seq. by eapply lookup_lt_Some.
Qed.

(** *** The shape of a stored track *)

Lemma last_snoc_tail {A} (l : list A) (x : A) :
  (2 ≤ length (l ++ [x]))%nat → last (tail (l ++ [x])) = Some x.
Proof.
  destruct l as [|y l]; simpl; [lia|]. intros _. apply last_snoc.
Qed.

Lemma updateTrack_shape (t : Track) (b : Box R) :
  (length (history t) ≤ 10)%nat → trackShape (updateTrack t b).
Proof.
  intros Hlen. unfold trackShape, updateTrack. simpl.
  split; [done|].
  destruct (Nat.ltb_spec 10 (length (history t ++ [getCentroid b]))) as [Hgt|Hle].
  - split; [apply last_snoc_tail; lia|].
    destruct (history t) as [|h0 hs]; simpl in *; rewrite ?length_app in *; simpl in *; lia.
  - split; [apply last_snoc|]. rewrite length_app in *. simpl in *. lia.
Qed.

Lemma incMissing_shape (t : Track) : trackShape t → trackShape (incMissing t).
Proof. done. Qed.

Lemma newTrackOf_shape nid (d : Det) (b : Box R) timestamp :
  trackShape (newTrackOf nid d b timestamp).
Proof. unfold trackShape. simpl. split; [done|]. split; [done|lia]. Qed.

Lemma trackFrame_shape (self : ObjectTracker R) (dets : list Det) timestamp self3 dets3 :
  Forall trackShape (tracks self) →
  trackFrame self dets timestamp = (self3, dets3) →
  Forall trackShape (tracks self3).
Proof.
  intros Hsh Htf.
  pose proof (validDetections_injective dets) as Hinj.
  destruct (trackFrame_created _ _ _ _ _ Htf)
    as (dets1 & um1 & ts1 & news & Hm & Hnd & E1 & E2 & E3 & E4 & E5).
  destruct (matchTracks_spec _ _ _ _ _ _ _ Hinj Hm) as (_ & _ & _ & I4 & _).
  rewrite E1. apply Forall_app. split.
  - apply Forall_forall. intros t' [p Hp]%list_elem_of_lookup_1.
    destruct (Forall2_lookup_r _ _ _ _ _ I4 Hp) as (t & Ht & Hcase).
    apply list_lookup_fmap_Some in Ht as (t0 & -> & Ht0).
    rewrite Forall_forall in Hsh.
    assert (Hs0 : trackShape t0) by (apply Hsh; by eapply list_elem_of_lookup_2).
    destruct Hcase as [->|(k & ref & b & d' & _ & _ & _ & _ & -> & _)].
    + by apply incMissing_shape.
    + apply updateTrack_shape. simpl. destruct Hs0 as (_ & _ & ?). lia.
  - apply Forall_forall. intros t [q Hq]%list_elem_of_lookup_1.
    destruct (lookup_lt_is_Some_2 um1 q) as [k Hk].
    { rewrite <- E3. by eapply lookup_lt_Some. }
    destruct (E4 q k Hk) as (ref & d & b & _ & _ & _ & Hn & _).
    rewrite Hq in Hn. injection Hn as ->. apply newTrackOf_shape.
Qed.

Lemma update_shape (self : ObjectTracker R) (dets : list Det) timestamp :
  Forall trackShape (tracks self) →
  Forall trackShape (tracks (fst (update self dets timestamp))).
Proof.
  intros Hsh. rewrite update_unfold. simpl.
  destruct (trackFrame self dets timestamp) as [self3 dets3] eqn:Htf. simpl.
  apply Forall_filter_bool. by eapply trackFrame_shape.
Qed.

Lemma run_shape (self : ObjectTracker R) frames :
  Forall trackShape (tracks self) → Forall trackShape (tracks (run self frames)).
Proof.
  revert self. induction frames as [|[dets ts] frames IH]; intros self Hsh; [done|].
  simpl. apply IH. by apply update_shape.
Qed.

(** *** The track behind a returned detection *)

Lemma trackFrame_link (self : ObjectTracker R) (dets : list Det) timestamp self3 dets3 i d :
  trackFrame self dets timestamp = (self3, dets3) →
  dets !! i = Some d → isValid d = true →
  ∃ d3 t,
    dets3 !! i = Some d3 ∧ t ∈ tracks self3 ∧ trackId d3 = Some (id t) ∧
    box_2d d3 = Some (box t) ∧ box_2d d = Some (box t) ∧
    estimatedSpeed d3 = Some (speed t) ∧ laneEvent d3 = Some (laneStatus t) ∧
    missingFrames t = 0 ∧ centroid t = getCentroid (box t).
Proof.
  intros Htf Hd Hv.
  pose proof (validDetections_injective dets) as Hinj.
  destruct (trackFrame_created _ _ _ _ _ Htf)
    as (dets1 & um1 & ts1 & news & Hm & Hnd & E1 & E2 & E3 & E4 & E5).
  destruct (matchTracks_spec _ _ _ _ _ _ _ Hinj Hm) as (_ & _ & _ & _ & I5).
  assert (Hev : evolves trackOnly dets dets3).
  { eapply trackFrame_evolves; [done| |done]. by apply Forall_forall. }
  destruct (validFrom_complete 0 dets i d Hd Hv) as [k Hk]. simpl in Hk.
  fold (validDetections dets) in Hk.
  assert (Hk0 : has (seq 0 (length (validDetections dets))) k = true).
  { apply has_seq. by eapply lookup_lt_Some. }
  destruct (has um1 k) eqn:Hum.
  - apply has_elem, list_elem_of_lookup_1 in Hum as [q Hq].
    destruct (E4 q k Hq) as (ref & d0 & b & Hl & Hd0 & Hb & Hn & Hd3).
    assert (ref = i) as -> by congruence. assert (d0 = d) as -> by congruence.
    eexists _, _. split; [exact Hd3|]. split.
    { rewrite E1. apply elem_of_app. right. by eapply list_elem_of_lookup_2. }
    simpl. by rewrite Hb.
  - destruct (I5 k Hk0 Hum)
      as (p & t & t' & Hp & Hp' & ref & b & d' & Hl & _ & _ & _ & -> & Hd' & Hb & ? & ? & ?).
    assert (ref = i) as -> by congruence.
    assert (Hd3 : dets3 !! i = Some d').
    { rewrite E5; [done|]. intros k' Hk' Hl'.
      assert (k' = k) as -> by (by eapply Hinj). congruence. }
    exists d', (updateTrack t b).
    split; [done|]. split.
    { rewrite E1. apply elem_of_app. left. by eapply list_elem_of_lookup_2. }
    split; [done|]. split; [done|]. split; [|done].
    destruct (Forall2_lookup_l _ _ _ _ _ Hev Hd) as (d3' & Hd3' & Hann & _).
    assert (d3' = d') as -> by congruence.
    apply annotated_base in Hann as (_ & _ & _ & _ & Hbox). by rewrite <- Hbox.
Qed.

Lemma update_link (self : ObjectTracker R) (dets : list Det) timestamp i d :
  dets !! i = Some d → isValid d = true →
  ∃ d' t,
    snd (update self dets timestamp) !! i = Some d' ∧
    t ∈ tracks (fst (update self dets timestamp)) ∧ trackId d' = Some (id t) ∧
    box_2d d' = Some (box t) ∧ estimatedSpeed d' = Some (speed t) ∧
    laneEvent d' = Some (laneStatus t) ∧ missingFrames t = 0 ∧
    centroid t = getCentroid (box t).
Proof.
  intros Hd Hv.
  destruct (trackFrame self dets timestamp) as [self3 dets3] eqn:Htf.
  destruct (trackFrame_link _ _ _ _ _ _ _ Htf Hd Hv)
    as (d3 & t & Hd3 & Ht & Hid & Hbox & _ & Hsp & Hlane & Hmf & Hc).
  destruct (update_fields_kept self dets timestamp i d3) as (d' & Hd' & Kb & Ki & Ks & Kl).
  { by rewrite Htf. }
  exists d', t. split; [done|]. split.
  { rewrite update_unfold, Htf. simpl. unfold cleanup.
    apply list_elem_of_In, filter_In. split; [by apply list_elem_of_In|]. by rewrite Hmf. }
  rewrite Kb, Ki, Ks, Kl. done.
Qed.

Lemma update_distinct (self : ObjectTracker R) (dets : list Det) timestamp i j di dj d'i d'j :
  wf self → i ≠ j →
  dets !! i = Some di → isValid di = true → dets !! j = Some dj → isValid dj = true →
  snd (update self dets timestamp) !! i = Some d'i →
  snd (update self dets timestamp) !! j = Some d'j →
  trackId d'i ≠ trackId d'j.
Proof.
  intros Hwf Hij Hdi Hvi Hdj Hvj Hi Hj.
  destruct (trackFrame self dets timestamp) as [self3 dets3] eqn:Htf.
  destruct (update_lookup self dets timestamp i di Hdi) as (d3i & H3i & _ & _ & _).
  destruct (update_lookup self dets timestamp j dj Hdj) as (d3j & H3j & _ & _ & _).
  destruct (update_fields_kept self dets timestamp i d3i H3i) as (xi & Hxi & _ & Ki & _).
  destruct (update_fields_kept self dets timestamp j d3j H3j) as (xj & Hxj & _ & Kj & _).
  assert (xi = d'i) as -> by congruence. assert (xj = d'j) as -> by congruence.
  rewrite Ki, Kj. rewrite Htf in H3i, H3j. simpl in H3i, H3j.
  by eapply (trackFrame_distinct self dets timestamp self3 dets3 i j).
Qed.

(** *** A frame without vehicles *)

Lemma matchTracks_empty (dets : list Det) (ts : list Track) :
  matchTracks [] (dets, []) ts = ((dets, []), ts).
Proof.
  induction ts as [|t ts IH]; simpl; [done|].
  by rewrite IH.
Qed.

Lemma update_quiet (self : ObjectTracker R) (dets : list Det) timestamp :
  validDetections dets = [] →
  update self dets timestamp
  = (mkTracker (cleanup (map incMissing (tracks self))) (nextId self), dets).
Proof.
  intros Hq. unfold update, trackFrame. rewrite Hq. simpl.
  by rewrite matchTracks_empty.
Qed.

Lemma validDetections_nil (dets : list Det) :
  validDetections dets = [] ↔ Forall (fun d => isValid d = false) dets.
Proof.
  split.
  - intros Hq. apply Forall_forall. intros d [i Hi]%list_elem_of_lookup_1.
    destruct (isValid d) eqn:Hv; [|done].
    apply (validDetections_elem dets i d Hi) in Hv. rewrite Hq in Hv.
    by apply elem_of_nil in Hv.
  - intros Hall. destruct (validDetections dets) as [|r vd] eqn:Hvd; [done|].
    destruct (validDetections_lookup dets 0 r) as (d & Hd & Hv); [by rewrite Hvd|].
    rewrite Forall_forall in Hall. rewrite Hall in Hv; [done|].
    by eapply list_elem_of_lookup_2.
Qed.

Lemma run_quiet (self : ObjectTracker R) frames m :
  Forall (fun fr => validDetections (fst fr) = []) frames →
  Forall (fun t => m ≤ missingFrames t) (tracks self) →
  nextId (run self frames) = nextId self ∧
  Forall (fun t => m + Z.of_nat (length frames) ≤ missingFrames t) (tracks (run self frames)) ∧
  (frames ≠ [] → Forall (fun t => missingFrames t ≤ maxMissingFrames) (tracks (run self frames))).
Proof.
  intros Hq. revert self m.
  induction Hq as [|[dets ts] frames Hfr Hq IH]; intros self m Hm.
  - simpl. split; [done|]. split; [|done]. eapply Forall_impl; [done|]. simpl. intros; lia.
  - simpl in *. rewrite (update_quiet self dets ts Hfr). simpl.
    assert (Hm' : Forall (fun t : Track => m + 1 ≤ missingFrames t)
                         (tracks (mkTracker (cleanup (map incMissing (tracks self))) (nextId self)))).
    { simpl. apply Forall_filter_bool. apply Forall_fmap.
      eapply Forall_impl; [done|]. simpl. intros; lia. }
    destruct (IH _ _ Hm') as (I1 & I2 & I3). simpl in I1.
    split; [done|]. split.
    + eapply Forall_impl; [done|]. simpl. intros; lia.
    + intros _. destruct frames as [|fr frames']; [|by apply I3].
      simpl. apply cleanup_bound.
Qed.

(** *** Where a stored track comes from *)

Lemma update_provenance (self : ObjectTracker R) (dets : list Det) timestamp t' :
  t' ∈ tracks (fst (update self dets timestamp)) →
  (∃ t, t ∈ tracks self ∧ id t' = id t ∧ class t' = class t ∧ createdAt t' = createdAt t) ∨
  (∃ q i d,
     id t' = nextId self + Z.of_nat q ∧ dets !! i = Some d ∧ isValid d = true ∧
     t' = newTrackOf (nextId self + Z.of_nat q) d (box t') timestamp ∧
     box_2d d = Some (box t')).
Proof.
  rewrite update_unfold. simpl.
  destruct (trackFrame self dets timestamp) as [self3 dets3] eqn:Htf. simpl.
  intros Ht'. apply list_elem_of_In, filter_In in Ht' as [Ht' _]. apply list_elem_of_In in Ht'.
  pose proof (validDetections_injective dets) as Hinj.
  destruct (trackFrame_created _ _ _ _ _ Htf)
    as (dets1 & um1 & ts1 & news & Hm & Hnd & E1 & E2 & E3 & E4 & E5).
  destruct (matchTracks_spec _ _ _ _ _ _ _ Hinj Hm) as (_ & _ & _ & I4 & _).
  rewrite E1 in Ht'. apply elem_of_app in Ht' as [Ht'|Ht'].
  - left. apply list_elem_of_lookup_1 in Ht' as [p Hp].
    destruct (Forall2_lookup_r _ _ _ _ _ I4 Hp) as (t & Ht & Hcase).
    apply list_lookup_fmap_Some in Ht as (t0 & -> & Ht0).
    exists t0. split; [by eapply list_elem_of_lookup_2|].
    by destruct Hcase as [->|(k & ref & b & d' & _ & _ & _ & _ & -> & _)].
  - right. apply list_elem_of_lookup_1 in Ht' as [q Hq].
    destruct (lookup_lt_is_Some_2 um1 q) as [k Hk].
    { rewrite <- E3. by eapply lookup_lt_Some. }
    destruct (E4 q k Hk) as (ref & d & b & Hl & Hd & Hb & Hn & _).
    rewrite Hq in Hn. injection Hn as ->.
    destruct (validDetections_lookup _ _ _ Hl) as (d0 & Hd0 & Hv0).
    assert (d0 = d) as -> by congruence.
    exists q, ref, d. done.
Qed.

Lemma run_nextId_mono (self : ObjectTracker R) frames :
  wf self → nextId self ≤ nextId (run self frames).
Proof.
  revert self. induction frames as [|[dets ts] frames IH]; intros self Hwf; [done|].
  simpl. etrans; [|apply IH; by apply update_wf].
  by destruct (update_ids self dets ts Hwf).
Qed.

Lemma run_same_track (self : ObjectTracker R) frames (t t' : Track) :
  wf self → t ∈ tracks self → t' ∈ tracks (run self frames) → id t' = id t →
  class t' = class t ∧ createdAt t' = createdAt t.
Proof.
  intros Hwf Ht. revert t'.
  induction frames as [|[dets ts] frames IH] using rev_ind; intros t' Ht' Hid.
  - simpl in Ht'. destruct Hwf as (Hs & _).
    apply StronglySorted_lt_NoDup in Hs.
    apply list_elem_of_lookup_1 in Ht as [p Hp]. apply list_elem_of_lookup_1 in Ht' as [p' Hp'].
    assert (p' = p) as ->.
    { eapply NoDup_lookup; [exact Hs| |]; rewrite list_lookup_fmap.
      - by rewrite Hp'.
      - rewrite Hp. simpl. by rewrite Hid. }
    assert (t' = t) as -> by congruence. done.
  - rewrite run_snoc in Ht'. simpl in Ht'.
    pose proof (run_wf self frames Hwf) as Hwf'.
    destruct (update_provenance _ _ _ _ Ht') as [(t0 & Ht0 & E1 & E2 & E3)|(q & i & d & E1 & _)].
    + destruct (IH t0 Ht0) as [? ?]; [congruence|]. split; congruence.
    + exfalso. pose proof (run_nextId_mono self frames Hwf) as Hmono.
      destruct Hwf as (_ & Hok & _). rewrite Forall_forall in Hok.
      destruct (Hok t Ht) as ((_ & Hlt) & _). lia.
Qed.

(** *** Properties of the store and of the returned detections *)

(** X1. The number of active tracks after a call: in every state reached
    from a fresh tracker, [getActiveTracksCount] after [update] is the number
    of detections of that call that are vehicles and have a box (each of them
    is matched by one track or gets a new one, and every other track has been
    aged). *)
Theorem active_count_is_frame_size (frames : list (list (DetectionItem R) * Z))
    (detections : list (DetectionItem R)) (timestamp : Z) :
  getActiveTracksCount (fst (update (run newTracker frames) detections timestamp))
  = length (List.filter isValid detections).
Proof.
  rewrite update_active_count.
  - unfold validDetections. generalize 0%nat.
    induction detections as [|d ds IH]; intros n; simpl; [done|].
    destruct (isValid d); simpl; by rewrite IH.
  - destruct (run_wf newTracker frames wf_newTracker) as (_ & Hok & _).
    eapply Forall_impl; [exact Hok|]. by intros t (_ & ? & _).
Qed.

(** X2. One identity per detection: in every state reached from a fresh
    tracker, two different vehicle detections (with boxes) of one call are
    returned with different [trackId]s. *)
Theorem frame_ids_distinct (frames : list (list (DetectionItem R) * Z))
    (detections : list (DetectionItem R)) (timestamp : Z) (i j : nat)
    (di dj : DetectionItem R) :
  i ≠ j →
  detections !! i = Some di → isValid di = true →
  detections !! j = Some dj → isValid dj = true →
  ∃ a b,
    trackId <$> snd (update (run newTracker frames) detections timestamp) !! i
      = Some (Some a) ∧
    trackId <$> snd (update (run newTracker frames) detections timestamp) !! j
      = Some (Some b) ∧
    a ≠ b.
Proof.
  intros Hij Hdi Hvi Hdj Hvj.
  pose proof (run_wf newTracker frames wf_newTracker) as Hwf.
  destruct (update_link (run newTracker frames) detections timestamp i di Hdi Hvi)
    as (d'i & ti & Hi & _ & Hidi & _).
  destruct (update_link (run newTracker frames) detections timestamp j dj Hdj Hvj)
    as (d'j & tj & Hj & _ & Hidj & _).
  exists (id ti), (id tj). rewrite Hi, Hj. simpl. rewrite Hidi, Hidj.
  split; [done|]. split; [done|]. intros Heq.
  eapply (update_distinct (run newTracker frames) detections timestamp i j); try done.
  congruence.
Qed.

(** X3. The shape of every stored track, in every state reached from a
    fresh tracker: the centroid is the centroid of the box, the history holds
    at least 1 and at most 10 centroids, and its newest entry is the
    centroid. *)
Theorem track_shape_invariant (frames : list (list (DetectionItem R) * Z)) :
  Forall
    (fun t =>
       centroid t = getCentroid (box t) ∧ last (history t) = Some (centroid t) ∧
       (1 ≤ length (history t) ≤ 10)%nat)
    (tracks (run newTracker frames)).
Proof. apply (run_shape newTracker frames). constructor. Qed.

(** X4. The track behind a returned detection, from any state: every
    vehicle detection that has a box is returned carrying the identity, the
    speed and the lane status of a track that is in the store after the
    call; that track is active ([missingFrames] 0) and its box is the
    detection's box. *)
Theorem detection_track_link (self : ObjectTracker R)
    (detections : list (DetectionItem R)) (timestamp : Z) :
  Forall2
    (fun d d' =>
       isValid d = true →
       ∃ t, t ∈ tracks (fst (update self detections timestamp)) ∧
            trackId d' = Some (id t) ∧ box_2d d = Some (box t) ∧
            box_2d d' = Some (box t) ∧ estimatedSpeed d' = Some (speed t) ∧
            laneEvent d' = Some (laneStatus t) ∧ missingFrames t = 0)
    detections (snd (update self detections timestamp)).
Proof.
  apply Forall2_same_length_lookup_2; [by rewrite update_length|].
  intros i d d' Hd Hd' Hv.
  destruct (update_link self detections timestamp i d Hd Hv)
    as (d'' & t & Hd'' & Ht & Hid & Hbox & Hsp & Hl & Hmf & _).
  assert (d'' = d') as -> by congruence.
  exists t. split; [done|]. split; [done|]. split; [|done].
  assert (Hev : evolves (mkAllowed (fun _ => True) True) detections
                  (snd (update self detections timestamp))).
  { apply update_evolves; [done|done|by apply Forall_forall]. }
  destruct (Forall2_lookup_l _ _ _ _ _ Hev Hd) as (d2 & Hd2 & Hann & _).
  assert (d2 = d') as -> by congruence.
  apply annotated_base in Hann as (_ & _ & _ & _ & Hb). by rewrite <- Hb.
Qed.

(** X5. Frames without vehicles.  From any state, a call whose detections
    hold no vehicle with a box returns them as they are, creates no track and
    ages every stored track by one frame, dropping those beyond 50.  After 51
    such calls in a row on a tracker driven from a fresh one, the store is
    empty, no track is active, and [nextId] is where it was. *)
Theorem quiet_frames :
  (∀ (self : ObjectTracker R) (detections : list (DetectionItem R)) (timestamp : Z),
     Forall (fun d => isValid d = false) detections →
     update self detections timestamp
     = (mkTracker (cleanup (map incMissing (tracks self))) (nextId self), detections)) ∧
  (∀ (before quiet : list (list (DetectionItem R) * Z)),
     Forall (fun fr => Forall (fun d => isValid d = false) (fst fr)) quiet →
     (51 ≤ length quiet)%nat →
     tracks (run (run newTracker before) quiet) = [] ∧
     getActiveTracksCount (run (run newTracker before) quiet) = 0%nat ∧
     nextId (run (run newTracker before) quiet) = nextId (run newTracker before)).
Proof.
  split.
  - intros self detections timestamp Hq. apply update_quiet. by apply validDetections_nil.
  - intros before quiet Hq Hlen.
    destruct (run_wf newTracker before wf_newTracker) as (_ & Hok & _).
    destruct (run_quiet (run newTracker before) quiet 0) as (Hn & Hlo & Hhi).
    { eapply Forall_impl; [exact Hq|]. intros fr Hfr. by apply validDetections_nil. }
    { eapply Forall_impl; [exact Hok|]. by intros t (_ & ? & _). }
    assert (Hemp : tracks (run (run newTracker before) quiet) = []).
    { destruct (tracks (run (run newTracker before) quiet)) as [|t ts] eqn:Hts; [done|].
      exfalso. apply Forall_cons in Hlo as [Hlo _].
      destruct quiet as [|fr quiet']; [simpl in Hlen; lia|].
      specialize (Hhi ltac:(done)). apply Forall_cons in Hhi as [Hhi _].
      unfold maxMissingFrames in Hhi. lia. }
    unfold getActiveTracksCount. rewrite Hemp. done.
Qed.

(** X6. Class and creation time are fixed at creation.  From any state, a
    track in the store after a call is either a track of the store before,
    with the same identity, class and [createdAt], or a track created by this
    call from a vehicle detection that has a box: its class is the
    detection's [object], its box the detection's box, its [createdAt] the
    call's timestamp, and it starts with speed 0, velocity 0 and lane status
    [Stable].  So in states reached from a fresh tracker a track keeps its
    class and [createdAt] for as long as it is stored. *)
Theorem class_and_creation_fixed :
  (∀ (self : ObjectTracker R) (detections : list (DetectionItem R)) (timestamp : Z)
     (t' : TrackedObject R),
     t' ∈ tracks (fst (update self detections timestamp)) →
     (∃ t, t ∈ tracks self ∧ id t' = id t ∧ class t' = class t ∧
           createdAt t' = createdAt t) ∨
     (∃ d, d ∈ detections ∧ isValid d = true ∧ box_2d d = Some (box t') ∧
           nextId self ≤ id t' ∧ class t' = object d ∧ createdAt t' = timestamp ∧
           centroid t' = getCentroid (box t') ∧ history t' = [centroid t'] ∧
           missingFrames t' = 0 ∧ speed t' = num 0 ∧ dy t' = num 0 ∧
           laneStatus t' = Stable)) ∧
  (∀ (frames more : list (list (DetectionItem R) * Z)) (t t' : TrackedObject R),
     t ∈ tracks (run newTracker frames) →
     t' ∈ tracks (run (run newTracker frames) more) →
     id t' = id t →
     class t' = class t ∧ createdAt t' = createdAt t).
Proof.
  split.
  - intros self detections timestamp t' Ht'.
    destruct (update_provenance _ _ _ _ Ht') as [?|(q & i & d & Hid & Hd & Hv & Hnew & Hb)];
      [by left|right].
    exists d. split; [by eapply list_elem_of_lookup_2|]. split; [done|]. split; [done|].
    split; [lia|]. rewrite Hnew. done.
  - intros frames more t t' Ht Ht' Hid.
    by apply (run_same_track (run newTracker frames) more t t' (run_wf _ _ wf_newTracker)).
Qed.

End TrackerMore.

(** Two cars side by side in the first frame of a fresh tracker. *)
Lemma frame_ids_distinct_witness :
  ∃ a b,
    trackId <$> snd (update (run newTracker [])
                       [car (fbox 0 0 10 10); car (fbox 20 20 30 30)] 1) !! 0%nat
      = Some (Some a) ∧
    trackId <$> snd (update (run newTracker [])
                       [car (fbox 0 0 10 10); car (fbox 20 20 30 30)] 1) !! 1%nat
      = Some (Some b) ∧
    a ≠ b.
Proof.
  apply (frame_ids_distinct (R:=float) [] [car (fbox 0 0 10 10); car (fbox 20 20 30 30)] 1
           0%nat 1%nat (car (fbox 0 0 10 10)) (car (fbox 20 20 30 30))).
  - lia.
  - reflexivity.
  - reflexivity.
  - reflexivity.
  - reflexivity.
Defined.

(** ** The first frame *)

Section FirstFrame.
Context {R : Type} `{JsNum R}.

#[local] Arguments flagDetection : simpl never.

Lemma trackOf_elem (ts : list (TrackedObject R)) (d : DetectionItem R) t :
  trackOf ts d = Some t → t ∈ ts.
Proof.
  unfold trackOf. destruct (trackId d) as [tid|]; [|done].
  destruct (tid =? 0); [done|]. intros Hf.
  apply List.find_some in Hf as [Hin _]. by apply list_elem_of_In.
Qed.

Lemma still_tracks_flags (self : ObjectTracker R) (dets : list (DetectionItem R)) timestamp :
  ltb SPEED_LIMIT (num 0) = false →
  ltb (lit (5 # 1000)) (Math_abs (num 0)) = false →
  Forall (fun t => speed t = num 0 ∧ dy t = num 0)
         (tracks (fst (trackFrame self dets timestamp))) →
  Forall2 (fun d d' => isSpeeding d' = isSpeeding d ∧ isWrongWay d' = isWrongWay d)
          dets (snd (update self dets timestamp)).
Proof.
  intros Hlim Hmove Hstill.
  apply Forall2_same_length_lookup_2; [by rewrite update_length|].
  intros i d d' Hd Hd'.
  destruct (update_lookup self dets timestamp i d Hd) as (d3 & _ & Hann & _ & Hout).
  rewrite Hd' in Hout. injection Hout as ->.
  destruct (isValid d); [|done].
  apply annotated_trackOnly_flags in Hann as [Hs Hw].
  destruct (flagDetection_fields (tracks (fst (trackFrame self dets timestamp)))
              (dominantFlow (tracks (fst (trackFrame self dets timestamp)))) d3)
    as (_ & _ & _ & Fs & Fw).
  rewrite Fs, Fw, Hs, Hw. unfold speedViolation, wrongWayViolation.
  destruct (trackOf _ d3) as [t|] eqn:Ht; [|done].
  apply trackOf_elem in Ht. rewrite Forall_forall in Hstill.
  destruct (Hstill t Ht) as [Hsp Hdy].
  unfold isOpposite. rewrite Hsp, Hdy, Hlim, Hmove. by rewrite andb_false_r.
Qed.

Lemma first_frame_still (self : ObjectTracker R) (dets : list (DetectionItem R)) timestamp :
  tracks self = [] →
  Forall (fun t => speed t = num 0 ∧ dy t = num 0)
         (tracks (fst (trackFrame self dets timestamp))).
Proof.
  intros Hemp. destruct (trackFrame self dets timestamp) as [self3 dets3] eqn:Htf. simpl.
  destruct (trackFrame_tracks _ _ _ _ _ Htf) as (ts1 & news & E1 & _ & E3 & E4).
  rewrite Hemp in E3. apply Forall2_nil_inv_l in E3 as ->. simpl in E1. rewrite E1.
  apply Forall_forall. intros t [q Hq]%list_elem_of_lookup_1.
  by destruct (E4 q t Hq) as (_ & _ & _ & ? & ?).
Qed.

End FirstFrame.

(** X7. No violation is flagged on a first frame.  In binary64 as over
    exact rationals, a call on a tracker with an empty store (fresh, or just
    reset) returns every detection with the [isSpeeding] and [isWrongWay] it
    came with: the tracks it creates have speed 0 and velocity 0, which are
    below both thresholds. *)
Theorem first_frame_flags_nothing :
  (∀ (self : ObjectTracker float) (detections : list (DetectionItem float)) (timestamp : Z),
     Forall2 (fun d d' => isSpeeding d' = isSpeeding d ∧ isWrongWay d' = isWrongWay d)
             detections (snd (update (reset self) detections timestamp))) ∧
  (∀ (self : ObjectTracker Q) (detections : list (DetectionItem Q)) (timestamp : Z),
     Forall2 (fun d d' => isSpeeding d' = isSpeeding d ∧ isWrongWay d' = isWrongWay d)
             detections (snd (update (reset self) detections timestamp))).
Proof.
  split; intros self detections timestamp.
  - apply still_tracks_flags; [by vm_compute|by vm_compute|by apply first_frame_still].
  - apply still_tracks_flags; [by vm_compute|by vm_compute|by apply first_frame_still].
Qed.

(** ** The timestamp *)

Section Timestamp.
Context {R : Type} `{JsNum R}.

Abbreviation Det := (DetectionItem R).
Abbreviation Track := (TrackedObject R).

#[local] Arguments matchTrack : simpl never.
#[local] Arguments createTrack : simpl never.
#[local] Arguments calculateIoU : simpl never.
#[local] Arguments getCentroid : simpl never.
#[local] Arguments laneAfter : simpl never.

Lemma scanDets_withCreatedAt c (dets : list Det) um (t : Track) index vd best :
  scanDets dets um (withCreatedAt c t) index vd best = scanDets dets um t index vd best.
Proof.
  revert index best. induction vd as [|ref vd IH]; intros index best; simpl; [done|].
  by rewrite IH.
Qed.

Lemma matchTrack_withCreatedAt c vd (st : list Det * list nat) (t : Track) :
  matchTrack vd st (withCreatedAt c t)
  = (fst (matchTrack vd st t), withCreatedAt c (snd (matchTrack vd st t))).
Proof.
  destruct st as [dets um]. unfold matchTrack, bestMatch.
  rewrite scanDets_withCreatedAt.
  destruct (fst (scanDets dets um t 0 vd (None, num 0))) as [k|]; [|done].
  destruct (vd !! k) as [ref|]; [|done].
  destruct (dets !! ref) as [m|]; [|done].
  destruct (box_2d m) as [b|]; done.
Qed.

Lemma matchTracks_withCreatedAt c vd (st : list Det * list nat) (ts : list Track) :
  matchTracks vd st (map (withCreatedAt c) ts)
  = (fst (matchTracks vd st ts), map (withCreatedAt c) (snd (matchTracks vd st ts))).
Proof.
  revert st. induction ts as [|t ts IH]; intros st; simpl; [done|].
  rewrite matchTrack_withCreatedAt.
  destruct (matchTrack vd st t) as [st1 t1]. simpl. rewrite IH.
  by destruct (matchTracks vd st1 ts) as [st2 ts2].
Qed.

Lemma createTracks_withCreatedAt vd t1 (self : ObjectTracker R) (dets : list Det) um :
  createTracks vd 0 (forgetCreatedAt self, dets) um
  = (forgetCreatedAt (fst (createTracks vd t1 (self, dets) um)),
     snd (createTracks vd t1 (self, dets) um)).
Proof.
  revert self dets. induction um as [|k um IH]; intros self dets; [done|].
  unfold createTracks in *. simpl.
  assert (Hstep : createTrack vd 0 (forgetCreatedAt self, dets) k
                  = (forgetCreatedAt (fst (createTrack vd t1 (self, dets) k)),
                     snd (createTrack vd t1 (self, dets) k))).
  { unfold createTrack. destruct (vd !! k) as [ref|]; [|done].
    destruct (dets !! ref) as [d|]; [|done].
    destruct (box_2d d) as [b|]; [|done].
    unfold forgetCreatedAt. simpl. by rewrite map_app. }
  rewrite Hstep. destruct (createTrack vd t1 (self, dets) k) as [self1 dets1]. simpl.
  apply IH.
Qed.

Lemma trackFrame_withCreatedAt (self : ObjectTracker R) (dets : list Det) t1 :
  trackFrame (forgetCreatedAt self) dets 0
  = (forgetCreatedAt (fst (trackFrame self dets t1)), snd (trackFrame self dets t1)).
Proof.
  unfold trackFrame. simpl.
  replace (map incMissing (map (withCreatedAt 0) (tracks self)))
    with (map (withCreatedAt 0) (map incMissing (tracks self)))
    by (rewrite <- !list_fmap_compose; done).
  rewrite matchTracks_withCreatedAt.
  destruct (matchTracks _ _ (map incMissing (tracks self))) as [[dets1 um1] ts1]. simpl.
  apply (createTracks_withCreatedAt _ t1 (mkTracker ts1 (nextId self))).
Qed.

Lemma activeMovingTracks_withCreatedAt c (ts : list Track) :
  activeMovingTracks (map (withCreatedAt c) ts) = map (withCreatedAt c) (activeMovingTracks ts).
Proof.
  unfold activeMovingTracks. induction ts as [|t ts IH]; simpl; [done|].
  destruct (_ && _); simpl; by rewrite IH.
Qed.

Lemma dominantFlow_withCreatedAt c (ts : list Track) :
  dominantFlow (map (withCreatedAt c) ts) = dominantFlow ts.
Proof.
  unfold dominantFlow. rewrite activeMovingTracks_withCreatedAt, length_map.
  destruct (0 <? length (activeMovingTracks ts))%nat; [|done]. f_equal.
  generalize (num (R:=R) 0). induction (activeMovingTracks ts) as [|t l IH]; intros a; [done|].
  simpl. apply IH.
Qed.

Lemma trackOf_withCreatedAt c (ts : list Track) (d : Det) :
  trackOf (map (withCreatedAt c) ts) d = withCreatedAt c <$> trackOf ts d.
Proof.
  unfold trackOf. destruct (trackId d) as [tid|]; [|done].
  destruct (tid =? 0); [done|].
  induction ts as [|t ts IH]; simpl; [done|]. by destruct (id t =? tid).
Qed.

Lemma flagDetections_withCreatedAt c (ts : list Track) flow vd (dets : list Det) :
  flagDetections (map (withCreatedAt c) ts) flow vd dets = flagDetections ts flow vd dets.
Proof.
  unfold flagDetections. revert dets. induction vd as [|ref vd IH]; intros dets; [done|].
  simpl. rewrite IH. f_equal. apply list_alter_ext; [|done]. intros d _.
  unfold flagDetection. rewrite trackOf_withCreatedAt.
  by destruct (trackOf ts d).
Qed.

Lemma cleanup_withCreatedAt c (ts : list Track) :
  cleanup (map (withCreatedAt c) ts) = map (withCreatedAt c) (cleanup ts).
Proof.
  unfold cleanup. induction ts as [|t ts IH]; simpl; [done|].
  destruct (missingFrames t <=? maxMissingFrames); simpl; by rewrite IH.
Qed.

Lemma update_withCreatedAt (self : ObjectTracker R) (dets : list Det) t1 :
  update (forgetCreatedAt self) dets 0
  = (forgetCreatedAt (fst (update self dets t1)), snd (update self dets t1)).
Proof.
  rewrite !update_unfold. rewrite (trackFrame_withCreatedAt self dets t1). simpl.
  rewrite dominantFlow_withCreatedAt, flagDetections_withCreatedAt, cleanup_withCreatedAt.
  done.
Qed.

Lemma run_withCreatedAt (self : ObjectTracker R) frames :
  forgetCreatedAt (run self frames)
  = run (forgetCreatedAt self) (map (fun fr => (fst fr, 0)) frames).
Proof.
  revert self. induction frames as [|[dets t1] frames IH]; intros self; [done|].
  simpl. rewrite IH. f_equal. by rewrite (update_withCreatedAt self dets t1).
Qed.

End Timestamp.

(** X8. The timestamp is only ever stored.  Whatever the arithmetic, the
    timestamp passed to [update] reaches nothing but the [createdAt] of the
    tracks created by that call, and [createdAt] is never read: two runs from
    the same state over the same detections, with any timestamps, end in
    stores that agree on everything except [createdAt] and in the same
    [nextId], and a further call returns the same detections in both. *)
Theorem timestamp_only_stored :
  ∀ (R : Type) (N : JsNum R) (self : ObjectTracker R)
    (frames : list (list (DetectionItem R) * (Z * Z)))
    (detections : list (DetectionItem R)) (t1 t2 : Z),
    let s1 := run self (map (fun f => (fst f, fst (snd f))) frames) in
    let s2 := run self (map (fun f => (fst f, snd (snd f))) frames) in
    nextId s1 = nextId s2 ∧
    map (withCreatedAt 0) (tracks s1) = map (withCreatedAt 0) (tracks s2) ∧
    snd (update s1 detections t1) = snd (update s2 detections t2) ∧
    map (withCreatedAt 0) (tracks (fst (update s1 detections t1)))
    = map (withCreatedAt 0) (tracks (fst (update s2 detections t2))).
Proof.
  intros R N self frames detections t1 t2 s1 s2.
  assert (Hs : forgetCreatedAt s1 = forgetCreatedAt s2).
  { unfold s1, s2. rewrite !run_withCreatedAt. f_equal.
    rewrite <- !list_fmap_compose. done. }
  pose proof (update_withCreatedAt s1 detections t1) as H1.
  pose proof (update_withCreatedAt s2 detections t2) as H2.
  rewrite Hs in H1. rewrite H1 in H2. injection H2 as H2a H2b H2c.
  injection Hs as Hsa Hsb.
  done.
Qed.

(** ** The tracking step of [processImage] *)

Section ProcessImageFacts.
Context {R : Type} `{JsNum R}.
Variable Number_toString : R → string.

Abbreviation Det := (DetectionItem R).

Lemma newViolations_flat_map (ds : list Det) :
  newViolations Number_toString ds = flat_map (violationsOf Number_toString) ds.
Proof.
  unfold newViolations.
  assert (Hg : ∀ acc,
    fold_left
      (fun acc d =>
         let acc1 := if truthy (isSpeeding d)
                     then acc ++ [speedingViolation Number_toString d] else acc in
         if truthy (isWrongWay d) then acc1 ++ [wrongLaneViolation d] else acc1)
      ds acc = acc ++ flat_map (violationsOf Number_toString) ds).
  { induction ds as [|d ds IH]; intros acc; simpl; [by rewrite app_nil_r|].
    rewrite IH. unfold violationsOf.
    destruct (truthy (isSpeeding d)), (truthy (isWrongWay d)); simpl;
      by rewrite <- ?app_assoc. }
  apply (Hg []).
Qed.

Lemma processImage_track_unfold (tracker : ObjectTracker R) (data : FullAnalysisResult R) :
  processImage_track Number_toString tracker data =
  (fst (update tracker (detections data) (timestamp data)),
   mkResult (timestamp data) (snd (update tracker (detections data) (timestamp data)))
     (setDetectedViolations (analysis data)
        (detectedViolations (analysis data)
           ++ newViolations Number_toString
                (snd (update tracker (detections data) (timestamp data)))))
     (report data) (locationContext data)).
Proof.
  unfold processImage_track.
  destruct (update tracker (detections data) (timestamp data)) as [tracker' tracked]. simpl.
  destruct (newViolations Number_toString tracked) as [|v vs] eqn:Hn; simpl; [|done].
  rewrite app_nil_r. by destruct (analysis data).
Qed.

Lemma violationsOf_kinds (d : Det) :
  Forall (fun v => severity v = High ∧ (vtype v = Speeding ∨ vtype v = WrongLane))
         (violationsOf Number_toString d) ∧
  length (violationsOf Number_toString d)
  = ((if truthy (isSpeeding d) then 1 else 0) + (if truthy (isWrongWay d) then 1 else 0))%nat.
Proof.
  unfold violationsOf.
  destruct (truthy (isSpeeding d)), (truthy (isWrongWay d)); simpl;
    (split; [|done]); repeat (apply Forall_cons; split; [simpl; auto|]); constructor.
Qed.

Lemma flat_map_violations (ds : list Det) :
  Forall (fun v => severity v = High ∧ (vtype v = Speeding ∨ vtype v = WrongLane))
         (flat_map (violationsOf Number_toString) ds) ∧
  length (flat_map (violationsOf Number_toString) ds)
  = (length (List.filter (fun d => truthy (isSpeeding d)) ds)
     + length (List.filter (fun d => truthy (isWrongWay d)) ds))%nat.
Proof.
  induction ds as [|d ds [IH1 IH2]]; simpl; [by split|].
  destruct (violationsOf_kinds d) as [K1 K2]. split.
  - apply Forall_app. by split.
  - rewrite length_app, K2, IH2.
    destruct (truthy (isSpeeding d)), (truthy (isWrongWay d)); simpl; lia.
Qed.

(** X9. The violations [processImage] adds to an analysis result.  The
    tracker is advanced by one [update] on the result's detections and
    timestamp and the result carries the detections returned.  The violations
    already in the result are kept, in order, and followed by the new ones: one
    of type Speeding for every returned detection whose [isSpeeding] is true
    and one of type Wrong Lane for every one whose [isWrongWay] is true, all
    of severity High, in the order of the detections.  Nothing else in the
    result changes. *)
Theorem processImage_merges_violations
    (tracker : ObjectTracker R) (data : FullAnalysisResult R) :
  let out := snd (processImage_track Number_toString tracker data) in
  let new := flat_map (violationsOf Number_toString) (detections out) in
  fst (processImage_track Number_toString tracker data)
  = fst (update tracker (detections data) (timestamp data)) ∧
  detections out = snd (update tracker (detections data) (timestamp data)) ∧
  detectedViolations (analysis out) = detectedViolations (analysis data) ++ new ∧
  Forall (fun v => severity v = High ∧ (vtype v = Speeding ∨ vtype v = WrongLane)) new ∧
  length new
  = (length (List.filter (fun d => truthy (isSpeeding d)) (detections out))
     + length (List.filter (fun d => truthy (isWrongWay d)) (detections out)))%nat ∧
  setDetectedViolations (analysis out) (detectedViolations (analysis data)) = analysis data ∧
  timestamp out = timestamp data ∧ report out = report data ∧
  locationContext out = locationContext data.
Proof.
  cbv zeta. rewrite processImage_track_unfold. simpl.
  rewrite newViolations_flat_map.
  destruct (flat_map_violations (snd (update tracker (detections data) (timestamp data))))
    as [K1 K2].
  repeat split; try done. by destruct (analysis data).
Qed.

(** X10. What a reported violation refers to.  In every state reached from
    a fresh tracker, a detection that [processImage] returns with
    [isSpeeding] true, and that did not come with it, is a vehicle that
    carries a [trackId] of at least 1 and an [estimatedSpeed] above the speed
    limit; one returned with [isWrongWay] true that did not come with it is a
    vehicle that carries a [trackId] of at least 1.  So the text of a
    violation raised by the tracker never shows an undefined identity or
    speed. *)
Theorem reported_violations_are_tracked
    (frames : list (list (DetectionItem R) * Z)) (data : FullAnalysisResult R) :
  Forall2
    (fun d d' =>
       (isSpeeding d ≠ Some true → truthy (isSpeeding d') = true →
        type d = vehicle ∧
        ∃ tid v, trackId d' = Some tid ∧ 1 ≤ tid ∧ estimatedSpeed d' = Some v ∧
                 ltb SPEED_LIMIT v = true) ∧
       (isWrongWay d ≠ Some true → truthy (isWrongWay d') = true →
        type d = vehicle ∧ ∃ tid, trackId d' = Some tid ∧ 1 ≤ tid))
    (detections data)
    (detections (snd (processImage_track Number_toString (run newTracker frames) data))).
Proof.
  rewrite processImage_track_unfold. simpl.
  set (s := run newTracker frames). set (dets := detections data). set (ts := timestamp data).
  pose proof (run_wf newTracker frames wf_newTracker) as Hwf. fold s in Hwf.
  apply Forall2_same_length_lookup_2; [by rewrite update_length|].
  intros i d d' Hd Hd'.
  destruct (isValid d) eqn:Hv.
  - destruct (update_tracked s dets ts i d Hwf Hd Hv)
      as (d'' & t & Hd'' & Ht & _ & _ & Hid & Hsp & _ & _ & Hs & Hw).
    assert (d'' = d') as -> by congruence.
    destruct (trackFrame s dets ts) as [self3 dets3] eqn:Htf. simpl in *.
    destruct (trackFrame_wf _ _ _ _ _ Hwf Htf) as ((_ & Hok & _) & _).
    rewrite Forall_forall in Hok. destruct (Hok t Ht) as ((Hid1 & _) & _).
    apply isValid_box in Hv as [Hty _].
    split.
    + intros Hin Htr. split; [done|]. exists (id t), (speed t).
      rewrite Hs in Htr. destruct (ltb SPEED_LIMIT (speed t)); [done|].
      destruct (isSpeeding d) as [[]|]; done.
    + intros Hin Htr. split; [done|]. by exists (id t).
  - destruct (update_lookup s dets ts i d Hd) as (d3 & _ & _ & _ & Hout).
    rewrite Hd', Hv in Hout. injection Hout as ->.
    split; intros Hin Htr; exfalso.
    + destruct (isSpeeding d) as [[]|]; done.
    + destruct (isWrongWay d) as [[]|]; done.
Qed.

End ProcessImageFacts.

(** X11. The first frame after a reset reports no tracking violation.  In
    binary64, when the detections of an analysis result come without a true
    [isSpeeding] or [isWrongWay], [processImage] on a tracker that was just
    reset leaves the analysis of the result, its list of violations
    included, as it was. *)
Theorem first_frame_reports_nothing (Number_toString : float → string)
    (self : ObjectTracker float) (data : FullAnalysisResult float) :
  Forall (fun d => isSpeeding d ≠ Some true ∧ isWrongWay d ≠ Some true) (detections data) →
  analysis (snd (processImage_track Number_toString (reset self) data)) = analysis data.
Proof.
  intros Hin. rewrite processImage_track_unfold. simpl.
  rewrite newViolations_flat_map.
  assert (Hflags : Forall2 (fun d d' => isSpeeding d' = isSpeeding d ∧ isWrongWay d' = isWrongWay d)
                     (detections data)
                     (snd (update (reset self) (detections data) (timestamp data)))).
  { apply still_tracks_flags; [by vm_compute|by vm_compute|by apply first_frame_still]. }
  assert (Hnone : flat_map (violationsOf Number_toString)
                    (snd (update (reset self) (detections data) (timestamp data))) = []).
  { revert Hin Hflags. generalize (detections data).
    generalize (snd (update (reset self) (detections data) (timestamp data))).
    intros out dets Hin Hflags. induction Hflags as [|d d' ds ds' [Hs Hw] _ IH]; [done|].
    apply Forall_cons in Hin as [[Hds Hdw] Hin]. simpl. rewrite (IH Hin), app_nil_r.
    unfold violationsOf. rewrite Hs, Hw.
    destruct (isSpeeding d) as [[]|], (isWrongWay d) as [[]|]; done. }
  rewrite Hnone, app_nil_r. by destruct (analysis data).
Qed.

(** One car, analysed for the first time. *)
Lemma first_frame_reports_nothing_witness :
  analysis
    (snd (processImage_track (fun _ => EmptyString) (reset newTracker)
            (mkResult 1 [car (fbox 400 400 500 500)]
               (mkAnalysis 1 0 [] (Float64.ofZ 10) FreeFlow (Float64.ofZ 40) [])
               (mkReport "clear" [] (Float64.ofZ 1)) None)))
  = mkAnalysis 1 0 [] (Float64.ofZ 10) FreeFlow (Float64.ofZ 40) [].
Proof.
  apply (first_frame_reports_nothing (fun _ => EmptyString) newTracker
           (mkResult 1 [car (fbox 400 400 500 500)]
              (mkAnalysis 1 0 [] (Float64.ofZ 10) FreeFlow (Float64.ofZ 40) [])
              (mkReport "clear" [] (Float64.ofZ 1)) None)).
  simpl. repeat constructor; discriminate.
Defined.

(** ** More on [calculateIoU] in binary64 *)

(** *** The order of the arguments *)

Lemma SFcompare_antisym (a b : spec_float) :
  SFcompare b a = option_map CompOpp (SFcompare a b).
Proof.
  destruct a as [sa|sa| |sa ma ea], b as [sb|sb| |sb mb eb]; simpl;
    try (by repeat match goal with s : bool |- _ => destruct s end).
  destruct sa, sb; simpl; try done.
  - rewrite (Z.compare_antisym ea eb). destruct (ea ?= eb); simpl; try done.
    by rewrite ZC4, CompOpp_involutive.
  - rewrite (Z.compare_antisym ea eb). destruct (ea ?= eb); simpl; try done.
    by rewrite ZC4.
Qed.

Lemma SFcompare_eq_inv (a b : spec_float) :
  SFcompare a b = Some Eq → a = b ∨ ∃ s s', a = S754_zero s ∧ b = S754_zero s'.
Proof.
  destruct a as [sa|sa| |sa ma ea], b as [sb|sb| |sb mb eb]; simpl;
    try (by repeat match goal with s : bool |- _ => destruct s end).
  - intros _. right. by exists sa, sb.
  - destruct sa, sb; try done; by left.
  - destruct sa, sb; try done; intros [= Hc]; left;
      destruct (Z.compare_spec ea eb) as [->| |]; try done.
    + apply (f_equal CompOpp) in Hc. rewrite CompOpp_involutive in Hc. simpl in Hc.
      change (Pos.compare_cont Eq ma mb) with (ma ?= mb)%positive in Hc.
      apply Pos.compare_eq in Hc. by subst.
    + change (Pos.compare_cont Eq ma mb) with (ma ?= mb)%positive in Hc.
      apply Pos.compare_eq in Hc. by subst.
Qed.

Lemma float_nan_unique (x y : float) :
  PrimFloat.is_nan x = true → PrimFloat.is_nan y = true → x = y.
Proof.
  unfold PrimFloat.is_nan. rewrite !FloatAxioms.eqb_spec. unfold SFeqb.
  intros Hx Hy. apply Prim2SF_inj.
  destruct (Prim2SF x) as [[]|[]| |[] mx ex], (Prim2SF y) as [[]|[]| |[] my ey];
    simpl in *; try done;
    rewrite ?Z.compare_refl in *;
    repeat match goal with
           | H : context [Pos.compare_cont Eq ?m ?m] |- _ =>
               change (Pos.compare_cont Eq m m) with (m ?= m)%positive in H;
               rewrite Pos.compare_refl in H
           end; done.
Qed.

(** How two numbers compare: one is NaN, or they are ordered one way or the
    other, or they are equal (the same number, or two zeros). *)
Lemma float_compare_cases (x y : float) :
  (PrimFloat.is_nan x = true ∨ PrimFloat.is_nan y = true) ∨
  (PrimFloat.is_nan x = false ∧ PrimFloat.is_nan y = false ∧
   ((PrimFloat.ltb x y = true ∧ PrimFloat.ltb y x = false) ∨
    (PrimFloat.ltb x y = false ∧ PrimFloat.ltb y x = true) ∨
    (PrimFloat.ltb x y = false ∧ PrimFloat.ltb y x = false ∧
     (x = y ∨ ∃ s s', Prim2SF x = S754_zero s ∧ Prim2SF y = S754_zero s')))).
Proof.
  unfold PrimFloat.is_nan. rewrite !FloatAxioms.eqb_spec, !FloatAxioms.ltb_spec.
  unfold SFeqb, SFltb.
  pose proof (SFcompare_antisym (Prim2SF x) (Prim2SF y)) as Hxy.
  pose proof (SFcompare_antisym (Prim2SF x) (Prim2SF x)) as Hxx.
  pose proof (SFcompare_antisym (Prim2SF y) (Prim2SF y)) as Hyy.
  pose proof (SFcompare_eq_inv (Prim2SF x) (Prim2SF y)) as Heq.
  destruct (SFcompare (Prim2SF x) (Prim2SF x)) as [[]|] eqn:Cx; simpl in Hxx; try done;
    [|left; by left].
  destruct (SFcompare (Prim2SF y) (Prim2SF y)) as [[]|] eqn:Cy; simpl in Hyy; try done;
    [|left; by right].
  destruct (SFcompare (Prim2SF x) (Prim2SF y)) as [[]|] eqn:Cxy; simpl in Hxy; rewrite Hxy.
  - right. split; [done|]. split; [done|]. right. right.
    split; [done|]. split; [done|].
    destruct (Heq eq_refl) as [E|E]; [left; by apply Prim2SF_inj|by right].
  - right. split; [done|]. split; [done|]. by left.
  - right. split; [done|]. split; [done|]. right. by left.
  - exfalso. clear Heq Hxx Hyy Hxy.
    destruct (Prim2SF x) as [[]|[]| |[] mx ex], (Prim2SF y) as [[]|[]| |[] my ey];
      simpl in *; done.
Qed.

Lemma float_max_comm (x y : float) : Float64.max x y = Float64.max y x.
Proof.
  unfold Float64.max.
  destruct (float_compare_cases x y)
    as [[Hx|Hy]|(Hx & Hy & [[L1 L2]|[[L1 L2]|(L1 & L2 & [->|(s & s' & Zx & Zy)])]])].
  - rewrite Hx. destruct (PrimFloat.is_nan y) eqn:Hy; [by apply float_nan_unique|done].
  - rewrite Hy. destruct (PrimFloat.is_nan x) eqn:Hx; [by apply float_nan_unique|done].
  - by rewrite Hx, Hy, L1, L2.
  - by rewrite Hx, Hy, L1, L2.
  - done.
  - rewrite Hx, Hy, L1, L2. unfold Float64.is_negzero. rewrite Zx, Zy.
    destruct s, s'; try done; apply Prim2SF_inj; congruence.
Qed.

Lemma float_min_comm (x y : float) : Float64.min x y = Float64.min y x.
Proof.
  unfold Float64.min.
  destruct (float_compare_cases x y)
    as [[Hx|Hy]|(Hx & Hy & [[L1 L2]|[[L1 L2]|(L1 & L2 & [->|(s & s' & Zx & Zy)])]])].
  - rewrite Hx. destruct (PrimFloat.is_nan y) eqn:Hy; [by apply float_nan_unique|done].
  - rewrite Hy. destruct (PrimFloat.is_nan x) eqn:Hx; [by apply float_nan_unique|done].
  - by rewrite Hx, Hy, L1, L2.
  - by rewrite Hx, Hy, L1, L2.
  - done.
  - rewrite Hx, Hy, L1, L2. unfold Float64.is_negzero. rewrite Zx, Zy.
    destruct s, s'; try done; apply Prim2SF_inj; congruence.
Qed.

Lemma SFadd_comm (a b : spec_float) : SFadd prec emax a b = SFadd prec emax b a.
Proof.
  destruct a as [sa|sa| |sa ma ea], b as [sb|sb| |sb mb eb]; simpl;
    try (by repeat match goal with s : bool |- _ => destruct s end).
  by rewrite Z.min_comm, Z.add_comm.
Qed.

Lemma float_add_comm (x y : float) : PrimFloat.add x y = PrimFloat.add y x.
Proof.
  apply Prim2SF_inj. rewrite !FloatAxioms.add_spec. apply SFadd_comm.
Qed.

(** X12. [calculateIoU] is symmetric in binary64, for all boxes, whatever
    numbers they hold (NaN, infinities and zeros of either sign included):
    exchanging the two boxes gives the same number. *)
Theorem iou_symmetric (A B : Box float) : calculateIoU A B = calculateIoU B A.
Proof.
  unfold calculateIoU. simpl.
  rewrite (float_max_comm (ymin A) (ymin B)), (float_max_comm (xmin A) (xmin B)).
  rewrite (float_min_comm (ymax A) (ymax B)), (float_min_comm (xmax A) (xmax B)).
  rewrite (float_add_comm
             (PrimFloat.mul (PrimFloat.sub (ymax A) (ymin A)) (PrimFloat.sub (xmax A) (xmin A)))
             (PrimFloat.mul (PrimFloat.sub (ymax B) (ymin B)) (PrimFloat.sub (xmax B) (xmin B)))).
  done.
Qed.

(** *** A box against itself, and boxes that do not overlap *)

Lemma SFdiv_canon_self p :
  Zpos p < 2 ^ 53 →
  SFdiv prec emax (canon false p) (canon false p)
  = S754_finite false 4503599627370496 (-52).
Proof.
  intros Hp. pose proof (digits2_le _ Hp) as Dp.
  unfold canon. cbn [SFdiv xorb].
  set (d := Zpos (digits2_pos p)) in *. set (m := pshift p (53 - d)).
  assert (Dm : Zpos (digits2_pos m) = 53)
    by (unfold m; rewrite digits2_pshift by lia; fold d; lia).
  rewrite div_core by lia.
  replace (d - 53 - (d - 53) - 53) with (-53) by lia.
  rewrite (Z.mul_comm (Zpos m)), Z.div_mul, Z.mod_mul, new_location_zero by done.
  change (2 ^ 53) with (Zpos 9007199254740992).
  destruct (round_aux_54 false 9007199254740992 (-53) loc_Exact) as (q & _ & -> & Hq);
    [done|lia|].
  by rewrite (Hq eq_refl eq_refl).
Qed.

Lemma holds_div_self x y a :
  holds x a → holds y a → 0 < a → PrimFloat.div x y = num 1.
Proof.
  intros Hx Hy Ha. apply Prim2SF_inj. rewrite FloatAxioms.div_spec.
  apply holds_inv in Hx as [[-> _]|(sx & px & -> & Hpx & Hx)]; [lia|].
  apply holds_inv in Hy as [[Hz _]|(sy & py & Hs & Hpy & Hy)]; [by destruct sx|].
  rewrite Hx, Hy. destruct sx, sy; simpl in Hs, Ha; try done.
  injection Hs as <-.
  replace (Prim2SF (num 1)) with (S754_finite false 4503599627370496 (-52)) by (by vm_compute).
  by apply SFdiv_canon_self.
Qed.

Lemma holds_below_threshold r : holds r 0 → ltb iouThreshold r = false.
Proof.
  intros [_ [s Hr]].
  change (PrimFloat.ltb (iouThreshold (R:=float)) r = false).
  rewrite FloatAxioms.ltb_spec, Hr.
  replace (Prim2SF iouThreshold) with (S754_finite false 5404319552844595 (-55))
    by (by vm_compute).
  done.
Qed.

Lemma float_iou_holds (a b c d a' b' c' d' : Z) :
  Forall onScale [a; b; c; d; a'; b'; c'; d'] →
  holds (interArea (fbox a b c d) (fbox a' b' c' d'))
        (Z.max 0 (Z.min d d' - Z.max b b') * Z.max 0 (Z.min c c' - Z.max a a')) ∧
  holds (unionArea (fbox a b c d) (fbox a' b' c' d'))
        ((c - a) * (d - b) + (c' - a') * (d' - b')
         - Z.max 0 (Z.min d d' - Z.max b b') * Z.max 0 (Z.min c c' - Z.max a a')).
Proof.
  intros HF.
  repeat match goal with
         | HF : Forall _ (_ :: _) |- _ => apply Forall_cons in HF as [? HF]
         end.
  clear HF.
  pose proof (holds_overlap b d b' d') as Hox.
  pose proof (holds_overlap a c a' c') as Hoy.
  pose proof (overlap_range b d b' d') as Rx.
  pose proof (overlap_range a c a' c') as Ry.
  pose proof (holds_extent a c) as Hh. pose proof (holds_extent b d) as Hw.
  pose proof (holds_extent a' c') as Hh'. pose proof (holds_extent b' d') as Hw'.
  repeat match goal with
         | H : onScale ?z, G : onScale ?z → _ |- _ => specialize (G H)
         end.
  cbv zeta in Rx, Ry.
  set (ox := Z.max 0 (Z.min d d' - Z.max b b')) in *.
  set (oy := Z.max 0 (Z.min c c' - Z.max a a')) in *.
  clearbody ox oy.
  repeat match goal with H : onScale _ |- _ => clear H end.
  destruct Rx as (Bx & Ex & Bw & Bw'). destruct Ry as (By & Ey & Bh & Bh').
  pose proof (abs_mul_small ox oy ltac:(lia) ltac:(lia)) as BI.
  pose proof (abs_mul_small (c - a) (d - b) Bh Bw) as BA.
  pose proof (abs_mul_small (c' - a') (d' - b') Bh' Bw') as BB.
  set (I := ox * oy) in *.
  set (A := (c - a) * (d - b)) in *. set (B := (c' - a') * (d' - b')) in *.
  assert (P50 : 2 ^ 50 = 1125899906842624) by done.
  assert (P53 : 2 ^ 53 = 9007199254740992) by done.
  assert (HI : holds (interArea (fbox a b c d) (fbox a' b' c' d')) I)
    by (apply holds_mul; [done|done|fold I; lia]).
  assert (HA : holds (boxArea (fbox a b c d)) A)
    by (apply holds_mul; [done|done|fold A; lia]).
  assert (HB : holds (boxArea (fbox a' b' c' d')) B)
    by (apply holds_mul; [done|done|fold B; lia]).
  split; [done|].
  apply holds_sub; [apply holds_add; [done|done|lia]|done|lia].
Qed.

Lemma float_iou_self (a b c d : Z) :
  Forall onScale [a; b; c; d] → a < c → b < d →
  calculateIoU (fbox a b c d) (fbox a b c d) = num 1.
Proof.
  intros HF Hac Hbd.
  destruct (float_iou_holds a b c d a b c d) as [HI HU].
  { repeat match goal with
           | HF : Forall _ (_ :: _) |- _ => apply Forall_cons in HF as [? HF]
           end. by repeat constructor. }
  rewrite !Z.min_id, !Z.max_id in HI, HU.
  rewrite (Z.max_r 0 (d - b)), (Z.max_r 0 (c - a)) in HI, HU by lia.
  replace ((c - a) * (d - b) + (c - a) * (d - b) - (d - b) * (c - a))
    with ((d - b) * (c - a)) in HU by lia.
  assert (Hpos : 0 < (d - b) * (c - a)) by (apply Z.mul_pos_pos; lia).
  rewrite calculateIoU_eq.
  assert (Hg : eqb (unionArea (fbox a b c d) (fbox a b c d)) (num 0)
               = ((d - b) * (c - a) =? 0))
    by exact (holds_eqb _ _ _ _ HU holds_num0).
  rewrite Hg. destruct (Z.eqb_spec ((d - b) * (c - a)) 0); [lia|].
  by apply (holds_div_self _ _ ((d - b) * (c - a))).
Qed.

Lemma float_iou_disjoint (a b c d a' b' c' d' : Z) :
  Forall onScale [a; b; c; d; a'; b'; c'; d'] →
  Z.min c c' ≤ Z.max a a' ∨ Z.min d d' ≤ Z.max b b' →
  eqb (calculateIoU (fbox a b c d) (fbox a' b' c' d')) (num 0) = true ∧
  ltb iouThreshold (calculateIoU (fbox a b c d) (fbox a' b' c' d')) = false.
Proof.
  intros HF Hdis.
  destruct (float_iou_holds a b c d a' b' c' d' HF) as [HI HU].
  assert (HI0 : Z.max 0 (Z.min d d' - Z.max b b') * Z.max 0 (Z.min c c' - Z.max a a') = 0).
  { destruct Hdis as [?|?].
    - rewrite (Z.max_l 0 (Z.min c c' - Z.max a a')) by lia. lia.
    - rewrite (Z.max_l 0 (Z.min d d' - Z.max b b')) by lia. lia. }
  rewrite HI0 in HI, HU.
  assert (Hr : holds (calculateIoU (fbox a b c d) (fbox a' b' c' d')) 0).
  { rewrite calculateIoU_eq.
    set (U := (c - a) * (d - b) + (c' - a') * (d' - b') - 0) in *.
    assert (Hg : eqb (unionArea (fbox a b c d) (fbox a' b' c' d')) (num 0) = (U =? 0))
      by exact (holds_eqb _ _ _ _ HU holds_num0).
    rewrite Hg. destruct (Z.eqb_spec U 0); [apply holds_num0|].
    by apply (holds_div_zero _ _ U). }
  split; [exact (holds_eqb _ _ _ _ Hr holds_num0)|by apply holds_below_threshold].
Qed.

(** X13. A box against itself, and boxes that do not overlap, in binary64,
    for boxes with integer coordinates of absolute value at most 2^24 (the
    detector's scale is 0 to 1000).  The IoU of a box of positive height
    and width with itself is exactly 1.  When the two boxes share no area
    (their extents meet in at most a line along one axis) the result [=== 0],
    and it fails the matching test [iou > iouThreshold]. *)
Theorem iou_self_and_disjoint :
  (∀ a b c d : Z,
     Forall onScale [a; b; c; d] → a < c → b < d →
     calculateIoU (fbox a b c d) (fbox a b c d) = num 1) ∧
  (∀ a b c d a' b' c' d' : Z,
     Forall onScale [a; b; c; d; a'; b'; c'; d'] →
     Z.min c c' ≤ Z.max a a' ∨ Z.min d d' ≤ Z.max b b' →
     eqb (calculateIoU (fbox a b c d) (fbox a' b' c' d')) (num 0) = true ∧
     ltb iouThreshold (calculateIoU (fbox a b c d) (fbox a' b' c' d')) = false).
Proof. split; [exact float_iou_self|exact float_iou_disjoint]. Qed.

(** X14. Matching needs overlap.  From any state, in binary64: across
    steps 1 to 3 of [update] every stored track is either aged by one frame,
    or updated from the box of a detection of this call whose IoU with the
    track's box exceeds [iouThreshold]; and when both boxes have integer
    coordinates of absolute value at most 2^24, the two boxes then overlap
    with positive height and width.  A track is never matched to a detection
    it does not overlap. *)
Theorem match_requires_overlap (self : ObjectTracker float)
    (detections : list (DetectionItem float)) (timestamp : Z) :
  Forall2
    (fun t t1 =>
       t1 = incMissing t ∨
       ∃ d bx,
         d ∈ detections ∧ isValid d = true ∧ box_2d d = Some bx ∧
         t1 = updateTrack (incMissing t) bx ∧
         ltb iouThreshold (calculateIoU (box t) bx) = true ∧
         ∀ a b c d a' b' c' d',
           box t = fbox a b c d → bx = fbox a' b' c' d' →
           Forall onScale [a; b; c; d; a'; b'; c'; d'] →
           Z.max a a' < Z.min c c' ∧ Z.max b b' < Z.min d d')
    (tracks self)
    (take (length (tracks self)) (tracks (fst (trackFrame self detections timestamp)))).
Proof.
  destruct (trackFrame self detections timestamp) as [self3 dets3] eqn:Htf. simpl.
  pose proof (validDetections_injective detections) as Hinj.
  destruct (trackFrame_created _ _ _ _ _ Htf) as (dets1 & um1 & ts1 & news & Hm & _ & E1 & _).
  destruct (matchTracks_spec _ _ _ _ _ _ _ Hinj Hm) as (_ & _ & _ & I4 & _).
  assert (Hev : evolves trackOnly detections dets1).
  { eapply (matchTracks_evolves trackOnly); [done|done| |apply evolves_refl|exact Hm].
    by apply Forall_forall. }
  apply Forall2_fmap_l in I4.
  rewrite E1, (Forall2_length _ _ _ I4), take_app_length.
  eapply Forall2_impl; [exact I4|]. simpl.
  intros t t1 [->|(k & ref & bx & d' & Hl & _ & _ & Hiou & -> & Hd' & Hb' & _)];
    [by left|right].
  destruct (validDetections_lookup _ _ _ Hl) as (d & Hd & Hv).
  destruct (Forall2_lookup_l _ _ _ _ _ Hev Hd) as (d'' & Hd'' & Hann & _).
  assert (d'' = d') as -> by congruence.
  apply annotated_base in Hann as (_ & _ & _ & _ & Hbox).
  exists d, bx. split; [by eapply list_elem_of_lookup_2|].
  split; [done|]. split; [congruence|]. split; [done|]. split; [done|].
  intros a b c d0 a' b' c' d'0 Hbt -> HF.
  change (box (incMissing t)) with (box t) in Hiou. rewrite Hbt in Hiou.
  destruct (Z_lt_ge_dec (Z.max a a') (Z.min c c')) as [Hy|Hy];
    destruct (Z_lt_ge_dec (Z.max b b') (Z.min d0 d'0)) as [Hx|Hx]; try done; exfalso.
  all: destruct (float_iou_disjoint a b c d0 a' b' c' d'0 HF) as [_ Hlow];
    [lia|exact (eq_true_false_abs _ Hiou Hlow)].
Qed.

(** ** [getCentroid] on the detector's scale, in binary64 *)

Lemma rank_ltb (x y : float) kx ky :
  rank x = Some kx → rank y = Some ky → PrimFloat.ltb x y = (kx <? ky).
Proof.
  unfold rank. rewrite FloatAxioms.ltb_spec. unfold SFltb.
  destruct (Prim2SF x) as [sx|sx| |[] mx ex], (Prim2SF y) as [sy|sy| |[] my ey];
    try done; simpl.
  - by intros [= <-] [= <-].
  - intros [= <-]. destruct (_ && _) eqn:Hc; [|done]. intros [= <-].
    apply andb_true_iff in Hc as [_ He%Z.ltb_lt]. symmetry. apply Z.ltb_lt. lia.
  - destruct (_ && _) eqn:Hc; [|done]. intros [= <-] [= <-].
    apply andb_true_iff in Hc as [_ He%Z.ltb_lt]. symmetry. apply Z.ltb_ge. lia.
  - destruct (_ && _) eqn:Hc; [|done]. intros [= <-].
    destruct ((Zpos my <? 2 ^ 53) && (-1100 <? ey)) eqn:Hc'; [|done]. intros [= <-].
    apply andb_true_iff in Hc as [Hm%Z.ltb_lt He%Z.ltb_lt].
    apply andb_true_iff in Hc' as [Hm'%Z.ltb_lt He'%Z.ltb_lt].
    assert (P53 : 2 ^ 53 = 9007199254740992) by done. rewrite P53 in *.
    change (Pos.compare_cont Eq mx my) with (Zpos mx ?= Zpos my).
    destruct (Z.compare_spec ex ey) as [->|Hlt|Hgt].
    + destruct (Z.compare_spec (Zpos mx) (Zpos my)); symmetry;
        [apply Z.ltb_ge|apply Z.ltb_lt|apply Z.ltb_ge]; lia.
    + symmetry. apply Z.ltb_lt. lia.
    + symmetry. apply Z.ltb_ge. lia.
Qed.

Lemma upto_forallb (P : Z → bool) (n : nat) :
  forallb P (map Z.of_nat (seq 0 n)) = true → ∀ s, 0 ≤ s < Z.of_nat n → P s = true.
Proof.
  intros Hall s Hs. rewrite forallb_forall in Hall. apply Hall.
  apply in_map_iff. exists (Z.to_nat s). split; [lia|]. apply in_seq. lia.
Qed.

Lemma centre_table (s : Z) :
  0 ≤ s ≤ 2000 →
  rank (centre s) = Some (centreRank s) ∧
  PrimFloat.ltb (centre s) (num 0) = false ∧ PrimFloat.ltb (num 1) (centre s) = false ∧
  (s < 2000 → centreRank s < centreRank (s + 1)).
Proof.
  intros Hs.
  assert (Hall : forallb
            (fun s => match rank (centre s) with Some _ => true | None => false end
                      && negb (PrimFloat.ltb (centre s) (num 0))
                      && negb (PrimFloat.ltb (num 1) (centre s))
                      && ((s =? 2000) || (centreRank s <? centreRank (s + 1))))
            (map Z.of_nat (seq 0 2001)) = true) by (vm_compute; reflexivity).
  pose proof (upto_forallb _ _ Hall s ltac:(lia)) as Hp. simpl in Hp.
  apply andb_true_iff in Hp as [Hp H4]. apply andb_true_iff in Hp as [Hp H3].
  apply andb_true_iff in Hp as [H1 H2].
  apply negb_true_iff in H2, H3. unfold centreRank.
  destruct (rank (centre s)) as [k|] eqn:Hk; [|done]. simpl.
  split; [done|]. split; [done|]. split; [done|]. intros Hlt.
  apply orb_true_iff in H4 as [H4|H4]; [apply Z.eqb_eq in H4; lia|].
  apply Z.ltb_lt in H4. unfold centreRank in H4. by rewrite Hk in H4.
Qed.

Lemma centreRank_mono (s s' : Z) :
  0 ≤ s → s < s' → s' ≤ 2000 → centreRank s < centreRank s'.
Proof.
  intros H0 Hlt Hle.
  assert (Hg : ∀ n : nat, s + 1 + Z.of_nat n ≤ 2000 →
                          centreRank s < centreRank (s + 1 + Z.of_nat n)).
  { induction n as [|n IH]; intros Hn.
    - rewrite Z.add_0_r. apply centre_table; lia.
    - etrans; [apply IH; lia|].
      replace (s + 1 + Z.of_nat (S n)) with (s + 1 + Z.of_nat n + 1) by lia.
      apply centre_table; lia. }
  replace s' with (s + 1 + Z.of_nat (Z.to_nat (s' - s - 1))) by lia. apply Hg. lia.
Qed.

Lemma centre_ltb (s s' : Z) :
  0 ≤ s ≤ 2000 → 0 ≤ s' ≤ 2000 → PrimFloat.ltb (centre s) (centre s') = (s <? s').
Proof.
  intros Hs Hs'.
  destruct (centre_table s Hs) as (Hr & _). destruct (centre_table s' Hs') as (Hr' & _).
  rewrite (rank_ltb _ _ _ _ Hr Hr').
  destruct (Z.ltb_spec s s') as [Hlt|Hge].
  - apply Z.ltb_lt. apply centreRank_mono; lia.
  - apply Z.ltb_ge. destruct (Z.eq_dec s s') as [->|Hne]; [lia|].
    apply Z.lt_le_incl. apply centreRank_mono; lia.
Qed.

Lemma float_add_ofZ (a c : Z) :
  Z.abs a < 2 ^ 53 → Z.abs c < 2 ^ 53 → Z.abs (a + c) < 2 ^ 53 →
  PrimFloat.add (Float64.ofZ a) (Float64.ofZ c) = Float64.ofZ (a + c).
Proof.
  intros Ha Hc Hac. apply Prim2SF_inj.
  rewrite FloatAxioms.add_spec, !Prim2SF_ofZ by done.
  destruct a as [|pa|pa], c as [|pc|pc]; try done.
  - apply (SFadd_canon false pa false pc); simpl in *; lia.
  - apply (SFadd_canon false pa true pc); simpl in *; lia.
  - apply (SFadd_canon true pa false pc); simpl in *; lia.
  - apply (SFadd_canon true pa true pc); simpl in *; lia.
Qed.

Lemma getCentroid_centre (a b c d : Z) :
  0 ≤ a ≤ 1000 → 0 ≤ b ≤ 1000 → 0 ≤ c ≤ 1000 → 0 ≤ d ≤ 1000 →
  getCentroid (fbox a b c d) = (centre (b + d), centre (a + c)).
Proof.
  intros Ha Hb Hc Hd. unfold getCentroid, centre. simpl.
  assert (P53 : 2 ^ 53 = 9007199254740992) by done.
  rewrite !float_add_ofZ by lia. done.
Qed.

(** X15. Centroids on the detector's scale, in binary64.  For boxes with
    integer coordinates between 0 and 1000, [getCentroid] returns [x] first
    and [y] second, both between 0 and 1, and it keeps the order of boxes: one
    centroid is above another ([y] smaller) exactly when the sum of its box's
    [ymin] and [ymax] is smaller, and likewise for [x]. *)
Theorem centroid_on_scale (a b c d a' b' c' d' : Z) :
  Forall (fun z => 0 ≤ z ≤ 1000) [a; b; c; d; a'; b'; c'; d'] →
  let p := getCentroid (fbox a b c d) in
  let p' := getCentroid (fbox a' b' c' d') in
  ltb (fst p) (num 0) = false ∧ ltb (num 1) (fst p) = false ∧
  ltb (snd p) (num 0) = false ∧ ltb (num 1) (snd p) = false ∧
  ltb (fst p) (fst p') = (b + d <? b' + d') ∧
  ltb (snd p) (snd p') = (a + c <? a' + c').
Proof.
  intros HF.
  repeat match goal with
         | HF : Forall _ (_ :: _) |- _ => apply Forall_cons in HF as [? HF]
         end.
  cbv zeta. rewrite !getCentroid_centre by done. simpl.
  destruct (centre_table (b + d)) as (_ & X1 & X2 & _); [lia|].
  destruct (centre_table (a + c)) as (_ & Y1 & Y2 & _); [lia|].
  split; [done|]. split; [done|]. split; [done|]. split; [done|].
  split; apply centre_ltb; lia.
Qed.

(** The box of the speed example, and the box it moves to. *)
Lemma centroid_on_scale_witness :
  ltb (snd (getCentroid (fbox 400 400 500 500))) (snd (getCentroid (fbox 430 400 530 500)))
  = true.
Proof.
  apply (centroid_on_scale 400 400 500 500 430 400 530 500).
  repeat constructor; lia.
Defined.

(** ** The backend calls *)

Section BackendFacts.
Context {R : Type}.
Variable fetch : ∀ T : Type, Request R → JsError + Response T.

(** X16. How [analyzeTrafficImage] fails.  It posts one request to
    [/api/gemini] of the backend.  It resolves, with the parsed body and
    nothing logged, exactly when [fetch] resolves with an [ok] response whose
    body parses.  In every other case (the request fails, the response is not
    [ok], the body does not parse) it logs the cause once and rejects with the
    one message "Failed to connect to analysis server."; the message
    "Analysis failed: ..." with the status text is only ever logged, never
    what the caller receives. *)
Theorem analyzeTrafficImage_failures (base64Image mimeType : string) :
  let request := analysisRequest base64Image mimeType in
  let outcome := analyzeTrafficImage fetch base64Image mimeType in
  url request = (BACKEND_URL ++ "/api/gemini")%string ∧ method request = "POST"%string ∧
  ((∃ st result,
      fetch (FullAnalysisResult R) request = inr (mkResponse true st (inr result)) ∧
      outcome = ([], inr result)) ∨
   (∃ err,
      outcome = ([("Frontend Error:"%string, err)],
                 inl (mkError "Failed to connect to analysis server.")) ∧
      (fetch (FullAnalysisResult R) request = inl err ∨
       (∃ response,
          fetch (FullAnalysisResult R) request = inr response ∧ ok response = false ∧
          err = mkError ("Analysis failed: " ++ statusText response)) ∨
       (∃ response,
          fetch (FullAnalysisResult R) request = inr response ∧ ok response = true ∧
          json response = inl err)))).
Proof.
  cbv zeta. split; [done|]. split; [done|]. unfold analyzeTrafficImage.
  destruct (fetch (FullAnalysisResult R) (analysisRequest base64Image mimeType))
    as [err|[[] st [err|result]]] eqn:Hf; simpl.
  - right. exists err. split; [done|]. by left.
  - right. exists err. split; [done|]. right. right. by eexists.
  - left. by exists st, result.
  - right. eexists. split; [done|]. right. left. by eexists.
  - right. eexists. split; [done|]. right. left. by eexists.
Qed.

(** X17. [getLocationContext] never rejects.  It posts the coordinates to
    [/api/location] and always resolves: with the parsed body and nothing
    logged when [fetch] resolves with an [ok] response whose body parses, and
    in every other case, after logging the cause once, with a placeholder that
    repeats the coordinates it was given, has the address
    "Location Service Unavailable", no nearby place, and the one influencer
    "Could not load location context". *)
Theorem getLocationContext_never_rejects (lat lng : R) :
  let request := locationRequest lat lng in
  url request = (BACKEND_URL ++ "/api/location")%string ∧
  body request = [("lat"%string, FNumber lat); ("lng"%string, FNumber lng)] ∧
  ∃ log context,
    getLocationContext fetch lat lng = (log, inr context) ∧
    ((log = [] ∧
      ∃ st, fetch (LocationContextData R) request = inr (mkResponse true st (inr context))) ∨
     (∃ err,
        log = [("Location context fetch failed:"%string, err)] ∧
        (fetch (LocationContextData R) request = inl err ∨
         (∃ response,
            fetch (LocationContextData R) request = inr response ∧ ok response = false ∧
            err = mkError "Location lookup failed.") ∨
         (∃ response,
            fetch (LocationContextData R) request = inr response ∧ ok response = true ∧
            json response = inl err)) ∧
        context = mkLocation (Some lat) (Some lng) (Some "Location Service Unavailable"%string)
                             [] ["Could not load location context"%string])).
Proof.
  cbv zeta. split; [done|]. split; [done|]. unfold getLocationContext.
  destruct (fetch (LocationContextData R) (locationRequest lat lng))
    as [err|[[] st [err|context]]] eqn:Hf; simpl.
  - eexists _, _. split; [done|]. right. exists err. split; [done|]. split; [by left|done].
  - eexists _, _. split; [done|]. right. exists err. split; [done|].
    split; [|done]. right. right. by eexists.
  - eexists _, _. split; [done|]. left. split; [done|]. by exists st.
  - eexists _, _. split; [done|]. right. eexists. split; [done|].
    split; [|done]. right. left. by eexists.
  - eexists _, _. split; [done|]. right. eexists. split; [done|].
    split; [|done]. right. left. by eexists.
Qed.

End BackendFacts.

(** ** The dashboard's chart data *)

Section DashboardFacts.
Context {R : Type}.

Abbreviation Det := (DetectionItem R).

Lemma existsb_name (n : string) (l : list string) :
  existsb (String.eqb n) l = true ↔ n ∈ l.
Proof.
  rewrite existsb_exists. split.
  - intros (x & Hx & ->%String.eqb_eq). by apply list_elem_of_In.
  - intros Hn. exists n. split; [by apply list_elem_of_In|apply String.eqb_refl].
Qed.

Lemma firstSeen_elem (seen l : list string) (x : string) :
  x ∈ firstSeen seen l ↔ x ∈ l ∧ x ∉ seen.
Proof.
  revert seen. induction l as [|n l IH]; intros seen; simpl.
  - split; [by intros ?%elem_of_nil|by intros [?%elem_of_nil _]].
  - destruct (existsb (String.eqb n) seen) eqn:Hn.
    + apply existsb_name in Hn. rewrite IH, elem_of_cons. split; [tauto|].
      intros [[->|?] ?]; [done|tauto].
    + assert (Hn' : n ∉ seen) by (rewrite <- existsb_name; congruence).
      rewrite elem_of_cons, IH, elem_of_cons, elem_of_app, list_elem_of_singleton.
      split.
      * intros [->|[? ?]]; [tauto|]. split; [tauto|]. tauto.
      * intros [[->|?] ?]; [by left|].
        destruct (String.eqb_spec x n) as [->|?]; [by left|right]. tauto.
Qed.

Lemma firstSeen_NoDup (seen l : list string) : NoDup (firstSeen seen l).
Proof.
  revert seen. induction l as [|n l IH]; intros seen; simpl; [constructor|].
  destruct (existsb (String.eqb n) seen); [apply IH|].
  constructor; [|apply IH]. rewrite firstSeen_elem, elem_of_app, list_elem_of_singleton. tauto.
Qed.

Lemma firstSeen_snoc (seen l : list string) (n : string) :
  firstSeen seen (l ++ [n])
  = firstSeen seen l ++ (if existsb (String.eqb n) (seen ++ l) then [] else [n]).
Proof.
  revert seen. induction l as [|m l IH]; intros seen; simpl.
  - by rewrite app_nil_r.
  - destruct (existsb (String.eqb m) seen) eqn:Hm.
    + rewrite IH. f_equal.
      assert (He : existsb (String.eqb n) (seen ++ m :: l) = existsb (String.eqb n) (seen ++ l)).
      { apply eq_true_iff_eq. rewrite !existsb_name, !elem_of_app, elem_of_cons.
        apply existsb_name in Hm. split; [|tauto]. intros [?|[->|?]]; tauto. }
      by rewrite He.
    + rewrite IH. simpl. by rewrite <- app_assoc.
Qed.

Lemma findName_None (n : string) (acc : list ChartItem) :
  findName n acc = None → n ∉ map itemName acc.
Proof.
  induction acc as [|item acc IH]; simpl; [by intros _ ?%elem_of_nil|].
  destruct (String.eqb_spec (itemName item) n) as [->|Hne]; [done|].
  destruct (findName n acc); [done|]. intros _ [?|?]%elem_of_cons; [done|by apply IH].
Qed.

Lemma findName_Some (n : string) (acc : list ChartItem) (i : nat) :
  findName n acc = Some i → ∃ item, acc !! i = Some item ∧ itemName item = n.
Proof.
  revert i. induction acc as [|item acc IH]; intros i; simpl; [done|].
  destruct (String.eqb_spec (itemName item) n) as [Heq|Hne].
  - intros [= <-]. by exists item.
  - destruct (findName n acc) as [j|]; [|done]. intros [= <-]. by apply IH.
Qed.

Lemma groupStep_names (acc : list ChartItem) (d : Det) :
  map itemName (groupStep acc d)
  = map itemName acc
    ++ (if existsb (String.eqb (object d)) (map itemName acc) then [] else [object d]).
Proof.
  unfold groupStep. destruct (findName (object d) acc) as [i|] eqn:Hf.
  - destruct (findName_Some _ _ _ Hf) as (item & Hi & Hn).
    assert (Hin : existsb (String.eqb (object d)) (map itemName acc) = true).
    { apply existsb_name. rewrite <- Hn. apply list_elem_of_fmap_2.
      by eapply list_elem_of_lookup_2. }
    rewrite Hin, app_nil_r. apply list_eq. intros j.
    rewrite !list_lookup_fmap. destruct (decide (j = i)) as [->|Hne].
    + rewrite list_lookup_alter_eq. by destruct (acc !! i).
    + by rewrite list_lookup_alter_ne.
  - apply findName_None in Hf.
    assert (Hin : existsb (String.eqb (object d)) (map itemName acc) = false).
    { destruct (existsb _ _) eqn:He; [|done]. by apply existsb_name in He. }
    by rewrite Hin, map_app.
Qed.

Lemma countOf_snoc (n : string) (ds : list Det) (d : Det) :
  countOf n (ds ++ [d]) = countOf n ds + (if String.eqb (object d) n then count d else 0).
Proof.
  unfold countOf. rewrite List.filter_app, map_app, foldr_app. simpl.
  destruct (String.eqb (object d) n); simpl.
  - induction (map count (List.filter _ ds)) as [|x l IH]; simpl; lia.
  - lia.
Qed.

Lemma countOf_absent (n : string) (ds : list Det) :
  n ∉ map object ds → countOf n ds = 0.
Proof.
  unfold countOf. induction ds as [|d ds IH]; simpl; [done|].
  intros Hn. destruct (String.eqb_spec (object d) n) as [<-|Hne].
  - exfalso. apply Hn. by left.
  - apply IH. intros ?. apply Hn. by right.
Qed.

Lemma sum_alter_count (acc : list ChartItem) (i : nat) (item : ChartItem) (c : Z) :
  acc !! i = Some item →
  foldr Z.add 0
    (map itemCount
       (alter (fun existing => mkChartItem (itemName existing) (itemCount existing + c)) i acc))
  = foldr Z.add 0 (map itemCount acc) + c.
Proof.
  revert i. induction acc as [|x acc IH]; intros i Hi; [done|].
  destruct i as [|i]; simpl in *.
  - injection Hi as ->. lia.
  - specialize (IH i Hi). simpl in IH. unfold alter in IH. rewrite IH. lia.
Qed.

Lemma grouped_inv (ds : list Det) :
  map itemName (fold_left groupStep ds []) = firstSeen [] (map object ds) ∧
  Forall (fun item => itemCount item = countOf (itemName item) ds) (fold_left groupStep ds []) ∧
  fold_right Z.add 0 (map itemCount (fold_left groupStep ds [])) = totalCount ds.
Proof.
  induction ds as [|d ds (IHn & IHc & IHt)] using rev_ind; [by repeat split|].
  rewrite fold_left_app. simpl. set (acc := fold_left groupStep ds []) in *.
  assert (Hnd : NoDup (map itemName acc)) by (rewrite IHn; apply firstSeen_NoDup).
  split; [|split].
  - rewrite groupStep_names, map_app. cbn [map]. rewrite firstSeen_snoc, IHn. simpl.
    f_equal.
    assert (He : existsb (String.eqb (object d)) (firstSeen [] (map object ds))
                 = existsb (String.eqb (object d)) (map object ds)).
    { apply eq_true_iff_eq. rewrite !existsb_name, firstSeen_elem.
      split; [tauto|]. intros ?. split; [done|]. by intros ?%elem_of_nil. }
    by rewrite He.
  - unfold groupStep. destruct (findName (object d) acc) as [i|] eqn:Hf.
    + destruct (findName_Some _ _ _ Hf) as (item & Hi & Hn).
      apply Forall_forall. intros it [j Hj]%list_elem_of_lookup_1.
      rewrite Forall_forall in IHc.
      destruct (decide (j = i)) as [->|Hne].
      * rewrite list_lookup_alter_eq, Hi in Hj. injection Hj as <-. simpl.
        rewrite countOf_snoc, Hn, String.eqb_refl, <- Hn.
        rewrite (IHc item); [done|]. by eapply list_elem_of_lookup_2.
      * rewrite list_lookup_alter_ne in Hj by done.
        rewrite countOf_snoc.
        destruct (String.eqb_spec (object d) (itemName it)) as [Heq|?].
        { exfalso. apply Hne. eapply NoDup_lookup; [exact Hnd| |];
            rewrite list_lookup_fmap; [by rewrite Hj|rewrite Hi; simpl; congruence]. }
        rewrite Z.add_0_r. apply IHc. by eapply list_elem_of_lookup_2.
    + apply findName_None in Hf. apply Forall_app. split.
      * rewrite Forall_forall in IHc. apply Forall_forall. intros it Hit.
        rewrite countOf_snoc.
        destruct (String.eqb_spec (object d) (itemName it)) as [Heq|?].
        { exfalso. apply Hf. rewrite Heq. by apply list_elem_of_fmap_2. }
        rewrite Z.add_0_r. by apply IHc.
      * constructor; [|constructor]. simpl.
        rewrite countOf_snoc, String.eqb_refl, countOf_absent; [done|].
        intros Hin. apply Hf. rewrite IHn, firstSeen_elem. split; [done|].
        by intros ?%elem_of_nil.
  - unfold totalCount in *. rewrite map_app, foldr_app. simpl.
    assert (Hsum : ∀ l : list Z, foldr Z.add (count d + 0) l = foldr Z.add 0 l + count d).
    { induction l as [|x l IH]; simpl; lia. }
    rewrite Hsum, <- IHt. unfold groupStep.
    destruct (findName (object d) acc) as [i|] eqn:Hf.
    + destruct (findName_Some _ _ _ Hf) as (item & Hi & _).
      by rewrite (sum_alter_count acc i item (count d) Hi).
    + rewrite map_app, foldr_app. simpl. by rewrite Hsum.
Qed.

(** X18. The chart data of the dashboard groups the vehicles by name.
    [groupedChartData] has one entry per object name among the detections of
    type vehicle, in the order in which the names first appear; the count of
    an entry is the sum of the counts of the vehicle detections with that
    name; and the counts of all entries add up to the sum of the counts of all
    vehicle detections. *)
Theorem groupedChartData_groups (dets : list (DetectionItem R)) :
  NoDup (map itemName (groupedChartData dets)) ∧
  map itemName (groupedChartData dets) = firstSeen [] (map object (vehicleDetections dets)) ∧
  (∀ d, d ∈ dets → type d = vehicle → object d ∈ map itemName (groupedChartData dets)) ∧
  Forall (fun item => itemCount item = countOf (itemName item) (vehicleDetections dets))
         (groupedChartData dets) ∧
  fold_right Z.add 0 (map itemCount (groupedChartData dets))
  = totalCount (vehicleDetections dets).
Proof.
  unfold groupedChartData.
  destruct (grouped_inv (vehicleDetections dets)) as (Hn & Hc & Ht).
  split; [rewrite Hn; apply firstSeen_NoDup|]. split; [done|]. split; [|by split].
  intros d Hd Hty. rewrite Hn, firstSeen_elem. split; [|by intros ?%elem_of_nil].
  apply list_elem_of_fmap_2. unfold vehicleDetections.
  apply list_elem_of_In, filter_In. split; [by apply list_elem_of_In|by rewrite Hty].
Qed.

End DashboardFacts.

(** X19. The tracked panel of the dashboard.  In every state reached from
    a fresh tracker, when the detections of a frame come without a [trackId],
    the detections that [update] returns with a [trackId] (the dashboard's
    [trackedItems]) are exactly the returned vehicle detections that have a
    box, and their number is the tracker's active track count. *)
Theorem tracked_items_are_active (R : Type) (N : JsNum R)
    (frames : list (list (DetectionItem R) * Z))
    (dets : list (DetectionItem R)) (ts : Z) :
  Forall (fun d => trackId d = None) dets →
  trackedItems (snd (update (run newTracker frames) dets ts))
  = List.filter isValid (snd (update (run newTracker frames) dets ts)) ∧
  length (trackedItems (snd (update (run newTracker frames) dets ts)))
  = getActiveTracksCount (fst (update (run newTracker frames) dets ts)).
Proof.
  intros Hnone. set (s := run newTracker frames).
  assert (Hrel : Forall2 (fun d d' => isValid d' = isValid d ∧
                            match trackId d' with Some _ => true | None => false end = isValid d)
                   dets (snd (update s dets ts))).
  { apply Forall2_same_length_lookup_2; [by rewrite update_length|].
    intros i d d' Hd Hd'.
    assert (Hev : evolves (mkAllowed (fun _ => True) True) dets (snd (update s dets ts))).
    { apply update_evolves; [done|done|by apply Forall_forall]. }
    destruct (Forall2_lookup_l _ _ _ _ _ Hev Hd) as (d2 & Hd2 & Hann & Hinv).
    assert (d2 = d') as -> by congruence.
    apply annotated_base in Hann as (_ & _ & _ & Hty & Hbox).
    split; [unfold isValid; by rewrite Hty, Hbox|].
    destruct (isValid d) eqn:Hv.
    - destruct (update_link s dets ts i d Hd Hv) as (d'' & t & Hd'' & _ & Hid & _).
      assert (d'' = d') as -> by congruence. by rewrite Hid.
    - rewrite (Hinv eq_refl). rewrite Forall_forall in Hnone.
      rewrite (Hnone d); [done|]. by eapply list_elem_of_lookup_2. }
  clear Hnone.
  assert (Heq : trackedItems (snd (update s dets ts))
                = List.filter isValid (snd (update s dets ts))).
  { unfold trackedItems. induction Hrel as [|d d' ds ds' [H1 H2] _ IH]; [done|].
    simpl. rewrite H1, H2, IH. done. }
  split; [done|]. rewrite Heq.
  rewrite update_active_count.
  - clear Heq. unfold validDetections. generalize 0%nat.
    induction Hrel as [|d d' ds ds' [H1 H2] _ IH]; intros n; [done|].
    simpl. rewrite H1. destruct (isValid d); simpl; by rewrite (IH (S n)).
  - destruct (run_wf newTracker frames wf_newTracker) as (_ & Hok & _).
    eapply Forall_impl; [exact Hok|]. by intros t (_ & ? & _).
Qed.

(** One car and one pedestrian in the first frame of a fresh tracker. *)
Lemma tracked_items_are_active_witness :
  length (trackedItems
            (snd (update (run newTracker [])
                    [car (fbox 400 400 500 500);
                     mkDet "person" 1 (Float64.lit (8 # 10)) pedestrian
                           (Some (fbox 0 0 50 20)) None None None None None] 1)))
  = getActiveTracksCount
      (fst (update (run newTracker [])
              [car (fbox 400 400 500 500);
               mkDet "person" 1 (Float64.lit (8 # 10)) pedestrian
                     (Some (fbox 0 0 50 20)) None None None None None] 1)).
Proof.
  apply (tracked_items_are_active float _ []
           [car (fbox 400 400 500 500);
            mkDet "person" 1 (Float64.lit (8 # 10)) pedestrian
                  (Some (fbox 0 0 50 20)) None None None None None] 1).
  repeat constructor.
Defined.

(** ** Tracks that are not matched *)

Section Retention.
Context {R : Type} `{JsNum R}.

Abbreviation Det := (DetectionItem R).
Abbreviation Track := (TrackedObject R).

#[local] Arguments matchTrack : simpl never.
#[local] Arguments bestMatch : simpl never.

Lemma matchTracks_unmatched_same vd (st : list Det * list nat) (ts : list Track) st' ts' :
  matchTracks vd st ts = (st', ts') →
  ∀ p t, ts !! p = Some t → foundMatch vd st ts !! p = Some false → ts' !! p = Some t.
Proof.
  revert st st' ts'. induction ts as [|t0 ts IH]; intros st st' ts' Hm p t Hp Hf; [done|].
  simpl in Hm, Hf. destruct st as [dets um].
  destruct (matchTrack vd (dets, um) t0) as [st1 t1] eqn:Ht.
  destruct (matchTracks vd st1 ts) as [st2 ts2] eqn:Hts. injection Hm as <- <-.
  destruct p as [|p]; simpl in *.
  - injection Hp as ->. injection Hf as Hf.
    destruct (matchTrack_cases vd dets um t) as [[_ Hc]|(k & ref & b & Hb & _)].
    + rewrite Hc in Ht. by injection Ht as <- <-.
    + by rewrite Hb in Hf.
  - by eapply IH.
Qed.

Lemma update_unmatched_kept (self : ObjectTracker R) (dets : list Det) timestamp (t : Track) :
  t ∈ tracks self → matchesNone (id t) self dets = true →
  missingFrames t + 1 ≤ maxMissingFrames →
  incMissing t ∈ tracks (fst (update self dets timestamp)).
Proof.
  intros [p Hp]%list_elem_of_lookup_1 Hnone Hmf.
  rewrite update_unfold. simpl. unfold cleanup.
  apply list_elem_of_In, filter_In. split; [|simpl; by apply Z.leb_le].
  apply list_elem_of_In.
  destruct (trackFrame_unfold self dets timestamp _ _ (surjective_pairing _))
    as (dets1 & um1 & ts1 & Hm & Hc).
  pose proof (validDetections_injective dets) as Hinj.
  destruct (createTracks_spec _ _ _ _ _ _ _ Hinj Hc) as (news & E1 & _).
  rewrite E1. simpl. apply elem_of_app. left.
  assert (Hp' : map incMissing (tracks self) !! p = Some (incMissing t))
    by (by rewrite list_lookup_fmap, Hp).
  destruct (matchTracks_flags _ _ _ _ _ Hm p _ Hp') as (m & t' & Hfm & _).
  assert (m = false) as ->.
  { eapply (noMatchFor_lookup (id t) (tracks self)); [exact Hnone|exact Hp| |done].
    exact Hfm. }
  eapply list_elem_of_lookup_2. by eapply matchTracks_unmatched_same.
Qed.

Lemma run_unmatched_kept (self : ObjectTracker R) frames (t : Track) :
  t ∈ tracks self → neverMatched (id t) self frames = true →
  missingFrames t + Z.of_nat (length frames) ≤ maxMissingFrames →
  ageBy (Z.of_nat (length frames)) t ∈ tracks (run self frames).
Proof.
  revert self t. induction frames as [|[dets ts] frames IH]; intros self t Ht Hn Hmf.
  - assert (E : ageBy (Z.of_nat (length (A:=list Det * Z) [])) t = t)
      by (destruct t; unfold ageBy; simpl; f_equal; lia).
    by rewrite E.
  - simpl in Hn. apply andb_true_iff in Hn as [Hnow Hrest].
    change (run self ((dets, ts) :: frames))
      with (run (fst (update self dets ts)) frames).
    assert (E : ageBy (Z.of_nat (length ((dets, ts) :: frames))) t
                = ageBy (Z.of_nat (length frames)) (incMissing t))
      by (unfold ageBy; simpl length; simpl; f_equal; lia).
    rewrite E. apply IH.
    + apply update_unmatched_kept; [done|done|]. simpl length in Hmf. lia.
    + done.
    + simpl. simpl length in Hmf. lia.
Qed.

(** X20. An unmatched track is kept for 50 frames.  From any state, a
    stored track that finds no match in a run of calls, and whose counter does
    not pass 50 on the way, is still in the store afterwards, unchanged except
    for [missingFrames], which has grown by the number of calls. *)
Theorem unmatched_track_kept (self : ObjectTracker R)
    (frames : list (list (DetectionItem R) * Z)) (t : TrackedObject R) :
  t ∈ tracks self →
  neverMatched (id t) self frames = true →
  missingFrames t + Z.of_nat (length frames) ≤ 50 →
  mkTrack (id t) (class t) (box t) (centroid t) (history t)
          (missingFrames t + Z.of_nat (length frames))
          (speed t) (dy t) (laneStatus t) (createdAt t)
  ∈ tracks (run self frames).
Proof. apply run_unmatched_kept. Qed.

End Retention.

(** A car seen once, then 50 frames that show another car far away. *)
Lemma unmatched_track_kept_witness :
  mkTrack 1 "car" (fbox 400 400 500 500) (getCentroid (fbox 400 400 500 500))
          [getCentroid (fbox 400 400 500 500)] (0 + Z.of_nat 50) (num 0) (num 0) Stable 1
  ∈ tracks (run (run newTracker [([car (fbox 400 400 500 500)], 1)])
                (replicate 50 ([car (fbox 0 0 50 50)], 2))).
Proof.
  apply (unmatched_track_kept (R:=float)
           (run newTracker [([car (fbox 400 400 500 500)], 1)])
           (replicate 50 ([car (fbox 0 0 50 50)], 2))
           (mkTrack 1 "car" (fbox 400 400 500 500) (getCentroid (fbox 400 400 500 500))
              [getCentroid (fbox 400 400 500 500)] 0 (num 0) (num 0) Stable 1)).
  - vm_compute. left.
  - vm_compute. reflexivity.
  - vm_compute. discriminate.
Defined.

(** ** Detections that are not tracked *)

Section Views.
Context {R : Type} `{JsNum R}.

Abbreviation Det := (DetectionItem R).
Abbreviation Track := (TrackedObject R).

#[local] Arguments matchTrack : simpl never.
#[local] Arguments createTrack : simpl never.
#[local] Arguments calculateIoU : simpl never.
#[local] Arguments getCentroid : simpl never.
#[local] Arguments updateTrack : simpl never.
#[local] Arguments flagDetection : simpl never.

Lemma scanDets_view (A B : list Det) um (t : Track) sA sB index best :
  Forall2 (fun ra rb => A !! ra = B !! rb) sA sB →
  scanDets A um t index sA best = scanDets B um t index sB best.
Proof.
  intros Hv. revert index best.
  induction Hv as [|ra rb sA sB Heq _ IH]; intros index best; simpl; [done|].
  rewrite IH. f_equal. unfold considerDet. by rewrite Heq.
Qed.

Lemma alter_view vdA vdB (A B : list Det) (f : Det → Det) k ra rb :
  injective vdA → injective vdB → sameView vdA vdB A B →
  vdA !! k = Some ra → vdB !! k = Some rb →
  sameView vdA vdB (alter f ra A) (alter f rb B).
Proof.
  intros HiA HiB Hv Ha Hb. apply Forall2_same_length_lookup_2; [by eapply Forall2_length|].
  intros j ra' rb' Ha' Hb'.
  pose proof (Forall2_lookup_lr _ _ _ _ _ _ Hv Ha' Hb') as Heq.
  destruct (Nat.eq_dec j k) as [->|Hne].
  - assert (ra' = ra) as -> by congruence. assert (rb' = rb) as -> by congruence.
    by rewrite !list_lookup_alter_eq, Heq.
  - rewrite !list_lookup_alter_ne; [done| |].
    + intros <-. apply Hne. symmetry. by eapply HiB.
    + intros <-. apply Hne. symmetry. by eapply HiA.
Qed.

Lemma matchTrack_view vdA vdB (A B : list Det) um (t : Track) :
  injective vdA → injective vdB → sameView vdA vdB A B →
  ∃ B',
    matchTrack vdB (B, um) t
    = ((B', snd (fst (matchTrack vdA (A, um) t))), snd (matchTrack vdA (A, um) t)) ∧
    sameView vdA vdB (fst (fst (matchTrack vdA (A, um) t))) B'.
Proof.
  intros HiA HiB Hv. unfold matchTrack, bestMatch.
  rewrite (scanDets_view A B um t vdA vdB 0 (None, num 0) Hv).
  destruct (fst (scanDets B um t 0 vdB (None, num 0))) as [k|]; [|by exists B].
  destruct (vdA !! k) as [ra|] eqn:Ha.
  - destruct (Forall2_lookup_l _ _ _ _ _ Hv Ha) as (rb & Hb & Heq).
    rewrite Hb, <- Heq. destruct (A !! ra) as [m|]; [|by exists B].
    destruct (box_2d m) as [b|]; [|by exists B].
    eexists. split; [done|]. simpl. by eapply alter_view.
  - assert (Hb : vdB !! k = None).
    { apply lookup_ge_None. apply lookup_ge_None in Ha.
      by rewrite <- (Forall2_length _ _ _ Hv). }
    rewrite Hb. by exists B.
Qed.

Lemma matchTracks_view vdA vdB (A B : list Det) um (ts : list Track) :
  injective vdA → injective vdB → sameView vdA vdB A B →
  ∃ B',
    matchTracks vdB (B, um) ts
    = ((B', snd (fst (matchTracks vdA (A, um) ts))), snd (matchTracks vdA (A, um) ts)) ∧
    sameView vdA vdB (fst (fst (matchTracks vdA (A, um) ts))) B'.
Proof.
  intros HiA HiB. revert A B um.
  induction ts as [|t ts IH]; intros A B um Hv; simpl; [by exists B|].
  destruct (matchTrack_view vdA vdB A B um t HiA HiB Hv) as (B1 & E1 & V1).
  rewrite E1. destruct (matchTrack vdA (A, um) t) as [[A1 um1] t1]. simpl in *.
  destruct (IH A1 B1 um1 V1) as (B2 & E2 & V2).
  rewrite E2. destruct (matchTracks vdA (A1, um1) ts) as [[A2 um2] ts2]. simpl in *.
  by exists B2.
Qed.

Lemma createTracks_view vdA vdB timestamp (self : ObjectTracker R) (A B : list Det) um :
  injective vdA → injective vdB → sameView vdA vdB A B →
  ∃ B',
    createTracks vdB timestamp (self, B) um
    = (fst (createTracks vdA timestamp (self, A) um), B') ∧
    sameView vdA vdB (snd (createTracks vdA timestamp (self, A) um)) B'.
Proof.
  intros HiA HiB. revert self A B.
  induction um as [|k um IH]; intros self A B Hv; [by exists B|].
  unfold createTracks in *. simpl.
  assert (Hstep : ∃ B1,
            createTrack vdB timestamp (self, B) k
            = (fst (createTrack vdA timestamp (self, A) k), B1) ∧
            sameView vdA vdB (snd (createTrack vdA timestamp (self, A) k)) B1).
  { unfold createTrack. destruct (vdA !! k) as [ra|] eqn:Ha.
    - destruct (Forall2_lookup_l _ _ _ _ _ Hv Ha) as (rb & Hb & Heq).
      rewrite Hb, <- Heq. destruct (A !! ra) as [d|]; [|by exists B].
      destruct (box_2d d) as [b|]; [|by exists B].
      eexists. split; [done|]. simpl. by eapply alter_view.
    - assert (Hb : vdB !! k = None).
      { apply lookup_ge_None. apply lookup_ge_None in Ha.
        by rewrite <- (Forall2_length _ _ _ Hv). }
      rewrite Hb. by exists B. }
  destruct Hstep as (B1 & E1 & V1). rewrite E1.
  destruct (createTrack vdA timestamp (self, A) k) as [self1 A1]. simpl in *.
  by apply IH.
Qed.

Lemma flagDetections_view (ts : list Track) flow vdA vdB (A B : list Det) :
  injective vdA → injective vdB → sameView vdA vdB A B →
  sameView vdA vdB (flagDetections ts flow vdA A) (flagDetections ts flow vdB B).
Proof.
  intros HiA HiB. unfold flagDetections.
  assert (Hg : ∀ sA sB pA pB A B,
            vdA = pA ++ sA → vdB = pB ++ sB → length pA = length pB →
            Forall2 (fun _ _ : nat => True) sA sB →
            sameView vdA vdB A B →
            sameView vdA vdB
              (fold_left (fun ds ref => alter (flagDetection ts flow) ref ds) sA A)
              (fold_left (fun ds ref => alter (flagDetection ts flow) ref ds) sB B)).
  { intros sA sB pA pB A0 B0 EA EB Hlen Hs. revert pA pB A0 B0 EA EB Hlen.
    induction Hs as [|ra rb sA sB _ _ IH]; intros pA pB A0 B0 EA EB Hlen Hv; [done|].
    simpl. apply (IH (pA ++ [ra]) (pB ++ [rb])).
    - by rewrite <- app_assoc.
    - by rewrite <- app_assoc.
    - rewrite !length_app. simpl. lia.
    - apply (alter_view vdA vdB A0 B0 _ (length pA)); [done|done|done| |].
      + by rewrite EA, lookup_app_r, Nat.sub_diag.
      + by rewrite EB, lookup_app_r, Hlen, Nat.sub_diag by lia. }
  intros Hv. apply (Hg vdA vdB [] []); [done|done|done| |done].
  eapply Forall2_impl; [exact Hv|done].
Qed.

Lemma update_view (self : ObjectTracker R) (A B : list Det) timestamp :
  sameView (validDetections A) (validDetections B) A B →
  fst (update self B timestamp) = fst (update self A timestamp) ∧
  sameView (validDetections A) (validDetections B)
           (snd (update self A timestamp)) (snd (update self B timestamp)).
Proof.
  intros Hv.
  pose proof (validDetections_injective A) as HiA.
  pose proof (validDetections_injective B) as HiB.
  rewrite !update_unfold. unfold trackFrame. simpl.
  rewrite <- (Forall2_length _ _ _ Hv).
  destruct (matchTracks_view _ _ A B (seq 0 (length (validDetections A)))
              (map incMissing (tracks self)) HiA HiB Hv) as (B1 & E1 & V1).
  rewrite E1.
  destruct (matchTracks (validDetections A) _ (map incMissing (tracks self)))
    as [[A1 um1] ts1]. simpl in *.
  destruct (createTracks_view _ _ timestamp (mkTracker ts1 (nextId self)) A1 B1 um1
              HiA HiB V1) as (B2 & E2 & V2).
  rewrite E2.
  destruct (createTracks (validDetections A) timestamp _ um1) as [self3 A2]. simpl in *.
  split; [done|]. by apply flagDetections_view.
Qed.

Lemma validFrom_all i (B : list Det) :
  Forall (fun d => isValid d = true) B → validFrom i B = seq i (length B).
Proof.
  intros Hall. revert i. induction Hall as [|d B Hd _ IH]; intros i; simpl; [done|].
  by rewrite Hd, IH.
Qed.

Lemma validFrom_filter i (A : list Det) :
  Forall2 (fun ra d => A !! (ra - i)%nat = Some d)
          (validFrom i A) (List.filter isValid A).
Proof.
  revert i. induction A as [|d A IH]; intros i; simpl; [constructor|].
  assert (Htail : Forall2 (fun ra d0 => (d :: A) !! (ra - i)%nat = Some d0)
                          (validFrom (S i) A) (List.filter isValid A)).
  { apply Forall2_same_length_lookup_2; [by eapply Forall2_length, IH|].
    intros k ra d0 Hra Hd0.
    pose proof (Forall2_lookup_lr _ _ _ _ _ _ (IH (S i)) Hra Hd0) as Hl.
    apply validFrom_lookup in Hra as [Hge _].
    replace (ra - i)%nat with (S (ra - S i)) by lia. done. }
  destruct (isValid d); [|done]. constructor; [|done]. by rewrite Nat.sub_diag.
Qed.

Lemma filter_isValid_all (A : list Det) :
  Forall (fun d => isValid d = true) (List.filter isValid A).
Proof.
  apply Forall_forall. intros d Hd. by apply list_elem_of_In, filter_In in Hd as [_ ?].
Qed.

Lemma sameView_filter (A : list Det) :
  sameView (validDetections A) (validDetections (List.filter isValid A))
           A (List.filter isValid A).
Proof.
  unfold sameView, validDetections.
  rewrite (validFrom_all 0 _ (filter_isValid_all A)).
  pose proof (validFrom_filter 0 A) as Hf.
  apply Forall2_same_length_lookup_2.
  - rewrite length_seq. by eapply Forall2_length.
  - intros k ra rb Hra Hrb. apply lookup_seq in Hrb as [-> Hlt]. simpl.
    destruct (lookup_lt_is_Some_2 (List.filter isValid A) k Hlt) as [d Hd].
    pose proof (Forall2_lookup_lr _ _ _ _ _ _ Hf Hra Hd) as Hl.
    simpl in Hl. rewrite ?Nat.sub_0_r in Hl. congruence.
Qed.

Lemma validFrom_ext i (A A' : list Det) :
  Forall2 (fun d d' => isValid d' = isValid d) A A' → validFrom i A' = validFrom i A.
Proof.
  intros Hrel. revert i. induction Hrel as [|d d' A A' Hv _ IH]; intros i; simpl; [done|].
  by rewrite Hv, IH.
Qed.

Lemma update_isValid (self : ObjectTracker R) (A : list Det) timestamp :
  Forall2 (fun d d' => isValid d' = isValid d) A (snd (update self A timestamp)).
Proof.
  assert (Hev : evolves (mkAllowed (fun _ => True) True) A (snd (update self A timestamp))).
  { apply update_evolves; [done|done|by apply Forall_forall]. }
  eapply Forall2_impl; [exact Hev|]. simpl. intros d d' [Hann _].
  apply annotated_base in Hann as (_ & _ & _ & Hty & Hbox).
  unfold isValid. by rewrite Hty, Hbox.
Qed.

(** X21. Detections that are not tracked do not disturb the tracking.
    From any state, leaving out of the input the detections that are not
    vehicles or have no box changes neither the tracker state after the call
    nor what the vehicle detections that have a box are returned with. *)
Theorem untracked_do_not_interfere (self : ObjectTracker R)
    (detections : list (DetectionItem R)) (timestamp : Z) :
  fst (update self (List.filter isValid detections) timestamp)
  = fst (update self detections timestamp) ∧
  snd (update self (List.filter isValid detections) timestamp)
  = List.filter isValid (snd (update self detections timestamp)).
Proof.
  set (kept := List.filter isValid detections).
  destruct (update_view self detections kept timestamp (sameView_filter detections))
    as [Hst Hv].
  split; [done|].
  set (outA := snd (update self detections timestamp)) in *.
  set (outB := snd (update self kept timestamp)) in *.
  assert (HvA : validDetections outA = validDetections detections)
    by apply validFrom_ext, update_isValid.
  assert (HvalidB : Forall (fun d => isValid d = true) outB).
  { pose proof (update_isValid self kept timestamp) as Hrel. fold outB in Hrel.
    pose proof (filter_isValid_all detections) as Hall. fold kept in Hall.
    clearbody outB kept. clear -Hrel Hall.
    induction Hrel as [|d d' A A' Hv _ IH]; [constructor|].
    apply Forall_cons in Hall as [Hd Hall]. constructor; [congruence|by apply IH]. }
  assert (HvB : validDetections kept = seq 0 (length outB)).
  { unfold validDetections, kept. rewrite (validFrom_all 0 _ (filter_isValid_all detections)).
    f_equal. symmetry. apply update_length. }
  pose proof (validFrom_filter 0 outA) as Hf. fold (validDetections outA) in Hf.
  rewrite HvA in Hf. rewrite HvB in Hv.
  assert (Hlen : length (List.filter isValid outA) = length outB).
  { rewrite <- (Forall2_length _ _ _ Hf), (Forall2_length _ _ _ Hv). by rewrite length_seq. }
  apply list_eq_same_length with (length outB); [done|done|].
  intros k x y Hk Hx Hy.
  {
    destruct (lookup_lt_is_Some_2 (validDetections detections) k) as [ra Hra].
    { rewrite (Forall2_length _ _ _ Hv), length_seq. done. }
    pose proof (Forall2_lookup_lr _ _ _ _ _ _ Hf Hra Hy) as HlA.
    simpl in HlA. rewrite ?Nat.sub_0_r in HlA.
    assert (Hrb : seq 0 (length outB) !! k = Some k) by (by apply lookup_seq).
    pose proof (Forall2_lookup_lr _ _ _ _ _ _ Hv Hra Hrb) as HlAB.
    unfold outA, outB in *. congruence. }
Qed.

End Views.

(** ** The size of the store *)

Section StoreSize.
Context {R : Type} `{JsNum R}.

Abbreviation Det := (DetectionItem R).
Abbreviation Track := (TrackedObject R).

#[local] Arguments matchTrack : simpl never.
#[local] Arguments createTrack : simpl never.

Lemma filter_length_Forall2 {A B} (rel : A → B → Prop) (p : A → bool) (q : B → bool) l l' :
  Forall2 rel l l' → (∀ x y, rel x y → q y = true → p x = true) →
  (length (List.filter q l') ≤ length (List.filter p l))%nat.
Proof.
  intros Hrel Hpq. induction Hrel as [|x y l l' Hxy _ IH]; simpl; [lia|].
  destruct (q y) eqn:Hq.
  - rewrite (Hpq x y Hxy Hq). simpl. lia.
  - destruct (p x); simpl; lia.
Qed.

Lemma filter_nothing {A} (p : A → bool) (l : list A) :
  Forall (fun x => p x = false) l → List.filter p l = [].
Proof. induction 1 as [|x l Hx _ IH]; simpl; [done|]. by rewrite Hx. Qed.

Lemma filter_filter_le {A} (p q : A → bool) (l : list A) :
  (length (List.filter p (List.filter q l)) ≤ length (List.filter p l))%nat.
Proof.
  induction l as [|x l IH]; simpl; [lia|].
  destruct (q x); simpl; destruct (p x); simpl; lia.
Qed.

Lemma validDetections_length (dets : list Det) :
  length (validDetections dets) = length (List.filter isValid dets).
Proof.
  unfold validDetections. generalize 0%nat.
  induction dets as [|d ds IH]; intros n; simpl; [done|].
  destruct (isValid d); simpl; by rewrite IH.
Qed.

(** The tracks that have gone unmatched for [k + 1] calls after a call
    had gone unmatched for [k] calls before it. *)
Lemma update_older (self : ObjectTracker R) (dets : list Det) timestamp (k : Z) :
  0 ≤ k →
  (length (List.filter (fun t => (missingFrames t =? k + 1)%Z)
                       (tracks (fst (update self dets timestamp))))
   ≤ length (List.filter (fun t => (missingFrames t =? k)%Z) (tracks self)))%nat.
Proof.
  intros Hk. rewrite update_unfold. simpl.
  destruct (trackFrame self dets timestamp) as [self3 dets3] eqn:Htf. simpl.
  destruct (trackFrame_created _ _ _ _ _ Htf)
    as (dets1 & um1 & ts1 & news & Hm & Hnd & E1 & _ & E3 & E4 & _).
  destruct (matchTracks_spec _ _ _ _ _ _ _ (validDetections_injective dets) Hm)
    as (_ & _ & _ & I4 & _).
  unfold cleanup.
  etrans; [apply filter_filter_le|].
  rewrite E1, List.filter_app, length_app.
  assert (Hnews : List.filter (fun t : Track => missingFrames t =? k + 1) news = []).
  { apply (filter_nothing _ news). apply Forall_forall.
    intros t [q Hq]%list_elem_of_lookup_1.
    destruct (lookup_lt_is_Some_2 um1 q) as [j Hj].
    { rewrite <- E3. by eapply lookup_lt_Some. }
    destruct (E4 q j Hj) as (ref & d & b & _ & _ & _ & Hn & _).
    rewrite Hq in Hn. injection Hn as ->.
    unfold newTrackOf. cbn [missingFrames]. apply Z.eqb_neq. lia. }
  rewrite Hnews. simpl. rewrite Nat.add_0_r.
  etrans.
  - eapply (filter_length_Forall2 _ (fun t : Track => missingFrames t =? k + 1));
      [exact I4|].
    intros t t1 [->|(j & ref & b & d' & _ & _ & _ & _ & -> & _)] Hq; [done|].
    unfold updateTrack in Hq. cbn [missingFrames] in Hq. apply Z.eqb_eq in Hq. lia.
  - clear. induction (tracks self) as [|t ts IH]; simpl; [lia|].
    replace (missingFrames t + 1 =? k + 1) with (missingFrames t =? k).
    + destruct (missingFrames t =? k); simpl; lia.
    + destruct (Z.eqb_spec (missingFrames t) k), (Z.eqb_spec (missingFrames t + 1) (k + 1));
        done || lia.
Qed.


Lemma run_bucket (frames : list (list Det * Z)) (M : nat) :
  Forall (fun fr => (length (List.filter isValid (fst fr)) ≤ M)%nat) frames →
  ∀ k, 0 ≤ k →
    (length (List.filter (fun t => (missingFrames t =? k)%Z) (tracks (run newTracker frames)))
     ≤ M)%nat.
Proof.
  induction frames as [|fr frames IH] using rev_ind; intros Hall k Hk.
  - simpl. lia.
  - apply Forall_app in Hall as [Hall Hfr]. apply Forall_cons in Hfr as [Hfr _].
    rewrite run_snoc. destruct (Z.eq_dec k 0) as [->|Hne].
    + pose proof (update_active_count (run newTracker frames) (fst fr) (snd fr)) as Hc.
      unfold getActiveTracksCount in Hc. rewrite Hc, validDetections_length; [done|].
      destruct (run_wf newTracker frames wf_newTracker) as (_ & Hok & _).
      eapply Forall_impl; [exact Hok|]. by intros t (_ & ? & _).
    + replace k with (k - 1 + 1) by lia.
      etrans; [apply update_older; lia|]. apply IH; [done|lia].
Qed.

Lemma bucket_split (K : nat) (l : list Track) :
  length (List.filter (fun t => (0 <=? missingFrames t)%Z && (missingFrames t <? Z.of_nat (S K))%Z) l)
  = (length (List.filter (fun t => (0 <=? missingFrames t)%Z && (missingFrames t <? Z.of_nat K)%Z) l)
     + length (List.filter (fun t => (missingFrames t =? Z.of_nat K)%Z) l))%nat.
Proof.
  induction l as [|t l IH]; [done|]. cbn [List.filter].
  destruct (Z.leb_spec 0 (missingFrames t)), (Z.ltb_spec (missingFrames t) (Z.of_nat (S K))),
           (Z.ltb_spec (missingFrames t) (Z.of_nat K)),
           (Z.eqb_spec (missingFrames t) (Z.of_nat K));
    cbn [andb length]; lia.
Qed.

Lemma buckets (K M : nat) (l : list Track) :
  (∀ k, 0 ≤ k → (length (List.filter (fun t => (missingFrames t =? k)%Z) l) ≤ M)%nat) →
  (length (List.filter (fun t => (0 <=? missingFrames t)%Z && (missingFrames t <? Z.of_nat K)%Z) l)
   ≤ K * M)%nat.
Proof.
  intros Hb. induction K as [|K IH].
  - rewrite filter_nothing; [simpl; lia|]. apply Forall_forall. intros t _.
    destruct (Z.leb_spec 0 (missingFrames t)), (Z.ltb_spec (missingFrames t) (Z.of_nat 0));
      simpl; done || lia.
  - rewrite bucket_split. specialize (Hb (Z.of_nat K) ltac:(lia)). simpl. lia.
Qed.

(** X22. The store is bounded by the traffic: when no frame shown to a
    tracker since its construction had more than [M] detections that are
    vehicles with a box, the store never holds more than [51 * M] tracks
    (those of the current frame and the unmatched ones of the 50 frames
    before it). *)
Theorem store_bounded (frames : list (list (DetectionItem R) * Z)) (M : nat) :
  Forall (fun fr => (length (List.filter isValid (fst fr)) ≤ M)%nat) frames →
  (length (tracks (run newTracker frames)) ≤ 51 * M)%nat.
Proof.
  intros Hall.
  assert (Hrange : Forall (fun t : Track => 0 ≤ missingFrames t ≤ 50)
                          (tracks (run newTracker frames))).
  { destruct (run_wf newTracker frames wf_newTracker) as (_ & Hok & _).
    destruct frames as [|fr frames _] using rev_ind; [constructor|].
    rewrite run_snoc in *. rewrite update_unfold in *. simpl in *.
    pose proof (cleanup_bound (tracks (fst (trackFrame (run newTracker frames) (fst fr) (snd fr)))))
      as Hhi.
    rewrite Forall_forall in *. intros t Ht. split.
    - by destruct (Hok t Ht) as (_ & ? & _).
    - specialize (Hhi t Ht). unfold maxMissingFrames in Hhi. lia. }
  rewrite <- (filter_all (fun t : Track =>
                (0 <=? missingFrames t)%Z && (missingFrames t <? Z.of_nat 51)%Z)
              (tracks (run newTracker frames))) at 1.
  - apply buckets. by apply run_bucket.
  - eapply Forall_impl; [exact Hrange|]. intros t [? ?]. simpl.
    apply andb_true_iff. split; [by apply Z.leb_le|apply Z.ltb_lt; lia].
Qed.

End StoreSize.


(** One car per frame for three frames: at most 51 tracks. *)
Lemma store_bounded_witness :
  (length (tracks (run newTracker
                     [([car (fbox 0 0 10 10)], 1%Z); ([car (fbox 500 500 600 600)], 2%Z);
                      ([car (fbox 900 900 950 950)], 3%Z)]))
   ≤ 51 * 1)%nat.
Proof.
  apply (store_bounded (R:=float)
           [([car (fbox 0 0 10 10)], 1%Z); ([car (fbox 500 500 600 600)], 2%Z);
            ([car (fbox 900 900 950 950)], 3%Z)] 1%nat).
  repeat constructor.
Defined.
